(* ===== verification/_CoqProject ===== *)
-Q . S2P
Prelude.v
Runtime.v
Semaphore.v
FanOutFanIn.v
WorkerPool.v
Generator.v
Future.v
PubSub.v
