(* ===== verification/Prelude.v ===== *)
(** * Verification of go-concurrency-patterns

    The repository is a set of small Go programs, one per directory under
    [src/], each demonstrating one concurrency pattern with goroutines,
    channels, [sync.WaitGroup] and [context]. The core, as the spec names
    it, is a fan-out/fan-in pipeline with cooperative cancellation
    ([src/fanout-fanin/main.go]), a bounded worker pool
    ([src/worker-pool/main.go]) and a counting semaphore used as a permit
    gate ([src/semaphore/main.go]). The future/promise
    ([src/future-promise/main.go]), publish/subscribe
    ([src/pubsub/main.go]) and generator ([src/generator/main.go])
    programs are the spec's external collaborators. The programs do not
    call each other: they share the Go runtime (channels, [WaitGroup],
    the context deadline), which [Runtime] models once for all of them.

    ** How the programs are modelled

    Each Go program is a transition system. Its state is a [Record]
    holding the program counter of every goroutine (an [Inductive] whose
    constructors are the blocking points of the goroutine's code), the
    channels, the [WaitGroup] counter, the context's cancellation flag and
    what the program has printed. An event names the goroutine that moves
    and the [select] case it takes, and [step : state -> event -> outcome
    state] is an executable function that runs that goroutine up to its
    next blocking point. Its result is [Blocked] when the case is not
    ready, [Panicked] when the Go runtime would panic (send on or close of
    a closed channel, close of a nil channel, negative [WaitGroup]
    counter) and [Next s'] otherwise. Since [select] picks among ready
    cases at random and the scheduler interleaves goroutines arbitrarily,
    every choice is an event: the relation [s ~[ step ]~> s'] (some event
    takes [s] to [s']) covers every interleaving of the real program.
    Unbuffered channels ([make(chan T)]) synchronise a sender and a
    waiting receiver in one event (a rendezvous); buffered channels are
    FIFO queues of bounded length; [select] with a [default] case is
    [chan_try_send]. The context deadline ([WithTimeout]) is an
    environment event that may fire at any moment, since the model has no
    clock. When [main] returns the Go process exits; the model makes every
    event [Blocked] from then on. Go's [int] is kept at 64 bits with its
    wrap-around ([wrap_int]) where the code does arithmetic on it.

    ** Files

    - [Prelude]: this header, the [go_scope] notation scope, the [go]
      hint database and the generic lemmas on lists, [insert],
      [sum_list_with] and submultisets that the components share.
    - [Runtime]: the Go runtime: channels ([chan], [make_chan],
      [chan_send], [chan_recv], [chan_close], [chan_handoff],
      [chan_try_send]), [sync.WaitGroup] ([wg_add], [wg_done],
      [wg_wait_ready]), Go's [int] ([wrap_int]), the [outcome] monad, the
      reachability closure [~[ step ]~>*] of a step function with the
      invariant and measure principles, and the interface [ProgramLaws]
      (a [Class]): invariant preserved, measure decreasing, no panic and
      progress. Each program's model is an [Instance] of it, and the
      generic lemmas [laws_panic_free], [laws_stuck_exited],
      [laws_eventually_exits] and [laws_run_bound] give every program its
      safety, deadlock-freedom, exit and termination theorems.
    - [Semaphore] (Module [Semaphore]): [src/semaphore/main.go].
      [Semaphore] is a buffered [chan struct{}]; [NewSemaphore],
      [Acquire], [TryAcquire] and [release] are channel operations. The
      spec's Permit Gate is the record [gate] (capacity and available
      permits) and [refines] relates the two; the demo [main] of five
      workers is [demo_step] with the inductive [dstep].
    - [FanOutFanIn] (Module [FanOutFanIn]): [src/fanout-fanin/main.go]:
      the producer goroutine of [main], the [fanOut] lanes, the [fanIn]
      forwarders, the closer goroutine and [main]'s [range] loop ([step],
      with the inductive [fstep]). This is the spec's Worker Stage, Merge
      Stage and Pipeline Controller.
    - [WorkerPool] (Module [WorkerPool]): [src/worker-pool/main.go]:
      [Worker] goroutines, the job-sending, closing and collecting phases
      of [main] ([wp_step], with the inductive [wstep]).
    - [Generator] (Module [Generator]): [src/generator/main.go]:
      [Generator(n)]'s and [GeneratorWithStop]'s goroutines and [main]'s
      two loops.
    - [Future] (Module [Future]): [src/future-promise/main.go]: the
      generic API ([NewFuture], the goroutine [future_run], [Get]) in a
      [Section] over the value type, and [main]'s two futures.
    - [PubSub] (Module [PubSub]): [src/pubsub/main.go]: the broker's
      methods on a broker map of channel identifiers and a [heap] of
      channels (a Go channel is a reference, so [Unsubscribe]'s [close]
      is seen by the subscriber holding it), a client's call sequences
      ([api_run]), broker equivalence [ps_equiv] with [Proper] instances,
      and [main]'s publisher and two subscribers.

    ** What the theorems show

    The claims C1-C38 are the doc-commented theorems of the component
    files. For each concurrent program: an invariant preserved by every
    step (channel ownership, the [WaitGroup] counter equals the number of
    live goroutines that will call [Done], buffer bounds); no Go runtime
    panic in any reachable state; that [main] returns; a bound on the
    length of every run; and the functional result. Where [main] has its
    own [ctx.Done()] exits, "returns" is stated without the deadline
    (C22, C33): from every state where the deadline has not fired, a run
    that never fires it reaches [main]'s return, so the program finishes
    by its goroutines' work ([laws_exits_avoiding]), not through a
    timeout. The fan-out/fan-in pipeline and the worker pool print,
    without a deadline, every result exactly once, and under
    cancellation a submultiset of them (C1, C2, C18, C19); [process]
    computes the 64-bit wrap-around of [2 * input] (C9); the semaphore
    refines the Permit Gate (C10-C13); the generator's output is exact
    (C26, C27); a future's [Get] returns fn's value or error, once (C30,
    C31); the broker never fails its client, delivers best-effort (a
    subscriber with a full buffer misses the message), and unsubscribing
    undoes subscribing (C34-C36). The findings are theorems too: the
    merged stream closed before a lane returns (C4), a leaked producer
    (C5), the semaphore demo releasing before the work (C15), zero
    values read from a closed channel (C28) and a future result never
    printed (C32).

    ** Bounds and fuel

    No fuel is needed: each step function runs one goroutine to its next
    blocking point, which takes a bounded number of Go statements.
    Termination is proved by a natural-number measure that every step
    decreases from an invariant state, not assumed by fuel; the measure
    of the initial state bounds the length of every run (4 |jobs| + 2 n +
    4 for the pipeline of [n] lanes, 5 numJobs + numWorkers + 5 for the
    pool, 2 n + 10 for the generator). [GeneratorWithStop]'s counter is
    a Go [int], kept below 2^63 by the invariant.

    ** Not modelled

    Wall-clock time ([time.Sleep], the deadlines' durations) is abstracted
    into the nondeterministic deadline event, so every timing the real
    program could see is a schedule of the model; the text written by
    [fmt.Printf] is modelled by the structured values printed, not the
    formatted strings. The [sync.RWMutex] of the broker is modelled by
    making each method one atomic step. [PubSub]'s [Content] is an
    [interface{}] that [main] only fills with strings; the model takes it
    as a string. *)

From stdpp Require Export list relations.

Declare Scope go_scope.
Delimit Scope go_scope with go.

Create HintDb go discriminated.

(** ** Lists updated in place *)

Section list_insert.
Context {A : Type}.
Implicit Types (ls : list A) (x y : A).

(** Replacing the element at [k] changes a sum over the list by the
    difference of the two summands. *)
Lemma sum_list_with_insert (f : A → nat) ls k x y :
  ls !! k = Some x →
  sum_list_with f (<[k:=y]> ls) + f x = sum_list_with f ls + f y.
Proof.
  revert k; induction ls as [|z ls IH]; intros [|k] Hk; simplify_eq/=; [lia|].
  specialize (IH k Hk); lia.
Qed.

(** The same for the multiset of values held by the elements. *)
Lemma mjoin_insert_perm {B} (f : A → list B) ls k x y :
  ls !! k = Some x →
  f y ++ mjoin (f <$> ls) ≡ₚ f x ++ mjoin (f <$> <[k:=y]> ls).
Proof.
  revert k; induction ls as [|z ls IH]; intros [|k] Hk; simplify_eq/=.
  - apply Permutation_app_swap_app.
  - rewrite Permutation_app_swap_app, (IH k Hk). apply Permutation_app_swap_app.
Qed.

Lemma mjoin_insert_same {B} (f : A → list B) ls k x y :
  ls !! k = Some x → f y = f x →
  mjoin (f <$> <[k:=y]> ls) ≡ₚ mjoin (f <$> ls).
Proof.
  intros Hk Hf. apply (Permutation_app_inv_l (f x)).
  rewrite <-(mjoin_insert_perm f ls k x y Hk), Hf. done.
Qed.

(** A summand is bounded by the sum. *)
Lemma sum_list_with_lookup (f : A → nat) ls k x :
  ls !! k = Some x → f x ≤ sum_list_with f ls.
Proof.
  intros Hk. apply sum_list_with_in. by eapply list_elem_of_lookup_2.
Qed.

(** A sum is zero exactly when every summand is. *)
Lemma sum_list_with_zero (f : A → nat) ls :
  sum_list_with f ls = 0 ↔ ∀ k x, ls !! k = Some x → f x = 0.
Proof.
  induction ls as [|z ls IH]; simpl.
  - split; [intros _ k x Hk; done | done].
  - split.
    + intros Hs [|k] x Hk; simplify_eq/=; [lia|].
      exact (proj1 IH ltac:(lia) k x Hk).
    + intros Hall. rewrite (Hall 0 z eq_refl). simpl.
      apply IH. intros k x Hk. exact (Hall (S k) x Hk).
Qed.

(** Joining the lists of elements that all map to [[]]. *)
Lemma mjoin_fmap_nil {B} (f : A → list B) ls :
  (∀ k x, ls !! k = Some x → f x = []) → mjoin (f <$> ls) = [].
Proof.
  induction ls as [|z ls IH]; intros Hall; simpl; [done|].
  rewrite (Hall 0 z eq_refl). apply IH. intros k x Hk. exact (Hall (S k) x Hk).
Qed.

Lemma sum_list_with_replicate (f : A → nat) m x :
  sum_list_with f (replicate m x) = m * f x.
Proof. induction m as [|m IH]; simpl; lia. Qed.

(** A positive sum has a positive summand. *)
Lemma sum_list_with_pos (f : A → nat) ls :
  sum_list_with f ls ≠ 0 → ∃ k x, ls !! k = Some x ∧ f x ≠ 0.
Proof.
  induction ls as [|z ls IH]; simpl; [done|]. intros Hs.
  destruct (decide (f z = 0)) as [Hz|Hz]; [|by exists 0, z].
  destruct IH as (k & x & Hk & Hx); [lia|]. by exists (S k), x.
Qed.
End list_insert.

(** ** Submultisets *)

Section submseteq_facts.
Context {A : Type}.
Implicit Types (l k : list A).

(** Dropping an element that is in flight keeps a submultiset. *)
Lemma submseteq_drop_middle l1 x l2 k :
  l1 ++ x :: l2 ⊆+ k → l1 ++ l2 ⊆+ k.
Proof.
  intros H. transitivity (l1 ++ x :: l2); [|exact H].
  apply submseteq_app; [done|]. by apply submseteq_cons.
Qed.
End submseteq_facts.

#[export] Hint Resolve submseteq_drop_middle : go.
#[export] Hint Resolve Permutation_submseteq : go.
