(* ===== verification/Runtime.v ===== *)
(** The Go runtime the programs call: channels, [sync.WaitGroup], the
    outcome of a step (blocked, panicked, next state) and the closure of
    a step function into a reachability relation, with the invariant and
    termination principles every component uses. The channel and
    WaitGroup operations follow the Go language specification and the
    [sync] package, not code of the repository. *)

From S2P Require Import Prelude.

Set Warnings "-clear-no-such-hyp".

(** ** Outcome of running a goroutine to its next blocking point *)

(** The runtime panics the programs could raise. *)
Inductive panic_reason :=
  | SendOnClosed        (* "send on closed channel" *)
  | CloseOfClosed       (* "close of closed channel" *)
  | CloseOfNil          (* "close of nil channel" *)
  | MakeChanSize        (* "makechan: size out of range" *)
  | NegativeWaitGroup.  (* "sync: negative WaitGroup counter" *)

#[export] Instance panic_reason_eq_dec : EqDecision panic_reason.
Proof. solve_decision. Defined.

Inductive outcome (S : Type) : Type :=
  | Blocked
  | Panicked (r : panic_reason)
  | Next (s : S).
Arguments Blocked {S}.
Arguments Panicked {S} r.
Arguments Next {S} s.

#[export] Instance outcome_ret : MRet outcome := λ _ s, Next s.
#[export] Instance outcome_bind : MBind outcome := λ A B f o,
  match o with
  | Blocked => Blocked
  | Panicked r => Panicked r
  | Next s => f s
  end.

(** [outcome_cases H] splits a hypothesis [H : step s e = Next s'] over
    the binds and matches of a step function, keeping the cases that
    reach [Next]. *)
Ltac outcome_cases H := unfold mbind, outcome_bind in H; repeat case_match; simplify_eq.

(** ** Channels *)

Section chan.
Context {A : Type}.

(** A channel: its buffer (oldest value first), its capacity ([0] for
    [make(chan T)]) and whether [close] was called. *)
Record chan := MkChan {
  chan_buf : list A;
  chan_cap : nat;
  chan_closed : bool;
}.

(** [make(chan T, cap)] *)
Definition make_chan (cap : nat) : chan := MkChan [] cap false.

(** [make(chan T, n)] with [n] a Go [int]: a negative size panics. *)
Definition make_chan_int (n : Z) : outcome chan :=
  if decide (n < 0)%Z then Panicked MakeChanSize else Next (make_chan (Z.to_nat n)).

(** [c <- v] on a buffered channel: panics if [c] is closed, blocks
    while the buffer is full, otherwise appends [v]. *)
Definition chan_send (c : chan) (v : A) : outcome chan :=
  if chan_closed c then Panicked SendOnClosed
  else if decide (length (chan_buf c) < chan_cap c)
  then Next (MkChan (chan_buf c ++ [v]) (chan_cap c) false)
  else Blocked.

(** [v, ok := <-c]: the oldest buffered value, or [(zero, false)]
    (here [None]) once [c] is closed and drained; blocks otherwise.
    Receiving from an unbuffered channel with a waiting sender is the
    rendezvous [chan_handoff] below. *)
Definition chan_recv (c : chan) : outcome (option A * chan) :=
  match chan_buf c with
  | v :: b => Next (Some v, MkChan b (chan_cap c) (chan_closed c))
  | [] => if chan_closed c then Next (None, c) else Blocked
  end.

(** The channel after [close]: same buffer, closed flag set. *)
Definition mark_closed (c : chan) : chan := MkChan (chan_buf c) (chan_cap c) true.

(** [close(c)]: panics on a closed channel. *)
Definition chan_close (c : chan) : outcome chan :=
  if chan_closed c then Panicked CloseOfClosed else Next (mark_closed c).

(** [select { case c <- v: default: }]: panics if [c] is closed,
    appends [v] when the buffer has room, and otherwise takes the
    [default] case, leaving [c] unchanged. *)
Definition chan_try_send (c : chan) (v : A) : outcome chan :=
  if chan_closed c then Panicked SendOnClosed
  else if decide (length (chan_buf c) < chan_cap c)
  then Next (MkChan (chan_buf c ++ [v]) (chan_cap c) false)
  else Next c.

(** A send on an unbuffered channel that meets a waiting receiver: the
    value passes directly, the channel is unchanged; a closed channel
    panics the sender. The caller checks that a receiver is waiting. *)
Definition chan_handoff (c : chan) : outcome unit :=
  if chan_closed c then Panicked SendOnClosed else Next tt.

(** The buffer never exceeds the capacity. *)
Definition chan_wf (c : chan) : Prop := length (chan_buf c) ≤ chan_cap c.

End chan.
Arguments chan : clear implicits.

(** ** sync.WaitGroup *)

(** [wg.Add(d)]: the counter is a Go [int]; a negative result panics. *)
Definition wg_add (n d : Z) : outcome Z :=
  if decide (n + d < 0)%Z then Panicked NegativeWaitGroup else Next (n + d)%Z.

(** [wg.Done()] is [wg.Add(-1)]. *)
Definition wg_done (n : Z) : outcome Z := wg_add n (-1).

(** [wg.Wait()] returns once the counter is zero. *)
Definition wg_wait_ready (n : Z) : bool := bool_decide (n = 0%Z).

(** ** Go's [int] *)

(** Go's [int] is a 64-bit two's complement integer: arithmetic wraps. *)
Definition wrap_int (z : Z) : Z := (Z.modulo (z + 2^63) (2^64) - 2^63)%Z.

(** ** Transition systems given by a step function *)

Section transition_system.
Context {S E : Type} (step : S → E → outcome S).

(** [s --> s']: some event (a goroutine and a ready [select] case)
    takes [s] to [s']. *)
Definition can_step (s s' : S) : Prop := ∃ e, step s e = Next s'.

(** No event can move: every goroutine is blocked or has exited. *)
Definition stuck (s : S) : Prop := ∀ e s', step s e ≠ Next s'.

(** No event raises a runtime panic. *)
Definition panic_free (s : S) : Prop := ∀ e r, step s e ≠ Panicked r.

(** Running a schedule: the events in order. *)
Fixpoint run (s : S) (es : list E) : outcome S :=
  match es with
  | [] => Next s
  | e :: es => step s e ≫= λ s', run s' es
  end.

End transition_system.

(** ** The interface of a program model

    What a component's model promises to the generic theorems below: an
    invariant preserved by every step, a measure every step decreases,
    no panic from an invariant state, and progress: an invariant state is
    one where the program has exited or some event can move. The
    components discharge it ([Instance]s in each file) and obtain
    termination, deadlock freedom and eventual exit from it. *)
Class ProgramLaws {S E : Type} (step : S → E → outcome S)
    (inv : S → Prop) (exited : S → Prop) (μ : S → nat) : Prop := {
  laws_inv_step : ∀ s e s', inv s → step s e = Next s' → inv s';
  laws_measure : ∀ s e s', inv s → step s e = Next s' → μ s' < μ s;
  laws_no_panic : ∀ s e r, inv s → step s e ≠ Panicked r;
  laws_progress : ∀ s, inv s → exited s ∨ ∃ e s', step s e = Next s';
}.

(** [s ~[ step ]~> s']: one step; [s ~[ step ]~>* s']: any number. *)
Notation "s ~[ step ]~> s'" := (can_step step s s')
  (at level 70, step at level 200, format "s  ~[ step ]~>  s'") : go_scope.
Notation "s ~[ step ]~>* s'" := (rtc (can_step step) s s')
  (at level 70, step at level 200, format "s  ~[ step ]~>*  s'") : go_scope.
Open Scope go_scope.

(** ** Laws of the outcome monad, channels and WaitGroups *)

Lemma outcome_bind_next {A B} (o : outcome A) (f : A → outcome B) b :
  (o ≫= f) = Next b ↔ ∃ a, o = Next a ∧ f a = Next b.
Proof. destruct o; simpl; split; intros; destruct_and?; destruct_or?; simplify_eq; naive_solver. Qed.

Lemma outcome_bind_panic {A B} (o : outcome A) (f : A → outcome B) r :
  (o ≫= f) = Panicked r ↔ o = Panicked r ∨ ∃ a, o = Next a ∧ f a = Panicked r.
Proof. destruct o; simpl; split; intros; destruct_and?; destruct_or?; simplify_eq; naive_solver. Qed.

Section chan_facts.
Context {A : Type}.
Implicit Types (c : chan A) (v : A).

Lemma chan_send_next c v c' :
  chan_send c v = Next c' ↔
  chan_closed c = false ∧ length (chan_buf c) < chan_cap c ∧
  c' = MkChan (chan_buf c ++ [v]) (chan_cap c) false.
Proof.
  unfold chan_send. destruct (chan_closed c); [split; naive_solver|].
  case_decide; split; naive_solver.
Qed.

Lemma chan_send_blocked c v :
  chan_send c v = Blocked ↔ chan_closed c = false ∧ chan_cap c ≤ length (chan_buf c).
Proof.
  unfold chan_send. destruct (chan_closed c); [split; naive_solver|].
  case_decide; split; intros; destruct_and?; try done; lia.
Qed.

Lemma chan_recv_some c v c' :
  chan_recv c = Next (Some v, c') ↔
  ∃ b, chan_buf c = v :: b ∧ c' = MkChan b (chan_cap c) (chan_closed c).
Proof.
  unfold chan_recv. destruct (chan_buf c) as [|w b]; [destruct (chan_closed c)|];
    split; naive_solver.
Qed.

Lemma chan_recv_none c c' :
  chan_recv c = Next (None, c') ↔ chan_buf c = [] ∧ chan_closed c = true ∧ c' = c.
Proof.
  unfold chan_recv. destruct (chan_buf c) as [|w b]; [destruct (chan_closed c)|];
    split; naive_solver.
Qed.

Lemma chan_send_wf c v c' : chan_wf c → chan_send c v = Next c' → chan_wf c'.
Proof.
  rewrite chan_send_next. intros _ (_ & Hlt & ->). unfold chan_wf; simpl.
  rewrite length_app; simpl; lia.
Qed.

Lemma chan_recv_wf c (v : option A) c' : chan_wf c → chan_recv c = Next (v, c') → chan_wf c'.
Proof.
  destruct v as [v|].
  - rewrite chan_recv_some. intros Hwf (b & Hb & ->). unfold chan_wf in *; simpl.
    rewrite Hb in Hwf; simpl in Hwf; lia.
  - rewrite chan_recv_none. naive_solver.
Qed.

Lemma chan_close_next c c' :
  chan_close c = Next c' ↔ chan_closed c = false ∧ c' = mark_closed c.
Proof. unfold chan_close. destruct (chan_closed c); naive_solver. Qed.

Lemma chan_handoff_next c u : chan_handoff c = Next u ↔ chan_closed c = false.
Proof. unfold chan_handoff. destruct (chan_closed c), u; naive_solver. Qed.

Lemma chan_try_send_open c v :
  chan_closed c = false →
  chan_try_send c v = Next (if decide (length (chan_buf c) < chan_cap c)
                            then MkChan (chan_buf c ++ [v]) (chan_cap c) false else c).
Proof. unfold chan_try_send. intros ->. by case_decide. Qed.

Lemma chan_send_panic c v r : chan_send c v = Panicked r → chan_closed c = true.
Proof. unfold chan_send. destruct (chan_closed c); [done|]. by case_decide. Qed.

Lemma chan_recv_no_panic c r : chan_recv c ≠ Panicked r.
Proof. unfold chan_recv. by destruct (chan_buf c), (chan_closed c). Qed.

Lemma chan_close_panic c r : chan_close c = Panicked r → chan_closed c = true.
Proof. unfold chan_close. by destruct (chan_closed c). Qed.

Lemma chan_close_wf c c' : chan_wf c → chan_close c = Next c' → chan_wf c'.
Proof.
  unfold chan_close, chan_wf. destruct (chan_closed c); intros ? [= <-]; done.
Qed.
End chan_facts.

#[export] Hint Resolve chan_send_wf chan_recv_wf chan_close_wf : go.

Lemma wg_done_next n n' : wg_done n = Next n' ↔ (0 < n)%Z ∧ n' = (n - 1)%Z.
Proof.
  unfold wg_done, wg_add. case_decide; split.
  - done.
  - intros [? ?]; lia.
  - intros [= <-]; lia.
  - intros [? ->]. f_equal; lia.
Qed.

Lemma wg_done_panic n r : wg_done n = Panicked r ↔ (n ≤ 0)%Z ∧ r = NegativeWaitGroup.
Proof.
  unfold wg_done, wg_add. case_decide; split.
  - intros [= <-]; split; [lia | done].
  - intros [? ->]; done.
  - done.
  - intros [? ?]; lia.
Qed.

Lemma wrap_int_small z : (-2^63 ≤ z < 2^63)%Z → wrap_int z = z.
Proof.
  intros Hz. unfold wrap_int. rewrite Z.mod_small; lia.
Qed.

Lemma wrap_int_range z : (-2^63 ≤ wrap_int z < 2^63)%Z.
Proof. unfold wrap_int. pose proof (Z.mod_pos_bound (z + 2^63) (2^64)). lia. Qed.

(** The wrapped value is congruent to [z] modulo 2^64. *)
Lemma wrap_int_congr z : ((wrap_int z - z) mod 2^64 = 0)%Z.
Proof.
  unfold wrap_int. rewrite (Z.mod_eq (z + 2^63) (2^64)) by lia.
  replace (z + 2 ^ 63 - 2 ^ 64 * ((z + 2 ^ 63) / 2 ^ 64) - 2 ^ 63 - z)%Z
    with (- ((z + 2^63) / 2^64) * 2^64)%Z by ring.
  apply Z.mod_mul. lia.
Qed.

(** Range and congruence determine the wrapped value: it is the one
    64-bit [int] congruent to [z]. *)
Lemma wrap_int_unique z y :
  (-2^63 ≤ y < 2^63)%Z → ((y - z) mod 2^64 = 0)%Z → y = wrap_int z.
Proof.
  intros Hy Hc. pose proof (wrap_int_range z) as Hr. pose proof (wrap_int_congr z) as Hw.
  assert (Hd : ((y - wrap_int z) mod 2^64 = 0)%Z).
  { replace (y - wrap_int z)%Z with ((y - z) - (wrap_int z - z))%Z by ring.
    rewrite Zminus_mod, Hc, Hw. done. }
  apply Z.mod_divide in Hd as [k Hk]; [|lia].
  assert (k = 0)%Z by nia. subst k. lia.
Qed.

(** ** Invariants and termination of a transition system *)

Section transition_facts.
Context {S E : Type} (step : S → E → outcome S).

Lemma run_rtc s es s' : run step s es = Next s' → s ~[ step ]~>* s'.
Proof.
  revert s; induction es as [|e es IH]; intros s; simpl.
  - intros [= ->]. done.
  - rewrite outcome_bind_next. intros (s1 & H1 & H2).
    eapply rtc_l; [by exists e | by apply IH].
Qed.

(** Invariants are proved by induction on the reachability relation. *)
Lemma rtc_invariant (I : S → Prop) :
  (∀ s e s', I s → step s e = Next s' → I s') →
  ∀ s s', I s → s ~[ step ]~>* s' → I s'.
Proof.
  intros Hstep s s' Hs Hr. induction Hr as [|s1 s2 s3 [e He] _ IH]; [done|].
  apply IH. eapply Hstep; eauto.
Qed.

(** Termination: a measure that every step decreases makes every run
    finite, i.e. the converse of [can_step] is well founded. *)
Lemma measure_terminates (μ : S → nat) :
  (∀ s e s', step s e = Next s' → μ s' < μ s) →
  ∀ s, Acc (flip (can_step step)) s.
Proof.
  intros Hdec s. remember (μ s) as n eqn:Hn. revert s Hn.
  induction n as [n IH] using lt_wf_ind. intros s ->.
  constructor. intros s' [e He]. eapply IH; [eapply Hdec; eauto | done].
Qed.

(** Along every run the measure bounds the number of steps. *)
Lemma measure_bounds_runs (μ : S → nat) :
  (∀ s e s', step s e = Next s' → μ s' < μ s) →
  ∀ s es s', run step s es = Next s' → length es + μ s' ≤ μ s.
Proof.
  intros Hdec s es; revert s; induction es as [|e es IH]; intros s s'; simpl.
  - intros [= ->]. lia.
  - rewrite outcome_bind_next. intros (s1 & H1 & H2).
    specialize (Hdec _ _ _ H1). specialize (IH _ _ H2). lia.
Qed.
(** The same from the states of an invariant, when the measure only
    decreases there. *)
Lemma measure_terminates_inv (I : S → Prop) (μ : S → nat) :
  (∀ s e s', I s → step s e = Next s' → I s' ∧ μ s' < μ s) →
  ∀ s, I s → Acc (flip (can_step step)) s.
Proof.
  intros Hdec s. remember (μ s) as n eqn:Hn. revert s Hn.
  induction n as [n IH] using lt_wf_ind. intros s -> Hs.
  constructor. intros s' [e He]. destruct (Hdec _ _ _ Hs He) as [Hs' Hlt].
  by eapply IH; [exact Hlt| |].
Qed.

Lemma measure_bounds_runs_inv (I : S → Prop) (μ : S → nat) :
  (∀ s e s', I s → step s e = Next s' → I s' ∧ μ s' < μ s) →
  ∀ s es s', I s → run step s es = Next s' → length es + μ s' ≤ μ s.
Proof.
  intros Hdec s es; revert s; induction es as [|e es IH]; intros s s' Hs; simpl.
  - intros [= ->]. lia.
  - rewrite outcome_bind_next. intros (s1 & H1 & H2).
    destruct (Hdec _ _ _ Hs H1) as [Hs1 Hlt]. specialize (IH _ _ Hs1 H2). lia.
Qed.
End transition_facts.

(** ** Theorems of every program model *)

Section program_laws.
Context {S E : Type} {step : S → E → outcome S} {inv exited : S → Prop} {μ : S → nat}.
Context `{!ProgramLaws step inv exited μ}.

Lemma laws_reachable s s' : inv s → s ~[ step ]~>* s' → inv s'.
Proof. intros Hs. apply rtc_invariant; [|done]. intros ???. apply laws_inv_step. Qed.

Lemma laws_step s e s' : inv s → step s e = Next s' → inv s' ∧ μ s' < μ s.
Proof. intros Hs He. split; [by eapply laws_inv_step|by eapply laws_measure]. Qed.

Lemma laws_terminates s : inv s → Acc (flip (can_step step)) s.
Proof. apply (measure_terminates_inv step inv μ), laws_step. Qed.

Lemma laws_panic_free s : inv s → panic_free step s.
Proof. intros Hs e r. by apply laws_no_panic. Qed.

(** A state where nothing can move has exited. *)
Lemma laws_stuck_exited s : inv s → stuck step s → exited s.
Proof.
  intros Hs Hst. destruct (laws_progress s Hs) as [|(e & s' & He)]; [done|].
  by destruct (Hst e s').
Qed.

(** Some run reaches an exited state. *)
Lemma laws_eventually_exits s : inv s → ∃ s', s ~[ step ]~>* s' ∧ exited s'.
Proof.
  intros Hs. induction (laws_terminates s Hs) as [s _ IH].
  destruct (laws_progress s Hs) as [|(e & s1 & He)]; [by exists s|].
  destruct (IH s1) as (s2 & ? & ?); [by exists e|by eapply laws_inv_step|].
  exists s2. split; [|done]. eapply rtc_l; [by exists e|done].
Qed.

(** Exit without the environment's help: if the events allowed by [P]
    preserve a property [Q] of the state, and from every invariant
    state satisfying [Q] the program has exited or some allowed event
    moves, then a run of allowed events only leads to the exit. With [P]
    excluding the deadline and [Q] "the context is live", this is
    "[main] returns without a timeout": the program finishes by its own
    work, not through its [ctx.Done()] cases. *)
Lemma laws_exits_avoiding (P : E → Prop) (Q : S → Prop) :
  (∀ s e s', Q s → P e → step s e = Next s' → Q s') →
  (∀ s, inv s → Q s → exited s ∨ ∃ e s', P e ∧ step s e = Next s') →
  ∀ s, inv s → Q s → ∃ es s', run step s es = Next s' ∧ Forall P es ∧ exited s' ∧ Q s'.
Proof.
  intros HQ Hprog s Hs Hq. induction (laws_terminates s Hs) as [s _ IH].
  destruct (Hprog s Hs Hq) as [|(e & s1 & He & Hstep)]; [by exists [], s|].
  destruct (IH s1) as (es & s2 & Hrun & Hall & Hex & Hq2);
    [by exists e|by eapply laws_inv_step|by eapply HQ|].
  exists (e :: es), s2. split_and!; [|by constructor|done|done].
  simpl. by rewrite Hstep.
Qed.

(** Every run's length is bounded by the measure of its first state. *)
Lemma laws_run_bound s es s' : inv s → run step s es = Next s' → length es ≤ μ s.
Proof.
  intros Hs Hr. pose proof (measure_bounds_runs_inv step inv μ laws_step _ _ _ Hs Hr). lia.
Qed.
End program_laws.
