(* ===== verification/Semaphore.v ===== *)
(** [src/semaphore/main.go]: a counting semaphore built on a buffered
    channel, and the demo [main] in which five workers use it.

    - [Semaphore], [NewSemaphore], [Acquire], [TryAcquire] and [release]
      are the functions of lines 10-42: a permit is a value in the
      channel's buffer, so acquiring sends and releasing receives.
    - [gate] is the spec's Permit Gate (a count of available permits out
      of a fixed capacity) and [refines] relates a semaphore to it; the
      refinement theorems show each operation of the code does what the
      gate's operation does, blocking included.
    - [demo] and [demo_step] model [main] (lines 44-71): five goroutines,
      each with its own one-second context, call [TryAcquire] and then the
      returned release function, print, and call [wg.Done()]. *)

From S2P Require Import Prelude Runtime.

Set Warnings "-clear-no-such-hyp".

Module Semaphore.

(** ** The semaphore (lines 10-42) *)

(** [type Semaphore struct { sem chan struct{} }] *)
Record Semaphore := MkSemaphore { sem : chan unit }.

(** [NewSemaphore(permits)]: [make(chan struct{}, permits)]. *)
Definition NewSemaphore (permits : Z) : outcome Semaphore :=
  c ← make_chan_int permits; Next (MkSemaphore c).

(** The function values [Acquire] and [TryAcquire] return: the method
    value [s.release], or [func() {}]. *)
Inductive release_func := SemRelease | NoopRelease.

#[export] Instance release_func_eq_dec : EqDecision release_func.
Proof. solve_decision. Defined.

(** [release]: [<-s.sem]; blocks while no permit is held. *)
Definition release (s : Semaphore) : outcome Semaphore :=
  r ← chan_recv (sem s); Next (MkSemaphore r.2).

(** Calling a returned function value. *)
Definition call (f : release_func) (s : Semaphore) : outcome Semaphore :=
  match f with SemRelease => release s | NoopRelease => Next s end.

(** [Acquire]: [s.sem <- struct{}{}]; blocks while the buffer is full. *)
Definition Acquire (s : Semaphore) : outcome (release_func * Semaphore) :=
  c ← chan_send (sem s) tt; Next (SemRelease, MkSemaphore c).

(** The two cases of [TryAcquire]'s [select]. *)
Inductive try_case := TrySend | TryDone.

(** [TryAcquire(ctx)]: the send case when the buffer has room, the
    [ctx.Done()] case when the context is cancelled ([ctx_done]). *)
Definition TryAcquire (s : Semaphore) (ctx_done : bool) (c : try_case)
    : outcome (release_func * bool * Semaphore) :=
  match c with
  | TrySend => ch ← chan_send (sem s) tt; Next (SemRelease, true, MkSemaphore ch)
  | TryDone => if ctx_done then Next (NoopRelease, false, s) else Blocked
  end.

(** [n] calls of [Acquire] in a row, with no release. *)
Fixpoint acquire_n (n : nat) (s : Semaphore) : outcome Semaphore :=
  match n with
  | 0 => Next s
  | S n => r ← Acquire s; acquire_n n r.2
  end.

(** ** The spec's Permit Gate *)

Record gate := MkGate { capacity : nat; available : nat }.

(** [acquire()]: take a permit, blocking ([None]) when none is free. *)
Definition gate_acquire (g : gate) : option gate :=
  match available g with 0 => None | S a => Some (MkGate (capacity g) a) end.

(** [release()]: give a permit back; [None] when no permit is held (a
    release without a matching acquire). *)
Definition gate_release (g : gate) : option gate :=
  if decide (available g < capacity g) then Some (MkGate (capacity g) (S (available g)))
  else None.

(** The semaphore [s] implements the gate [g]: same capacity, the channel
    is open, and the permits held are the values buffered. *)
Definition refines (s : Semaphore) (g : gate) : Prop :=
  chan_cap (sem s) = capacity g ∧ chan_closed (sem s) = false ∧
  length (chan_buf (sem s)) + available g = capacity g.

(** Agreement of a concrete and an abstract outcome: both proceed in
    related states, or both block. *)
Definition agree {A B} (R : A → B → Prop) (o : outcome A) (m : option B) : Prop :=
  match o, m with
  | Next a, Some b => R a b
  | Blocked, None => True
  | _, _ => False
  end.

(** ** The demo [main] (lines 44-71) *)

(** A worker goroutine (lines 52-67). *)
Inductive worker_pc :=
  | WTry                        (* line 59: TryAcquire's select *)
  | WRelease (f : release_func) (* line 60: release() *)
  | WWork                       (* lines 61-63: between the two prints *)
  | WDone.                      (* returned, deferred wg.Done() done *)

(** The lines printed. *)
Inductive line := Acquired (id : nat) | Released (id : nat) | Failed (id : nat).

Inductive demo_main_pc := DWait | DReturned.

Record worker := MkWorker { wpc : worker_pc; wctx : bool (* its ctx.Done() is closed *) }.

Record demo := MkDemo {
  dsem : Semaphore;
  workers : list worker;    (* worker i has id i + 1 *)
  dwg : Z;
  dmain : demo_main_pc;
  out : list line;
}.

Inductive demo_event :=
  | WTimeout (i : nat)           (* worker i's one-second timer fires *)
  | WSelect (i : nat) (c : try_case)
  | WCallRelease (i : nat)
  | WFinish (i : nat)            (* prints "released", returns *)
  | MainWaitReturn.              (* wg.Wait() returns, main returns *)

Definition set_worker (i : nat) (w : worker) (d : demo) : demo :=
  MkDemo (dsem d) (<[i:=w]> (workers d)) (dwg d) (dmain d) (out d).

Definition set_sem (s : Semaphore) (d : demo) : demo :=
  MkDemo s (workers d) (dwg d) (dmain d) (out d).

Definition emit (l : line) (d : demo) : demo :=
  MkDemo (dsem d) (workers d) (dwg d) (dmain d) (out d ++ [l]).

(** A worker returns: deferred [wg.Done()]. *)
Definition worker_exit (i : nat) (w : worker) (d : demo) : outcome demo :=
  n ← wg_done (dwg d);
  Next (MkDemo (dsem d) (<[i:=MkWorker WDone (wctx w)]> (workers d)) n (dmain d) (out d)).

Definition demo_step (d : demo) (e : demo_event) : outcome demo :=
  match dmain d with
  | DReturned => Blocked
  | DWait =>
    match e with
    | WTimeout i =>
        match workers d !! i with
        | Some (MkWorker pc false) => Next (set_worker i (MkWorker pc true) d)
        | _ => Blocked
        end
    | WSelect i c =>
        match workers d !! i with
        | Some (MkWorker WTry cd) =>
            r ← TryAcquire (dsem d) cd c;
            match r with
            | (f, true, s') => Next (set_sem s' (set_worker i (MkWorker (WRelease f) cd) d))
            | (_, false, s') => worker_exit i (MkWorker WTry cd) (emit (Failed (S i)) (set_sem s' d))
            end
        | _ => Blocked
        end
    | WCallRelease i =>
        match workers d !! i with
        | Some (MkWorker (WRelease f) cd) =>
            s' ← call f (dsem d);
            Next (emit (Acquired (S i)) (set_sem s' (set_worker i (MkWorker WWork cd) d)))
        | _ => Blocked
        end
    | WFinish i =>
        match workers d !! i with
        | Some (MkWorker WWork cd) => worker_exit i (MkWorker WWork cd) (emit (Released (S i)) d)
        | _ => Blocked
        end
    | MainWaitReturn =>
        if wg_wait_ready (dwg d) then Next (MkDemo (dsem d) (workers d) (dwg d) DReturned (out d))
        else Blocked
    end
  end.

(** [main] at [wg.Wait()]: the semaphore of two permits, five workers
    started after [wg.Add(1)] each, none has run yet. *)
Definition demo_sem : Semaphore :=
  match NewSemaphore 2 with Next s => s | _ => MkSemaphore (make_chan 0) end.

Definition demo_init : demo :=
  MkDemo demo_sem (replicate 5 (MkWorker WTry false)) 5 DWait [].

(** The transitions of [demo_step] as an inductive relation. *)
Inductive dstep : demo → demo → Prop :=
  | ds_timeout d i pc :
      dmain d = DWait → workers d !! i = Some (MkWorker pc false) →
      dstep d (set_worker i (MkWorker pc true) d)
  | ds_acquire d i cd c :
      dmain d = DWait → workers d !! i = Some (MkWorker WTry cd) →
      chan_send (sem (dsem d)) tt = Next c →
      dstep d (set_sem (MkSemaphore c) (set_worker i (MkWorker (WRelease SemRelease) cd) d))
  | ds_fail d i :
      dmain d = DWait → workers d !! i = Some (MkWorker WTry true) → (0 < dwg d)%Z →
      dstep d (MkDemo (dsem d) (<[i:=MkWorker WDone true]> (workers d)) (dwg d - 1) (dmain d)
                 (out d ++ [Failed (S i)]))
  | ds_release d i f cd s :
      dmain d = DWait → workers d !! i = Some (MkWorker (WRelease f) cd) →
      call f (dsem d) = Next s →
      dstep d (emit (Acquired (S i)) (set_sem s (set_worker i (MkWorker WWork cd) d)))
  | ds_finish d i cd :
      dmain d = DWait → workers d !! i = Some (MkWorker WWork cd) → (0 < dwg d)%Z →
      dstep d (MkDemo (dsem d) (<[i:=MkWorker WDone cd]> (workers d)) (dwg d - 1) (dmain d)
                 (out d ++ [Released (S i)]))
  | ds_return d :
      dmain d = DWait → dwg d = 0%Z →
      dstep d (MkDemo (dsem d) (workers d) (dwg d) DReturned (out d)).

Definition demo_reachable (d : demo) : Prop := demo_init ~[ demo_step ]~>* d.

(** Workers holding a permit: between [TryAcquire]'s send and the call
    of the returned [release]. *)
Definition holds (w : worker) : nat := match wpc w with WRelease _ => 1 | _ => 0 end.

(** Workers inside lines 61-63, between "acquired" and "released". *)
Definition working (w : worker) : nat := match wpc w with WWork => 1 | _ => 0 end.

(** Workers that will still call [wg.Done()]. *)
Definition live (w : worker) : nat := match wpc w with WDone => 0 | _ => 1 end.

(** What each worker has printed by the time it reaches its state. *)
Definition printed_ok (d : demo) (i : nat) (w : worker) : Prop :=
  wpc w ≠ WRelease NoopRelease ∧
  (wpc w = WWork → Acquired (S i) ∈ out d) ∧
  (wpc w = WDone →
     (Acquired (S i) ∈ out d ∧ Released (S i) ∈ out d) ∨ (Failed (S i) ∈ out d ∧ wctx w = true)).

Record demo_inv (d : demo) : Prop := {
  dinv_len : length (workers d) = 5;
  dinv_cap : chan_cap (sem (dsem d)) = 2;
  dinv_open : chan_closed (sem (dsem d)) = false;
  dinv_held : length (chan_buf (sem (dsem d))) = sum_list_with holds (workers d);
  dinv_wf : length (chan_buf (sem (dsem d))) ≤ 2;
  dinv_main : dmain d = DReturned → dwg d = 0%Z;
  dinv_wg : dwg d = Z.of_nat (sum_list_with live (workers d));
  dinv_lines : ∀ i w, workers d !! i = Some w → printed_ok d i w;
}.

Definition worker_weight (w : worker) : nat :=
  match wpc w with WTry => 3 | WRelease _ => 2 | WWork => 1 | WDone => 0 end +
  (if wctx w then 0 else 1).

Definition demo_measure (d : demo) : nat :=
  sum_list_with worker_weight (workers d) + match dmain d with DWait => 1 | DReturned => 0 end.

(** ** Schedules of the demo *)

(** Every worker acquires and enters lines 61-63 before any prints
    "released". *)
Definition crowd_schedule : list demo_event :=
  mjoin ((λ i, [WSelect i TrySend; WCallRelease i]) <$> seq 0 5).

(** No timer fires: each worker in turn acquires, works and returns. *)
Definition full_schedule : list demo_event :=
  mjoin ((λ i, [WSelect i TrySend; WCallRelease i; WFinish i]) <$> seq 0 5) ++ [MainWaitReturn].

Definition demo_after (es : list demo_event) : demo :=
  match run demo_step demo_init es with Next d => d | _ => demo_init end.

Definition demo_is_run (es : list demo_event) : bool :=
  match run demo_step demo_init es with Next _ => true | _ => false end.

(** ** The semaphore implements the Permit Gate *)

Lemma refines_send s g :
  refines s g →
  agree (λ c g', refines (MkSemaphore c) g') (chan_send (sem s) tt) (gate_acquire g).
Proof.
  destruct s as [[b cap cl]], g as [gc [|a]]; unfold refines, agree, gate_acquire, chan_send;
    simpl; intros (-> & -> & Hlen); simpl.
  - by rewrite decide_False by lia.
  - rewrite decide_True by lia. unfold refines; simpl. rewrite length_app; simpl. split_and!; lia.
Qed.

(** C10. [Acquire] refines the gate's [acquire]: it blocks exactly when
    no permit is available, and otherwise takes one and returns
    [s.release]. *)
Theorem acquire_refines s g :
  refines s g →
  agree (λ r g', r.1 = SemRelease ∧ refines r.2 g') (Acquire s) (gate_acquire g).
Proof.
  intros Hr. pose proof (refines_send s g Hr) as H. unfold Acquire.
  destruct (chan_send (sem s) tt), (gate_acquire g); simpl in *; done.
Qed.

Lemma acquire_refines_witness :
  agree (λ r g', r.1 = SemRelease ∧ refines r.2 g') (Acquire demo_sem) (gate_acquire (MkGate 2 2)).
Proof. apply acquire_refines. vm_compute. split_and!; reflexivity. Defined.

(** C11. [release] refines the gate's [release] when a permit is held;
    a release with no permit held (a double release) does not fail
    fast: it blocks the caller for ever. *)
Theorem release_refines s g :
  refines s g → agree refines (release s) (gate_release g).
Proof.
  destruct s as [[b cap cl]], g as [gc a]; unfold refines, agree, gate_release, release, chan_recv;
    simpl; intros (-> & -> & Hlen).
  destruct b as [|x b]; simpl in *.
  - by rewrite decide_False by lia.
  - rewrite decide_True by lia. unfold refines; simpl. split_and!; lia.
Qed.

Lemma release_refines_witness :
  agree refines (release demo_sem) (gate_release (MkGate 2 2)).
Proof. apply release_refines. vm_compute. split_and!; reflexivity. Defined.

(** C12. [TryAcquire]: when it reports success it has taken a permit
    exactly as [Acquire]; when it reports failure the context was
    cancelled, the returned function is the no-op and the semaphore is
    unchanged. *)
Theorem try_acquire_spec s g d c f ok s' :
  refines s g → TryAcquire s d c = Next (f, ok, s') →
  (ok = true ∧ f = SemRelease ∧ ∃ g', gate_acquire g = Some g' ∧ refines s' g') ∨
  (ok = false ∧ f = NoopRelease ∧ s' = s ∧ d = true).
Proof.
  intros Hr. pose proof (refines_send s g Hr) as H.
  destruct c; simpl.
  - destruct (chan_send (sem s) tt), (gate_acquire g) as [g'|]; simpl in *; try done.
    intros [= <- <- <-]. left. eauto.
  - destruct d; [|done]. intros [= <- <- <-]. by right.
Qed.

Lemma try_acquire_spec_witness :
  (false = true ∧ NoopRelease = SemRelease ∧
     ∃ g', gate_acquire (MkGate 2 2) = Some g' ∧ refines demo_sem g') ∨
  (false = false ∧ NoopRelease = NoopRelease ∧ demo_sem = demo_sem ∧ true = true).
Proof.
  apply (try_acquire_spec demo_sem (MkGate 2 2) true TryDone).
  - vm_compute. split_and!; reflexivity.
  - vm_compute. reflexivity.
Defined.

(** C13. Admission bound: on a new semaphore of [p] permits, [k]
    [Acquire] calls with no release all return exactly when [k <= p];
    otherwise the [(p+1)]-th blocks. *)
Theorem acquire_n_bound p s k :
  NewSemaphore p = Next s →
  (k ≤ Z.to_nat p → ∃ s', acquire_n k s = Next s') ∧
  (Z.to_nat p < k → acquire_n k s = Blocked).
Proof.
  unfold NewSemaphore, make_chan_int. case_decide; intros [= <-].
  assert (Hgen : ∀ k g s, refines s g →
            (k ≤ available g → ∃ s', acquire_n k s = Next s') ∧
            (available g < k → acquire_n k s = Blocked)).
  { induction k0 as [|k0 IH]; intros g s0 Hr; simpl; [split; [eauto|lia]|].
    pose proof (acquire_refines s0 g Hr) as Ha.
    destruct (Acquire s0) as [| |[f s1]], g as [gc [|a]]; simpl in *; try done.
    - split; [lia|done].
    - destruct Ha as [_ Hr1]. destruct (IH _ _ Hr1) as [IH1 IH2]; simpl in *.
      split; intros; [apply IH1 | apply IH2]; lia. }
  apply (Hgen k (MkGate (Z.to_nat p) (Z.to_nat p))).
  unfold refines; simpl. split_and!; lia.
Qed.

(** The spec's example: two permits, five callers: two acquire, the
    third blocks. *)
Lemma acquire_n_bound_witness :
  (∃ s', acquire_n 2 demo_sem = Next s') ∧ acquire_n 3 demo_sem = Blocked.
Proof.
  destruct (acquire_n_bound 2 demo_sem 2 eq_refl) as [H2 _].
  destruct (acquire_n_bound 2 demo_sem 3 eq_refl) as [_ H3].
  split; [apply H2; lia | apply H3; lia].
Defined.

(** ** The demo: its transitions keep the invariant *)

Lemma demo_step_dstep d e d' : demo_step d e = Next d' → dstep d d'.
Proof.
  unfold demo_step. destruct (dmain d) eqn:Hm; [|done].
  destruct e as [i|i c|i|i|].
  - destruct (workers d !! i) as [[pc []]|] eqn:Hi; try done. intros [= <-]. by constructor.
  - destruct (workers d !! i) as [[[] cd]|] eqn:Hi; try done.
    destruct c; simpl.
    + destruct (chan_send (sem (dsem d)) tt) eqn:Hs; try done. intros [= <-].
      by econstructor.
    + destruct cd; [|done]. unfold worker_exit; simpl.
      destruct (wg_done (dwg d)) eqn:Hw; try done. apply wg_done_next in Hw as [? ->].
      intros [= <-]. by constructor.
  - destruct (workers d !! i) as [[[] cd]|] eqn:Hi; try done.
    destruct (call f (dsem d)) eqn:Hc; try done. intros [= <-]. by econstructor.
  - destruct (workers d !! i) as [[[] cd]|] eqn:Hi; try done. unfold worker_exit; simpl.
    destruct (wg_done (dwg d)) eqn:Hw; try done. apply wg_done_next in Hw as [? ->].
    intros [= <-]. by constructor.
  - unfold wg_wait_ready. case_bool_decide; [|done]. intros [= <-]. by constructor.
Qed.

Lemma printed_ok_mono d d' i w :
  (∀ x, x ∈ out d → x ∈ out d') → printed_ok d i w → printed_ok d' i w.
Proof. unfold printed_ok. naive_solver. Qed.

(** The per-worker part of the invariant after worker [i] changes. *)
Lemma lines_insert d d' ws i w w' :
  (∀ x, x ∈ out d → x ∈ out d') → workers d !! i = Some w →
  ws = <[i:=w']> (workers d) → printed_ok d' i w' →
  (∀ j v, workers d !! j = Some v → printed_ok d j v) →
  ∀ j v, ws !! j = Some v → printed_ok d' j v.
Proof.
  intros Hout Hi -> Hok Hall j v. rewrite list_lookup_insert_Some.
  intros [(<- & <- & _)|(_ & Hj)]; [done|]. eapply printed_ok_mono; [done|]. eauto.
Qed.

Lemma in_out_app d l x : x ∈ out d → x ∈ out d ++ l.
Proof. intros H. apply elem_of_app. by left. Qed.

Lemma in_out_last d l : l ∈ out d ++ [l].
Proof. apply elem_of_app. right. by apply list_elem_of_singleton. Qed.

#[export] Hint Resolve in_out_app in_out_last : go.

Ltac demo_sums Hi w' :=
  pose proof (sum_list_with_insert holds _ _ _ w' Hi);
  pose proof (sum_list_with_insert live _ _ _ w' Hi);
  unfold holds, live in *; simpl in *; lia.

Ltac demo_fields Hi w' :=
  constructor; simpl; try done; try (by rewrite length_insert);
  try (intros ?Hr; congruence); try (demo_sums Hi w').

Lemma dstep_preserves_inv d d' : demo_inv d → dstep d d' → demo_inv d'.
Proof.
  intros [Hlen Hcap Hopen Hheld Hwf Hmain Hwg Hlines].
  destruct 1 as [d i pc Hm Hi|d i cd c Hm Hi Hs|d i Hm Hi Hw|d i f cd s Hm Hi Hc
    |d i cd Hm Hi Hw|d Hm Hw].
  - demo_fields Hi (MkWorker pc true).
    eapply (lines_insert d); [done|exact Hi|done| |done].
    destruct (Hlines i _ Hi) as (H1 & H2 & H3). unfold printed_ok in *; simpl in *. naive_solver.
  - apply chan_send_next in Hs as (_ & Hlt & ->).
    demo_fields Hi (MkWorker (WRelease SemRelease) cd).
    + rewrite length_app; simpl. demo_sums Hi (MkWorker (WRelease SemRelease) cd).
    + rewrite length_app; simpl. lia.
    + eapply (lines_insert d); [done|exact Hi|done| |done]. unfold printed_ok; simpl. naive_solver.
  - demo_fields Hi (MkWorker WDone true).
    eapply (lines_insert d); [intros ??; by apply in_out_app|exact Hi|done| |done].
    unfold printed_ok; simpl. split_and!; try done. intros _. right. split; [eauto with go|done].
  - destruct (Hlines i _ Hi) as (Hf & _). simpl in Hf.
    destruct f; [|done]. unfold call, release, chan_recv in Hc.
    destruct (chan_buf (sem (dsem d))) as [|x b] eqn:Hb; [rewrite Hopen in Hc; done|].
    simpl in Hc. injection Hc as <-. simpl in Hheld, Hwf.
    demo_fields Hi (MkWorker WWork cd).
    eapply (lines_insert d); [intros ??; by apply in_out_app|exact Hi|done| |done].
    unfold printed_ok; simpl. split_and!; try done; intros _; eauto with go.
  - demo_fields Hi (MkWorker WDone cd).
    eapply (lines_insert d); [intros ??; by apply in_out_app|exact Hi|done| |done].
    destruct (Hlines i _ Hi) as (_ & Hw' & _). simpl in Hw'.
    unfold printed_ok; simpl. split_and!; try done. intros _. left. split; eauto with go.
  - by constructor.
Qed.

Lemma demo_inv_init : demo_inv demo_init.
Proof.
  constructor; try (vm_compute; reflexivity); try (vm_compute; intros; discriminate).
  - vm_compute. lia.
  - intros i w Hi. cbn [workers demo_init] in Hi.
    apply lookup_replicate in Hi as [-> _]. unfold printed_ok; simpl. naive_solver.
Qed.

Lemma demo_step_inv d e d' : demo_inv d → demo_step d e = Next d' → demo_inv d'.
Proof. intros Hinv He. eapply dstep_preserves_inv; [done|]. by eapply demo_step_dstep. Qed.

Lemma demo_reachable_inv d : demo_reachable d → demo_inv d.
Proof. apply (rtc_invariant demo_step demo_inv demo_step_inv), demo_inv_init. Qed.

Lemma demo_after_reachable es : demo_is_run es = true → demo_reachable (demo_after es).
Proof.
  unfold demo_is_run, demo_after. destruct (run demo_step demo_init es) eqn:E; try discriminate.
  intros _. by eapply run_rtc.
Qed.

Lemma dstep_demo_step d d' : dstep d d' → ∃ e, demo_step d e = Next d'.
Proof.
  unfold demo_step, worker_exit, wg_done, wg_add, wg_wait_ready.
  destruct 1 as [d i pc Hm Hi|d i cd c Hm Hi Hs|d i Hm Hi Hw|d i f cd s Hm Hi Hc
    |d i cd Hm Hi Hw|d Hm Hw]; rewrite Hm.
  - exists (WTimeout i). by rewrite Hi.
  - exists (WSelect i TrySend). rewrite Hi. simpl. by rewrite Hs.
  - exists (WSelect i TryDone). rewrite Hi. simpl. destruct (decide _); [lia|]. simpl. rewrite Hm. by replace (dwg d + -1)%Z with (dwg d - 1)%Z by lia.
  - exists (WCallRelease i). rewrite Hi. simpl. by rewrite Hc.
  - exists (WFinish i). rewrite Hi. simpl. destruct (decide _); [lia|]. simpl. rewrite Hm. by replace (dwg d + -1)%Z with (dwg d - 1)%Z by lia.
  - exists MainWaitReturn. by rewrite bool_decide_eq_true_2.
Qed.

Lemma dstep_measure d d' : dstep d d' → demo_measure d' < demo_measure d.
Proof.
  destruct 1 as [d i pc Hm Hi|d i cd c Hm Hi Hs|d i Hm Hi Hw|d i f cd s Hm Hi Hc
    |d i cd Hm Hi Hw|d Hm Hw]; unfold demo_measure; simpl; rewrite ?Hm.
  - pose proof (sum_list_with_insert worker_weight _ _ _ (MkWorker pc true) Hi).
    unfold worker_weight in *; simpl in *. lia.
  - pose proof (sum_list_with_insert worker_weight _ _ _ (MkWorker (WRelease SemRelease) cd) Hi).
    unfold worker_weight in *; simpl in *. lia.
  - pose proof (sum_list_with_insert worker_weight _ _ _ (MkWorker WDone true) Hi).
    unfold worker_weight in *; simpl in *. lia.
  - pose proof (sum_list_with_insert worker_weight _ _ _ (MkWorker WWork cd) Hi).
    unfold worker_weight in *; simpl in *. lia.
  - pose proof (sum_list_with_insert worker_weight _ _ _ (MkWorker WDone cd) Hi).
    unfold worker_weight in *; simpl in *. lia.
  - lia.
Qed.

Lemma demo_step_measure d e d' : demo_step d e = Next d' → demo_measure d' < demo_measure d.
Proof. intros He. apply dstep_measure. by eapply demo_step_dstep. Qed.

(** A worker holding a permit can always call [release]: the buffer
    holds at least its own permit. *)
Lemma holder_progress d i f cd :
  demo_inv d → dmain d = DWait → workers d !! i = Some (MkWorker (WRelease f) cd) →
  ∃ d', dstep d d'.
Proof.
  intros Hinv Hm Hi. destruct (dinv_lines _ Hinv i _ Hi) as (Hf & _). simpl in Hf.
  pose proof (sum_list_with_lookup holds _ _ _ Hi) as Hh. unfold holds at 1 in Hh; simpl in Hh.
  pose proof (dinv_held _ Hinv) as Hb. pose proof (dinv_open _ Hinv) as Ho.
  destruct f; [|done].
  destruct (chan_buf (sem (dsem d))) as [|x b] eqn:Hbuf; simpl in Hb; [lia|].
  eexists. eapply ds_release; [done|exact Hi|]. unfold call, release, chan_recv. by rewrite Hbuf.
Qed.

(** While [main] waits, some goroutine can move. *)
Lemma demo_progress d : demo_inv d → dmain d = DWait → ∃ d', dstep d d'.
Proof.
  intros Hinv Hm. destruct (decide (dwg d = 0%Z)) as [Hw|Hw]; [eexists; by apply ds_return|].
  rewrite (dinv_wg _ Hinv) in Hw.
  destruct (sum_list_with_pos live (workers d)) as (i & [pc cd] & Hi & Hl); [lia|].
  assert (Hpos : (0 < dwg d)%Z) by (rewrite (dinv_wg _ Hinv); lia).
  destruct pc as [|f| |]; unfold live in Hl; simpl in Hl; [|by eapply holder_progress| |done].
  - destruct (decide (length (chan_buf (sem (dsem d))) < 2)) as [Hlt|Hge].
    + eexists. eapply ds_acquire; [done|exact Hi|]. unfold chan_send.
      rewrite (dinv_open _ Hinv), (dinv_cap _ Hinv), decide_True by done. done.
    + pose proof (dinv_held _ Hinv). pose proof (dinv_wf _ Hinv).
      destruct (sum_list_with_pos holds (workers d)) as (j & [pc' cd'] & Hj & Hh); [lia|].
      destruct pc'; unfold holds in Hh; simpl in Hh; try done. by eapply holder_progress.
  - eexists. by eapply ds_finish.
Qed.

(** ** No runtime panic *)

Lemma demo_inv_no_panic d e r : demo_inv d → demo_step d e ≠ Panicked r.
Proof.
  intros Hinv He.
  unfold demo_step, worker_exit, TryAcquire, call, release, chan_send, chan_recv, wg_done, wg_add in He.
  destruct (dmain d); [|done].
  destruct e; repeat (case_match; simplify_eq/=);
    repeat match goal with
    | Hi : workers d !! _ = Some _ |- _ =>
        pose proof (sum_list_with_lookup live _ _ _ Hi); clear Hi
    end;
    pose proof (dinv_wg _ Hinv); pose proof (dinv_open _ Hinv); unfold live in *; simpl in *;
    try congruence; lia.
Qed.

(** ** The demo satisfies the interface of program models *)

#[export] Instance demo_laws :
  ProgramLaws demo_step demo_inv (λ d, dmain d = DReturned) demo_measure.
Proof.
  split.
  - intros d e d'. apply demo_step_inv.
  - intros d e d' _. apply demo_step_measure.
  - intros d e r. apply demo_inv_no_panic.
  - intros d Hinv. destruct (dmain d) eqn:Hm; [right|by left].
    destruct (demo_progress d Hinv Hm) as [d' Hd']. destruct (dstep_demo_step _ _ Hd') as [e He].
    by exists e, d'.
Qed.

(** ** Theorems on the demo *)

(** C14. The permits held never exceed the capacity: at most two
    workers are between [TryAcquire]'s send and their [release] call,
    and they are exactly the values in the channel's buffer. *)
Theorem demo_permits_bounded d :
  demo_reachable d →
  sum_list_with holds (workers d) = length (chan_buf (sem (dsem d))) ∧
  sum_list_with holds (workers d) ≤ 2.
Proof.
  intros Hr. pose proof (demo_reachable_inv _ Hr) as Hinv.
  rewrite <-(dinv_held _ Hinv). split; [done|]. apply Hinv.
Qed.

Lemma demo_permits_bounded_witness :
  sum_list_with holds (workers (demo_after crowd_schedule)) =
    length (chan_buf (sem (dsem (demo_after crowd_schedule)))) ∧
  sum_list_with holds (workers (demo_after crowd_schedule)) ≤ 2.
Proof. apply demo_permits_bounded, demo_after_reachable. vm_compute. reflexivity. Defined.

(** C15. The semaphore does not guard the work: [main] calls [release()]
    (line 60) before printing "acquired" and sleeping, so all five
    workers can be inside lines 61-63 at once with two permits. *)
Theorem demo_critical_section_unbounded :
  ∃ d, demo_reachable d ∧ chan_cap (sem (dsem d)) = 2 ∧
       sum_list_with working (workers d) = 5.
Proof.
  exists (demo_after crowd_schedule).
  split; [apply demo_after_reachable; vm_compute; reflexivity|].
  vm_compute. split; reflexivity.
Qed.

(** The demo terminates: every run is finite. *)
Theorem demo_terminates (d : demo) : Acc (flip (can_step demo_step)) d.
Proof. apply (measure_terminates demo_step demo_measure demo_step_measure). Qed.

(** C16. No runtime panic in the demo: no send on a closed channel and
    no negative [WaitGroup] counter. *)
Theorem demo_no_panic d : demo_reachable d → panic_free demo_step d.
Proof. intros Hr. apply (laws_panic_free (inv := demo_inv)), demo_reachable_inv, Hr. Qed.

Lemma demo_no_panic_witness : panic_free demo_step (demo_after crowd_schedule).
Proof. apply demo_no_panic, demo_after_reachable. vm_compute. reflexivity. Defined.

(** No deadlock in the demo: if no goroutine can move, [main] has
    returned from [wg.Wait()]. *)
Theorem demo_deadlock_free d : demo_reachable d → stuck demo_step d → dmain d = DReturned.
Proof.
  intros Hr. apply (laws_stuck_exited (inv := demo_inv) (exited := λ d, dmain d = DReturned)).
  by apply demo_reachable_inv.
Qed.

Lemma demo_deadlock_free_witness : dmain (demo_after full_schedule) = DReturned.
Proof.
  apply demo_deadlock_free; [apply demo_after_reachable; vm_compute; reflexivity|].
  intros e d'. vm_compute. destruct e; discriminate.
Defined.

(** C17. When no worker's deadline fires, once [main] returns every
    worker has printed "acquired" and "released" (and none "failed"). *)
Theorem demo_all_acquire d :
  demo_reachable d → dmain d = DReturned → Forall (λ w, wctx w = false) (workers d) →
  ∀ i, i < 5 → Acquired (S i) ∈ out d ∧ Released (S i) ∈ out d.
Proof.
  intros Hr Hm Hctx i Hi. pose proof (demo_reachable_inv _ Hr) as Hinv.
  pose proof (dinv_main _ Hinv Hm) as Hw. rewrite (dinv_wg _ Hinv) in Hw.
  destruct (lookup_lt_is_Some_2 (workers d) i) as [w Hwi]; [by rewrite (dinv_len _ Hinv)|].
  assert (Hl : live w = 0).
  { apply (proj1 (sum_list_with_zero live (workers d))) with i; [lia|done]. }
  destruct (dinv_lines _ Hinv i w Hwi) as (_ & _ & Hdone).
  pose proof (Forall_lookup_1 _ _ _ _ Hctx Hwi) as Hc. simpl in Hc.
  unfold live in Hl. destruct (wpc w); try done. destruct (Hdone eq_refl) as [?|[_ ?]]; [done|congruence].
Qed.

Lemma demo_all_acquire_witness :
  Acquired 3 ∈ out (demo_after full_schedule) ∧ Released 3 ∈ out (demo_after full_schedule).
Proof.
  apply (demo_all_acquire (demo_after full_schedule) ltac:(apply demo_after_reachable; vm_compute; reflexivity)
           ltac:(vm_compute; reflexivity)
           ltac:(vm_compute; repeat (apply List.Forall_cons; [reflexivity|]); apply List.Forall_nil)
           2).
  lia.
Defined.

End Semaphore.
