(* ===== verification/FanOutFanIn.v ===== *)
(** [src/fanout-fanin/main.go]: the fan-out/fan-in pipeline.

    Goroutines of the program and their program counters:
    - the producer started by [main] (lines 80-85) sends the jobs on the
      unbuffered channel [jobs] and closes it ([producer_pc]);
    - [fanOut] (lines 17-44) starts one lane per worker; a lane selects
      between [ctx.Done()] and a receive on [jobs], applies [process] and
      selects between [ctx.Done()] and a send on its private unbuffered
      channel [out], closing [out] when it returns ([lane_pc]);
    - [fanIn] (lines 47-73) starts one forwarder per lane, ranging over
      the lane's [out] and selecting between [ctx.Done()] and a send on
      [merged], calling [wg.Done()] when it returns ([fwd_pc]); and a
      closer goroutine that waits for the [WaitGroup] and closes
      [merged] ([closer_pc]);
    - [main] ranges over [merged] and prints each value (lines 93-95).

    A lane, its [out] channel and the forwarder that reads it are kept
    together in one [lane] record, indexed by the worker number.
    [step] is the executable semantics; [fstep] the same transitions as
    an inductive relation, proved equal to it. The invariant [inv], the
    measure and the progress lemma give the theorems at the end. *)

From S2P Require Import Prelude Runtime.

Set Warnings "-clear-no-such-hyp".

Module FanOutFanIn.

(** ** Data *)

(** [process] (lines 11-14): [input * 2] in [int] arithmetic; the
    [time.Sleep] is not observable in the model. *)
Definition process (input : Z) : Z := wrap_int (input * 2)%Z.

(** A lane of [fanOut] (the goroutine of lines 23-41). *)
Inductive lane_pc :=
  | LSelect         (* line 26: select on ctx.Done() / <-jobs *)
  | LSend (r : Z)   (* line 34: select on ctx.Done() / out <- result *)
  | LExited.        (* returned, deferred close(out) done *)

(** A forwarder of [fanIn] ([output], lines 51-60). *)
Inductive fwd_pc :=
  | FRange          (* line 53: for v := range ch *)
  | FSend (v : Z)   (* line 54: select on ctx.Done() / merged <- v *)
  | FDone.          (* returned, deferred wg.Done() done *)

#[export] Instance lane_pc_eq_dec : EqDecision lane_pc.
Proof. solve_decision. Defined.
#[export] Instance fwd_pc_eq_dec : EqDecision fwd_pc.
Proof. solve_decision. Defined.

Record lane := MkLane {
  lane_state : lane_pc;
  lane_out : chan Z;   (* out, made at line 20 *)
  lane_fwd : fwd_pc;   (* the forwarder ranging over out *)
}.

(** The producer goroutine of [main] (lines 80-85): the jobs it has
    still to send. *)
Inductive producer_pc :=
  | PSend (pending : list Z)
  | PDone.             (* returned, deferred close(jobs) done *)

(** The goroutine of lines 67-70. *)
Inductive closer_pc := CWait | CDone.

(** [main]'s loop of lines 93-95. *)
Inductive main_pc := MRange | MReturned.

Record state := MkState {
  ctx_cancelled : bool;     (* ctx.Done() is closed *)
  producer : producer_pc;
  jobs : chan Z;
  lanes : list lane;
  wg : Z;
  closer : closer_pc;
  merged : chan Z;
  main : main_pc;
  printed : list Z;         (* the values printed by line 94, in order *)
}.

(** ** Events: which goroutine moves, by which [select] case *)

Inductive event :=
  | Deadline                (* the WithTimeout timer fires *)
  | ProducerSend (k : nat)  (* jobs <- i meets lane k's receive *)
  | ProducerClose           (* loop done: deferred close(jobs) *)
  | LaneJobsClosed (k : nat)(* lane k receives !ok from jobs *)
  | LaneCancel (k : nat)    (* lane k takes the ctx.Done() case *)
  | LaneSend (k : nat)      (* lane k's out <- result meets its forwarder *)
  | FwdRangeEnd (k : nat)   (* forwarder k's range ends: out closed *)
  | FwdCancel (k : nat)     (* forwarder k takes the ctx.Done() case *)
  | FwdSend (k : nat)       (* merged <- v meets main's range *)
  | CloserClose             (* wg.Wait() returns, close(merged) *)
  | MainRangeEnd.           (* main's range sees merged closed *)

(** ** State updates *)

Definition set_cancelled (s : state) : state :=
  MkState true (producer s) (jobs s) (lanes s) (wg s) (closer s) (merged s) (main s) (printed s).
Definition set_producer (p : producer_pc) (j : chan Z) (s : state) : state :=
  MkState (ctx_cancelled s) p j (lanes s) (wg s) (closer s) (merged s) (main s) (printed s).
Definition set_lane (k : nat) (l : lane) (s : state) : state :=
  MkState (ctx_cancelled s) (producer s) (jobs s) (<[k:=l]> (lanes s)) (wg s) (closer s)
    (merged s) (main s) (printed s).
Definition set_wg (n : Z) (s : state) : state :=
  MkState (ctx_cancelled s) (producer s) (jobs s) (lanes s) n (closer s) (merged s) (main s) (printed s).
Definition set_closer (c : closer_pc) (m : chan Z) (s : state) : state :=
  MkState (ctx_cancelled s) (producer s) (jobs s) (lanes s) (wg s) c m (main s) (printed s).
Definition set_main (m : main_pc) (s : state) : state :=
  MkState (ctx_cancelled s) (producer s) (jobs s) (lanes s) (wg s) (closer s) (merged s) m (printed s).
Definition print (v : Z) (s : state) : state :=
  MkState (ctx_cancelled s) (producer s) (jobs s) (lanes s) (wg s) (closer s) (merged s) (main s)
    (printed s ++ [v]).

(** A lane returns: its deferred [close(out)] runs. *)
Definition lane_exit (k : nat) (l : lane) (s : state) : outcome state :=
  out' ← chan_close (lane_out l);
  Next (set_lane k (MkLane LExited out' (lane_fwd l)) s).

(** A forwarder returns: its deferred [wg.Done()] runs. *)
Definition fwd_exit (k : nat) (l : lane) (s : state) : outcome state :=
  n ← wg_done (wg s);
  Next (set_wg n (set_lane k (MkLane (lane_state l) (lane_out l) FDone) s)).

(** ** The step function *)

Definition step (s : state) (e : event) : outcome state :=
  match main s with
  | MReturned => Blocked                        (* the process has exited *)
  | MRange =>
    match e with
    | Deadline => if ctx_cancelled s then Blocked else Next (set_cancelled s)
    | ProducerSend k =>
        match producer s, lanes s !! k with
        | PSend (j :: js), Some (MkLane LSelect out f) =>
            _ ← chan_handoff (jobs s);
            Next (set_lane k (MkLane (LSend (process j)) out f) (set_producer (PSend js) (jobs s) s))
        | _, _ => Blocked
        end
    | ProducerClose =>
        match producer s with
        | PSend [] => j ← chan_close (jobs s); Next (set_producer PDone j s)
        | _ => Blocked
        end
    | LaneJobsClosed k =>
        match lanes s !! k with
        | Some l =>
            match lane_state l, chan_recv (jobs s) with
            | LSelect, Next (None, _) => lane_exit k l s
            | _, _ => Blocked
            end
        | None => Blocked
        end
    | LaneCancel k =>
        match lanes s !! k with
        | Some l =>
            match lane_state l with
            | LExited => Blocked
            | _ => if ctx_cancelled s then lane_exit k l s else Blocked
            end
        | None => Blocked
        end
    | LaneSend k =>
        match lanes s !! k with
        | Some (MkLane (LSend r) out FRange) =>
            _ ← chan_handoff out; Next (set_lane k (MkLane LSelect out (FSend r)) s)
        | _ => Blocked
        end
    | FwdRangeEnd k =>
        match lanes s !! k with
        | Some l =>
            match lane_fwd l, chan_recv (lane_out l) with
            | FRange, Next (None, _) => fwd_exit k l s
            | _, _ => Blocked
            end
        | None => Blocked
        end
    | FwdCancel k =>
        match lanes s !! k with
        | Some l =>
            match lane_fwd l with
            | FSend _ => if ctx_cancelled s then fwd_exit k l s else Blocked
            | _ => Blocked
            end
        | None => Blocked
        end
    | FwdSend k =>
        match lanes s !! k with
        | Some (MkLane st out (FSend v)) =>
            _ ← chan_handoff (merged s);
            Next (print v (set_lane k (MkLane st out FRange) s))
        | _ => Blocked
        end
    | CloserClose =>
        match closer s with
        | CWait =>
            if wg_wait_ready (wg s)
            then m ← chan_close (merged s); Next (set_closer CDone m s)
            else Blocked
        | CDone => Blocked
        end
    | MainRangeEnd =>
        match chan_recv (merged s) with
        | Next (None, _) => Next (set_main MReturned s)
        | _ => Blocked
        end
    end
  end.

(** ** Initial states *)

(** The state when [main] reaches its [range] loop: the producer, the
    [numWorkers] lanes of [fanOut(ctx, jobs, numWorkers)], their
    forwarders after [wg.Add(len(channels))], and the closer have been
    started; none has run yet. *)
Definition init (js : list Z) (numWorkers : nat) : state :=
  MkState false (PSend js) (make_chan 0)
    (replicate numWorkers (MkLane LSelect (make_chan 0) FRange))
    (Z.of_nat numWorkers) CWait (make_chan 0) MRange [].

(** [main]: jobs [1..10], three workers (lines 79-88). *)
Definition main_jobs : list Z := Z.of_nat <$> seq 1 10.
Definition main_state : state := init main_jobs 3.

(** ** Schedules of [main]

    Concrete interleavings of the program of lines 75-96, used to show
    that the hypotheses of the theorems below are met by real runs. *)

(** No deadline: worker 0 takes every job, then everything shuts down. *)
Definition main_schedule : list event :=
  mjoin (replicate 10 [ProducerSend 0; LaneSend 0; FwdSend 0]) ++
  [ProducerClose; LaneJobsClosed 0; LaneJobsClosed 1; LaneJobsClosed 2;
   FwdRangeEnd 0; FwdRangeEnd 1; FwdRangeEnd 2; CloserClose; MainRangeEnd].

(** The deadline fires while forwarder 0 holds a result and lane 0
    holds the next one; [merged] is then closed while lane 0 is still
    running. *)
Definition cancel_schedule : list event :=
  [ProducerSend 0; LaneSend 0; ProducerSend 0; Deadline; FwdCancel 0;
   LaneCancel 1; LaneCancel 2; FwdRangeEnd 1; FwdRangeEnd 2; CloserClose].

(** The deadline fires before any job is sent: every lane returns and
    the producer is left with all its jobs. *)
Definition leak_schedule : list event :=
  [Deadline; LaneCancel 0; LaneCancel 1; LaneCancel 2].

(** The state a schedule leads [main] to ([main_state] if it is not a
    run). *)
Definition after (es : list event) : state :=
  match run step main_state es with Next s => s | _ => main_state end.

(** Whether a schedule is a run of [main] (every event ready, no panic). *)
Definition is_run (es : list event) : bool :=
  match run step main_state es with Next _ => true | _ => false end.

(** ** The same transitions as an inductive relation

    One constructor per event of [step], with the conditions under which
    the event's [select] case is ready and does not panic. *)

Inductive fstep : state → state → Prop :=
  | fs_deadline s :
      main s = MRange → ctx_cancelled s = false →
      fstep s (set_cancelled s)
  | fs_producer_send s k j js out f :
      main s = MRange → producer s = PSend (j :: js) →
      lanes s !! k = Some (MkLane LSelect out f) → chan_closed (jobs s) = false →
      fstep s (set_lane k (MkLane (LSend (process j)) out f) (set_producer (PSend js) (jobs s) s))
  | fs_producer_close s :
      main s = MRange → producer s = PSend [] → chan_closed (jobs s) = false →
      fstep s (set_producer PDone (mark_closed (jobs s)) s)
  | fs_lane_jobs_closed s k l :
      main s = MRange → lanes s !! k = Some l → lane_state l = LSelect →
      chan_buf (jobs s) = [] → chan_closed (jobs s) = true → chan_closed (lane_out l) = false →
      fstep s (set_lane k (MkLane LExited (mark_closed (lane_out l)) (lane_fwd l)) s)
  | fs_lane_cancel s k l :
      main s = MRange → lanes s !! k = Some l → lane_state l ≠ LExited →
      ctx_cancelled s = true → chan_closed (lane_out l) = false →
      fstep s (set_lane k (MkLane LExited (mark_closed (lane_out l)) (lane_fwd l)) s)
  | fs_lane_send s k r out :
      main s = MRange → lanes s !! k = Some (MkLane (LSend r) out FRange) →
      chan_closed out = false →
      fstep s (set_lane k (MkLane LSelect out (FSend r)) s)
  | fs_fwd_range_end s k l :
      main s = MRange → lanes s !! k = Some l → lane_fwd l = FRange →
      chan_buf (lane_out l) = [] → chan_closed (lane_out l) = true → (0 < wg s)%Z →
      fstep s (set_wg (wg s - 1) (set_lane k (MkLane (lane_state l) (lane_out l) FDone) s))
  | fs_fwd_cancel s k l v :
      main s = MRange → lanes s !! k = Some l → lane_fwd l = FSend v →
      ctx_cancelled s = true → (0 < wg s)%Z →
      fstep s (set_wg (wg s - 1) (set_lane k (MkLane (lane_state l) (lane_out l) FDone) s))
  | fs_fwd_send s k st out v :
      main s = MRange → lanes s !! k = Some (MkLane st out (FSend v)) →
      chan_closed (merged s) = false →
      fstep s (print v (set_lane k (MkLane st out FRange) s))
  | fs_closer_close s :
      main s = MRange → closer s = CWait → wg s = 0%Z → chan_closed (merged s) = false →
      fstep s (set_closer CDone (mark_closed (merged s)) s)
  | fs_main_end s :
      main s = MRange → chan_buf (merged s) = [] → chan_closed (merged s) = true →
      fstep s (set_main MReturned s).

(** The states a run of the program started with jobs [js0] and [n]
    workers can reach. *)
Definition reachable (js0 : list Z) (n : nat) (s : state) : Prop :=
  (init js0 n) ~[ step ]~>* s.

(** ** Accounting, invariant and measure *)

(** The jobs the producer has still to send. *)
Definition pending (s : state) : list Z :=
  match producer s with PSend js => js | PDone => [] end.

(** The results held by a lane (between [process] and the send on
    [out]) and by its forwarder (between the receive and the send on
    [merged]). *)
Definition lane_held (l : lane) : list Z :=
  match lane_state l with LSend r => [r] | _ => [] end ++
  match lane_fwd l with FSend v => [v] | _ => [] end.

Definition in_flight (s : state) : list Z := mjoin (lane_held <$> lanes s).

(** Forwarders that will still call [wg.Done()]. *)
Definition fwd_live (l : lane) : nat := match lane_fwd l with FDone => 0 | _ => 1 end.

Definition lane_exited (l : lane) : bool :=
  match lane_state l with LExited => true | _ => false end.

(** A lane's private channel is closed exactly when the lane has
    returned; a lane returns only after [jobs] is closed or the context
    is cancelled; a forwarder returns only after its [out] is closed or
    the context is cancelled. *)
Definition lane_ok (s : state) (l : lane) : Prop :=
  chan_buf (lane_out l) = [] ∧
  chan_closed (lane_out l) = lane_exited l ∧
  (lane_exited l = true → chan_closed (jobs s) = true ∨ ctx_cancelled s = true) ∧
  (lane_fwd l = FDone → chan_closed (lane_out l) = true ∨ ctx_cancelled s = true).

(** Every result printed or in flight is [process] of a job the producer
    has sent, each at most once; with no cancellation, exactly once. *)
Definition accounted (js0 : list Z) (s : state) : Prop :=
  ∃ consumed, js0 = consumed ++ pending s ∧
    printed s ++ in_flight s ⊆+ process <$> consumed ∧
    (ctx_cancelled s = false → printed s ++ in_flight s ≡ₚ process <$> consumed).

(** The invariant of the pipeline started with jobs [js0] and [n]
    workers. *)
Record inv (js0 : list Z) (n : nat) (s : state) : Prop := {
  inv_lanes_len : length (lanes s) = n;
  inv_jobs_buf : chan_buf (jobs s) = [];
  inv_jobs_closed : chan_closed (jobs s) = true ↔ producer s = PDone;
  inv_lanes : Forall (lane_ok s) (lanes s);
  inv_wg : wg s = Z.of_nat (sum_list_with fwd_live (lanes s));
  inv_merged_buf : chan_buf (merged s) = [];
  inv_merged_closed : chan_closed (merged s) = true ↔ closer s = CDone;
  inv_closer : closer s = CDone → wg s = 0%Z;
  inv_main : main s = MReturned → chan_closed (merged s) = true;
  inv_accounted : accounted js0 s;
}.

(** The termination measure: every step strictly decreases it. *)
Definition lane_weight (l : lane) : nat :=
  match lane_state l with LSelect => 1 | LSend _ => 3 | LExited => 0 end +
  match lane_fwd l with FRange => 1 | FSend _ => 2 | FDone => 0 end.

Definition measure (s : state) : nat :=
  (if ctx_cancelled s then 0 else 1) +
  match producer s with PSend js => 4 * length js + 1 | PDone => 0 end +
  sum_list_with lane_weight (lanes s) +
  match closer s with CWait => 1 | CDone => 0 end +
  match main s with MRange => 1 | MReturned => 0 end.


(** ** Shapes of the exits *)

Lemma lane_exit_next k l s s' :
  lane_exit k l s = Next s' ↔
  chan_closed (lane_out l) = false ∧
  s' = set_lane k (MkLane LExited (mark_closed (lane_out l)) (lane_fwd l)) s.
Proof.
  unfold lane_exit, chan_close. destruct (chan_closed (lane_out l)); simpl; naive_solver.
Qed.

Lemma fwd_exit_next k l s s' :
  fwd_exit k l s = Next s' ↔
  (0 < wg s)%Z ∧ s' = set_wg (wg s - 1) (set_lane k (MkLane (lane_state l) (lane_out l) FDone) s).
Proof.
  unfold fwd_exit. rewrite outcome_bind_next. setoid_rewrite wg_done_next. naive_solver.
Qed.

(** ** The step function and the relation agree *)

Lemma step_fstep s e s' : step s e = Next s' → fstep s s'.
Proof.
  intros Hs. unfold step in Hs. destruct (main s) eqn:Hm; [|discriminate].
  destruct e as [|k| |k|k|k|k|k|k| |].
  - destruct (ctx_cancelled s) eqn:Hc; simplify_eq. by constructor.
  - destruct (producer s) as [[|j js]|] eqn:Hp; try discriminate.
    destruct (lanes s !! k) as [[[] out f]|] eqn:Hk; try discriminate.
    destruct (chan_handoff (jobs s)) eqn:Hh; simplify_eq/=.
    apply chan_handoff_next in Hh. by econstructor.
  - destruct (producer s) as [[|j js]|] eqn:Hp; try discriminate.
    destruct (chan_close (jobs s)) eqn:Hj; simplify_eq/=.
    apply chan_close_next in Hj as [? ->]. by constructor.
  - destruct (lanes s !! k) as [l|] eqn:Hk; [|discriminate].
    destruct (lane_state l) eqn:Hl; try discriminate.
    destruct (chan_recv (jobs s)) as [| |[[v|] c]] eqn:Hr; try discriminate.
    apply chan_recv_none in Hr as (? & ? & _).
    apply lane_exit_next in Hs as [? ->]. by econstructor.
  - destruct (lanes s !! k) as [l|] eqn:Hk; [|discriminate].
    destruct (ctx_cancelled s) eqn:Hc;
      destruct (lane_state l) eqn:Hl; try discriminate;
      apply lane_exit_next in Hs as [? ->]; econstructor; by rewrite ?Hl.
  - destruct (lanes s !! k) as [[[] out []]|] eqn:Hk; try discriminate.
    destruct (chan_handoff out) eqn:Hh; simplify_eq/=.
    apply chan_handoff_next in Hh. by econstructor.
  - destruct (lanes s !! k) as [l|] eqn:Hk; [|discriminate].
    destruct (lane_fwd l) eqn:Hf; try discriminate.
    destruct (chan_recv (lane_out l)) as [| |[[v|] c]] eqn:Hr; try discriminate.
    apply chan_recv_none in Hr as (? & ? & _).
    apply fwd_exit_next in Hs as [? ->]. by econstructor.
  - destruct (lanes s !! k) as [l|] eqn:Hk; [|discriminate].
    destruct (lane_fwd l) eqn:Hf; try discriminate.
    destruct (ctx_cancelled s) eqn:Hc; [|discriminate].
    apply fwd_exit_next in Hs as [? ->]. by econstructor.
  - destruct (lanes s !! k) as [[st out []]|] eqn:Hk; try discriminate.
    destruct (chan_handoff (merged s)) eqn:Hh; simplify_eq/=.
    apply chan_handoff_next in Hh. by econstructor.
  - destruct (closer s) eqn:Hc; [|discriminate].
    destruct (wg_wait_ready (wg s)) eqn:Hw; [|discriminate].
    apply bool_decide_eq_true in Hw.
    destruct (chan_close (merged s)) eqn:Hj; simplify_eq/=.
    apply chan_close_next in Hj as [? ->]. by constructor.
  - destruct (chan_recv (merged s)) as [| |[[v|] c]] eqn:Hr; simplify_eq.
    apply chan_recv_none in Hr as (? & ? & _). by constructor.
Qed.

Lemma fstep_step s s' : fstep s s' → ∃ e, step s e = Next s'.
Proof.
  unfold step, lane_exit, fwd_exit, chan_handoff, chan_close, chan_recv, wg_done, wg_add,
    wg_wait_ready.
  destruct 1 as [s Hm|s k j js out f Hm Hp Hk Hc|s Hm Hp Hc|s k l Hm Hk Hl Hb Hc Ho
    |s k l Hm Hk Hl Hc Ho|s k r out Hm Hk Ho|s k l Hm Hk Hf Hb Ho Hw|s k l v Hm Hk Hf Hc Hw
    |s k st out v Hm Hk Hc|s Hm Hc Hw Hcl|s Hm Hb Hc]; rewrite Hm.
  - exists Deadline. by rewrite H.
  - exists (ProducerSend k). by rewrite Hp, Hk, Hc.
  - exists ProducerClose. by rewrite Hp, Hc.
  - exists (LaneJobsClosed k). by rewrite Hk, Hl, Hb, Hc, Ho.
  - exists (LaneCancel k). rewrite Hk, Hc, Ho. by destruct (lane_state l).
  - exists (LaneSend k). by rewrite Hk, Ho.
  - exists (FwdRangeEnd k). rewrite Hk, Hf, Hb, Ho. simpl. by rewrite decide_False by lia.
  - exists (FwdCancel k). rewrite Hk, Hf, Hc. simpl. by rewrite decide_False by lia.
  - exists (FwdSend k). by rewrite Hk, Hc.
  - exists CloserClose. rewrite Hc, Hw, Hcl. done.
  - exists MainRangeEnd. by rewrite Hb, Hc.
Qed.

(** ** Lemmas on the invariant's parts *)

(** [lane_ok] only grows with [jobs] closed and the context cancelled. *)
Lemma lane_ok_weaken s s' l :
  (chan_closed (jobs s) = true → chan_closed (jobs s') = true) →
  (ctx_cancelled s = true → ctx_cancelled s' = true) →
  lane_ok s l → lane_ok s' l.
Proof. unfold lane_ok. naive_solver. Qed.

Lemma lanes_ok_weaken s s' ls :
  (chan_closed (jobs s) = true → chan_closed (jobs s') = true) →
  (ctx_cancelled s = true → ctx_cancelled s' = true) →
  Forall (lane_ok s) ls → Forall (lane_ok s') ls.
Proof. intros ?? Hls. eapply Forall_impl; [exact Hls|]. intros l. by apply lane_ok_weaken. Qed.

Lemma in_flight_set_lane s k l l' :
  lanes s !! k = Some l →
  lane_held l' ++ in_flight s ≡ₚ lane_held l ++ in_flight (set_lane k l' s).
Proof. intros Hk. unfold in_flight; simpl. by apply mjoin_insert_perm. Qed.

(** A step that sends no job and only moves, prints or drops results in
    flight keeps the accounting; without cancellation it must not drop. *)
Lemma accounted_transfer js0 s s' :
  pending s' = pending s →
  printed s' ++ in_flight s' ⊆+ printed s ++ in_flight s →
  (ctx_cancelled s' = false →
     ctx_cancelled s = false ∧ printed s' ++ in_flight s' ≡ₚ printed s ++ in_flight s) →
  accounted js0 s → accounted js0 s'.
Proof.
  intros Hp Hsub Hperm (c & Hjs & Hc & Hce). exists c. rewrite Hp. split_and!; [done| |].
  - by etrans.
  - intros Hs'. destruct (Hperm Hs') as [Hs ->]. by apply Hce.
Qed.

(** Sending job [j] adds [process j] to the results in flight. *)
Lemma accounted_take js0 s s' j :
  pending s = j :: pending s' →
  printed s' ++ in_flight s' ≡ₚ process j :: printed s ++ in_flight s →
  ctx_cancelled s' = ctx_cancelled s →
  accounted js0 s → accounted js0 s'.
Proof.
  intros Hp Hperm Hcan (c & Hjs & Hc & Hce). exists (c ++ [j]).
  rewrite Hp in Hjs. rewrite fmap_app, Hperm, Hcan; simpl. split_and!.
  - by rewrite Hjs, <-(assoc_L (++)).
  - rewrite (Permutation_cons_append (printed s ++ in_flight s)). by apply submseteq_app.
  - intros Hs. rewrite (Permutation_cons_append (printed s ++ in_flight s)), (Hce Hs). done.
Qed.

(** Replacing one lane by another that holds a submultiset of its
    results (the same results when not cancelled). *)
Lemma accounted_set_lane js0 s k l l' :
  lanes s !! k = Some l →
  lane_held l' ⊆+ lane_held l →
  (ctx_cancelled s = false → lane_held l' ≡ₚ lane_held l) →
  accounted js0 s → accounted js0 (set_lane k l' s).
Proof.
  intros Hk Hsub Hperm. apply accounted_transfer; [done| |].
  - simpl. apply submseteq_app; [done|].
    apply (submseteq_app_inv_l _ _ (lane_held l)).
    rewrite <-(in_flight_set_lane s k l l' Hk). by apply submseteq_app.
  - simpl. intros Hs; split; [done|]. f_equiv.
    apply (Permutation_app_inv_l (lane_held l)).
    by rewrite <-(in_flight_set_lane s k l l' Hk), (Hperm Hs).
Qed.

(** ** The invariant is preserved by every step *)

Lemma inv_set_lane js0 n s k l l' :
  inv js0 n s → lanes s !! k = Some l → lane_ok s l' → fwd_live l' = fwd_live l →
  lane_held l' ⊆+ lane_held l →
  (ctx_cancelled s = false → lane_held l' ≡ₚ lane_held l) →
  inv js0 n (set_lane k l' s).
Proof.
  intros [] Hk Hok Hlive Hsub Hperm. constructor; simpl; try done.
  - by rewrite length_insert.
  - by apply Forall_insert.
  - pose proof (sum_list_with_insert fwd_live _ _ _ l' Hk). lia.
  - by eapply accounted_set_lane.
Qed.

Lemma inv_lane_ok js0 n s k l :
  inv js0 n s → lanes s !! k = Some l → lane_ok s l.
Proof. intros Hinv Hk. exact (Forall_lookup_1 _ _ _ _ (inv_lanes _ _ _ Hinv) Hk). Qed.

Lemma inv_lane_exit js0 n s k l s' :
  inv js0 n s → lanes s !! k = Some l → lane_state l ≠ LExited →
  (chan_closed (jobs s) = true ∨ ctx_cancelled s = true) →
  (∀ r, lane_state l = LSend r → ctx_cancelled s = true) →
  lane_exit k l s = Next s' → inv js0 n s'.
Proof.
  intros Hinv Hk Hst Hwhy Hdrop Hex. apply lane_exit_next in Hex as [Hcl ->].
  destruct (inv_lane_ok _ _ _ _ _ Hinv Hk) as (Hbuf & _ & _ & _).
  apply (inv_set_lane _ _ _ _ l); [done | done | | done | |].
  - unfold lane_ok; simpl. naive_solver.
  - unfold lane_held; simpl. destruct (lane_state l); simpl; [done| |done].
    by apply submseteq_cons.
  - unfold lane_held; simpl. intros Hc. destruct (lane_state l) as [|r|] eqn:E; [done| |done].
    rewrite (Hdrop r eq_refl) in Hc. discriminate.
Qed.

Lemma inv_fwd_exit js0 n s k l s' :
  inv js0 n s → lanes s !! k = Some l → lane_fwd l ≠ FDone →
  (chan_closed (lane_out l) = true ∨ ctx_cancelled s = true) →
  (∀ v, lane_fwd l = FSend v → ctx_cancelled s = true) →
  fwd_exit k l s = Next s' → inv js0 n s'.
Proof.
  intros Hinv Hk Hf Hwhy Hdrop Hex. apply fwd_exit_next in Hex as [Hwg ->].
  set (l' := MkLane (lane_state l) (lane_out l) FDone).
  destruct (inv_lane_ok _ _ _ _ _ Hinv Hk) as (Hbuf & Hcl & Hex & _).
  assert (Hacc : accounted js0 (set_lane k l' s)).
  { apply (accounted_set_lane _ _ _ l); [done| | |apply Hinv].
    - unfold lane_held; simpl. apply submseteq_app; [done|].
      destruct (lane_fwd l); [done | apply submseteq_nil_l | done].
    - unfold lane_held; simpl. intros Hc. destruct (lane_fwd l) as [|v|] eqn:E; [done| |done].
      rewrite (Hdrop v eq_refl) in Hc. discriminate. }
  destruct Hinv. constructor; simpl; try done.
  - by rewrite length_insert.
  - apply Forall_insert; [done|]. unfold lane_ok; simpl. naive_solver.
  - pose proof (sum_list_with_insert fwd_live _ _ _ l' Hk) as Hs.
    unfold fwd_live at 2 in Hs. unfold fwd_live at 3 in Hs. simpl in Hs.
    destruct (lane_fwd l); [| |done]; lia.
  - intros Hc. specialize (inv_closer0 Hc). lia.
Qed.

Lemma inv_fwd_send js0 n s k st out v :
  inv js0 n s → lanes s !! k = Some (MkLane st out (FSend v)) →
  inv js0 n (print v (set_lane k (MkLane st out FRange) s)).
Proof.
  intros Hinv Hk.
  destruct (inv_lane_ok _ _ _ _ _ Hinv Hk) as (Hbuf & Hcl & Hex & Hfd).
  pose proof (in_flight_set_lane s k _ (MkLane st out FRange) Hk) as Hfl.
  unfold lane_held in Hfl; simpl in Hfl.
  assert (Hp : printed s ++ [v] ++ in_flight (set_lane k (MkLane st out FRange) s)
               ≡ₚ printed s ++ in_flight s).
  { f_equiv. apply (Permutation_app_inv_l (match st with LSend r => [r] | _ => [] end)).
    rewrite app_nil_r in Hfl. rewrite (assoc_L (++)), <-Hfl. done. }
  destruct Hinv. constructor; simpl; try done.
  - by rewrite length_insert.
  - apply Forall_insert; [done|]. unfold lane_ok; simpl. naive_solver.
  - pose proof (sum_list_with_insert fwd_live _ _ _ (MkLane st out FRange) Hk). unfold fwd_live in *; simpl in *. lia.
  - apply accounted_transfer with (s := s); simpl; [done| | |done].
    + rewrite <-(assoc_L (++)), Hp. done.
    + intros Hc. split; [done|]. by rewrite <-(assoc_L (++)).
Qed.

Lemma inv_producer_send js0 n s k j js out f :
  inv js0 n s → producer s = PSend (j :: js) → lanes s !! k = Some (MkLane LSelect out f) →
  inv js0 n (set_lane k (MkLane (LSend (process j)) out f) (set_producer (PSend js) (jobs s) s)).
Proof.
  intros Hinv Hp Hk.
  destruct (inv_lane_ok _ _ _ _ _ Hinv Hk) as (Hbuf & Hcl & Hex & Hfd).
  pose proof (in_flight_set_lane (set_producer (PSend js) (jobs s) s) k _
                (MkLane (LSend (process j)) out f) Hk) as Hfl.
  unfold lane_held in Hfl; simpl in Hfl.
  destruct Hinv. constructor; simpl; try done.
  - by rewrite length_insert.
  - rewrite inv_jobs_closed0, Hp. done.
  - apply Forall_insert; [done|]. unfold lane_ok in *; simpl in *. naive_solver.
  - pose proof (sum_list_with_insert fwd_live _ _ _ (MkLane (LSend (process j)) out f) Hk).
    unfold fwd_live in *; simpl in *. lia.
  - apply accounted_take with (s := s) (j := j); simpl; [by unfold pending; rewrite Hp| |done|done].
    assert (Hin : in_flight (set_lane k (MkLane (LSend (process j)) out f)
                    (set_producer (PSend js) (jobs s) s)) ≡ₚ process j :: in_flight s).
    { apply (Permutation_app_inv_l (match f with FSend v => [v] | _ => [] end)).
      rewrite <-Hfl. simpl. by rewrite Permutation_middle. }
    rewrite Hin. by rewrite Permutation_middle.
Qed.

Lemma inv_deadline js0 n s : inv js0 n s → inv js0 n (set_cancelled s).
Proof.
  intros []. constructor; simpl; try done.
  - by eapply lanes_ok_weaken; [| |done].
  - by apply accounted_transfer with (s := s).
Qed.

Lemma inv_producer_close js0 n s j :
  inv js0 n s → producer s = PSend [] → chan_close (jobs s) = Next j →
  inv js0 n (set_producer PDone j s).
Proof.
  unfold chan_close. intros [] Hp Hj. destruct (chan_closed (jobs s)); simplify_eq.
  constructor; simpl; try done.
  - by eapply lanes_ok_weaken; [| |done].
  - apply accounted_transfer with (s := s); [by unfold pending; rewrite Hp|done|done|done].
Qed.

Lemma inv_lane_send js0 n s k r out :
  inv js0 n s → lanes s !! k = Some (MkLane (LSend r) out FRange) →
  inv js0 n (set_lane k (MkLane LSelect out (FSend r)) s).
Proof.
  intros Hinv Hk. destruct (inv_lane_ok _ _ _ _ _ Hinv Hk) as (Hbuf & Hcl & _ & _).
  apply (inv_set_lane _ _ _ _ _ _ Hinv Hk); [|done|done|done].
  unfold lane_ok; simpl in *. naive_solver.
Qed.

Lemma inv_closer_close js0 n s m :
  inv js0 n s → closer s = CWait → wg_wait_ready (wg s) = true →
  chan_close (merged s) = Next m → inv js0 n (set_closer CDone m s).
Proof.
  unfold chan_close, wg_wait_ready. intros [] Hc Hw Hm.
  apply bool_decide_eq_true in Hw.
  destruct (chan_closed (merged s)); simplify_eq. constructor; simpl; done.
Qed.

Lemma inv_main_end js0 n s c :
  inv js0 n s → chan_recv (merged s) = Next (None, c) → inv js0 n (set_main MReturned s).
Proof.
  rewrite chan_recv_none. intros [] (_ & Hcl & _). constructor; simpl; done.
Qed.

(** Every transition keeps the invariant (rule induction on [fstep]). *)
Lemma fstep_preserves_inv js0 n s s' : inv js0 n s → fstep s s' → inv js0 n s'.
Proof.
  intros Hinv.
  destruct 1 as [s Hm|s k j js out f Hm Hp Hk Hc|s Hm Hp Hc|s k l Hm Hk Hl Hb Hc Ho
    |s k l Hm Hk Hl Hc Ho|s k r out Hm Hk Ho|s k l Hm Hk Hf Hb Ho Hw|s k l v Hm Hk Hf Hc Hw
    |s k st out v Hm Hk Hc|s Hm Hc Hw Hcl|s Hm Hb Hc].
  - by apply inv_deadline.
  - by eapply inv_producer_send.
  - eapply inv_producer_close; [done|done|]. by apply chan_close_next.
  - eapply inv_lane_exit; [done|done|by rewrite Hl|by left|by rewrite Hl|].
    by apply lane_exit_next.
  - eapply inv_lane_exit; [done|done|done|by right|done|]. by apply lane_exit_next.
  - by eapply inv_lane_send.
  - eapply inv_fwd_exit; [done|done|by rewrite Hf|by left|by rewrite Hf|].
    by apply fwd_exit_next.
  - eapply inv_fwd_exit; [done|done|by rewrite Hf|by right|done|]. by apply fwd_exit_next.
  - by eapply inv_fwd_send.
  - eapply inv_closer_close; [done|done|by apply bool_decide_eq_true|]. by apply chan_close_next.
  - eapply inv_main_end; [done|]. by apply chan_recv_none.
Qed.

Lemma inv_init js0 n : inv js0 n (init js0 n).
Proof.
  constructor; simpl; try done.
  - by rewrite length_replicate.
  - apply Forall_replicate. unfold lane_ok; simpl. naive_solver.
  - f_equal. induction n as [|n IH]; simpl; [done|]. by rewrite <-IH.
  - exists []. unfold pending, in_flight; simpl.
    assert (Hnil : ∀ l0 m, lane_held l0 = [] → mjoin (lane_held <$> replicate m l0) = []).
    { intros l0 m Hl0. rewrite fmap_replicate, Hl0. induction m as [|m IH]; simpl; [done|]. done. }
    rewrite (Hnil _ n) by done. split_and!; done.
Qed.

Lemma step_preserves_inv js0 n s e s' : inv js0 n s → step s e = Next s' → inv js0 n s'.
Proof. intros Hinv Hs. eapply fstep_preserves_inv; [done|]. by eapply step_fstep. Qed.

Lemma reachable_inv js0 n s : reachable js0 n s → inv js0 n s.
Proof.
  apply (rtc_invariant step (inv js0 n)); [apply step_preserves_inv | apply inv_init].
Qed.

#[export] Hint Resolve reachable_inv inv_init : go.

(** ** The measure decreases *)

Lemma measure_set_lane s k l l' :
  lanes s !! k = Some l →
  measure (set_lane k l' s) + lane_weight l = measure s + lane_weight l'.
Proof.
  intros Hk. pose proof (sum_list_with_insert lane_weight _ _ _ l' Hk).
  unfold measure; simpl. lia.
Qed.

Lemma fstep_measure s s' : fstep s s' → measure s' < measure s.
Proof.
  destruct 1 as [s Hm Hc|s k j js out f Hm Hp Hk Hc|s Hm Hp Hc|s k l Hm Hk Hl Hb Hc Ho
    |s k l Hm Hk Hl Hc Ho|s k r out Hm Hk Ho|s k l Hm Hk Hf Hb Ho Hw|s k l v Hm Hk Hf Hc Hw
    |s k st out v Hm Hk Hc|s Hm Hc Hw Hcl|s Hm Hb Hc].
  - unfold measure; simpl. rewrite Hc. lia.
  - pose proof (measure_set_lane (set_producer (PSend js) (jobs s) s) _ _
      (MkLane (LSend (process j)) out f) Hk) as H.
    unfold measure, lane_weight in *; simpl in *. rewrite Hp in *. simpl in *. lia.
  - unfold measure; simpl. rewrite Hp. simpl. lia.
  - pose proof (measure_set_lane _ _ _ (MkLane LExited (mark_closed (lane_out l)) (lane_fwd l)) Hk).
    unfold lane_weight in *; simpl in *. rewrite Hl in *. lia.
  - pose proof (measure_set_lane _ _ _ (MkLane LExited (mark_closed (lane_out l)) (lane_fwd l)) Hk).
    unfold lane_weight in *; simpl in *. destruct (lane_state l); [lia|lia|done].
  - pose proof (measure_set_lane _ _ _ (MkLane LSelect out (FSend r)) Hk).
    unfold lane_weight in *; simpl in *. lia.
  - pose proof (measure_set_lane _ _ _ (MkLane (lane_state l) (lane_out l) FDone) Hk).
    unfold lane_weight in *; simpl in *. rewrite Hf in *. unfold measure in *; simpl in *. lia.
  - pose proof (measure_set_lane _ _ _ (MkLane (lane_state l) (lane_out l) FDone) Hk).
    unfold lane_weight in *; simpl in *. rewrite Hf in *. unfold measure in *; simpl in *. lia.
  - pose proof (measure_set_lane _ _ _ (MkLane st out FRange) Hk).
    unfold lane_weight in *; simpl in *. unfold measure in *; simpl in *. lia.
  - unfold measure; simpl. rewrite Hc. lia.
  - unfold measure; simpl. rewrite Hm. lia.
Qed.

Lemma step_measure s e s' : step s e = Next s' → measure s' < measure s.
Proof. intros Hs. apply fstep_measure. by eapply step_fstep. Qed.

(** ** Progress *)

(** Some forwarder is live while the [WaitGroup] counter is positive. *)
Lemma inv_live_fwd js0 n s :
  inv js0 n s → wg s ≠ 0%Z → ∃ k l, lanes s !! k = Some l ∧ lane_fwd l ≠ FDone.
Proof.
  intros Hinv Hwg. rewrite (inv_wg _ _ _ Hinv) in Hwg.
  destruct (sum_list_with_pos fwd_live (lanes s)) as (k & l & Hk & Hl); [lia|].
  exists k, l. split; [done|]. unfold fwd_live in Hl. by destruct (lane_fwd l).
Qed.

(** A lane at its first [select] can always move: the deadline has
    fired, [jobs] is closed, or the producer has a job or its [close]
    to run. *)
Lemma lane_select_progress js0 n s k l :
  inv js0 n s → main s = MRange → lanes s !! k = Some l → lane_state l = LSelect →
  ∃ s', fstep s s'.
Proof.
  intros Hinv Hm Hk Hl. destruct (inv_lane_ok _ _ _ _ _ Hinv Hk) as (Hb & Hcl & _ & _).
  assert (Ho : chan_closed (lane_out l) = false) by (rewrite Hcl; unfold lane_exited; by rewrite Hl).
  destruct (ctx_cancelled s) eqn:Hc; [eexists; eapply fs_lane_cancel; by rewrite ?Hl|].
  destruct (chan_closed (jobs s)) eqn:Hj.
  { eexists; eapply fs_lane_jobs_closed; eauto using inv_jobs_buf. }
  destruct (producer s) as [[|j js]|] eqn:Hp.
  - eexists; by apply fs_producer_close.
  - destruct l as [st out f]; simpl in *; subst st. eexists; by eapply fs_producer_send.
  - by apply (inv_jobs_closed _ _ _ Hinv) in Hp; congruence.
Qed.

(** While [main] ranges over [merged], some goroutine can move. *)
Lemma progress js0 n s : inv js0 n s → main s = MRange → ∃ s', fstep s s'.
Proof.
  intros Hinv Hm. destruct (chan_closed (merged s)) eqn:Hmc.
  { eexists; apply fs_main_end; eauto using inv_merged_buf. }
  destruct (closer s) eqn:Hc.
  2:{ apply (inv_merged_closed _ _ _ Hinv) in Hc. congruence. }
  destruct (decide (wg s = 0%Z)) as [Hw|Hw]; [eexists; by apply fs_closer_close|].
  destruct (inv_live_fwd _ _ _ Hinv Hw) as (k & l & Hk & Hf).
  assert (Hpos : (0 < wg s)%Z).
  { rewrite (inv_wg _ _ _ Hinv). pose proof (sum_list_with_lookup fwd_live _ _ _ Hk) as H.
    unfold fwd_live at 1 in H. destruct (lane_fwd l); [lia|lia|done]. }
  destruct (inv_lane_ok _ _ _ _ _ Hinv Hk) as (Hb & Hcl & _ & _).
  destruct l as [st out f]; simpl in *.
  destruct f as [|v|]; [|eexists; by eapply fs_fwd_send|done].
  destruct (chan_closed out) eqn:Ho.
  { eexists; by eapply (fs_fwd_range_end _ _ (MkLane st out FRange)). }
  destruct st as [|r|]; [by eapply (lane_select_progress _ _ _ _ (MkLane LSelect out FRange))| |done].
  eexists; by eapply fs_lane_send.
Qed.

(** ** No runtime panic *)

Lemma inv_fwd_weight js0 n s k l :
  inv js0 n s → lanes s !! k = Some l → (Z.of_nat (fwd_live l) ≤ wg s)%Z.
Proof.
  intros Hinv Hk. rewrite (inv_wg _ _ _ Hinv).
  pose proof (sum_list_with_lookup fwd_live _ _ _ Hk). lia.
Qed.

Ltac inv_facts Hinv :=
  pose proof (inv_jobs_closed _ _ _ Hinv);
  pose proof (inv_merged_closed _ _ _ Hinv);
  pose proof (inv_closer _ _ _ Hinv);
  repeat match goal with
  | Hk : lanes _ !! _ = Some ?l |- _ =>
      pose proof (inv_lane_ok _ _ _ _ _ Hinv Hk);
      pose proof (inv_fwd_weight _ _ _ _ _ Hinv Hk);
      clear Hk
  end;
  unfold lane_ok, lane_exited, fwd_live in *; simpl in *.

Lemma inv_step_no_panic js0 n s e r : inv js0 n s → step s e ≠ Panicked r.
Proof.
  intros Hinv Hs. unfold step, lane_exit, fwd_exit, chan_handoff, chan_close, wg_done, wg_add in Hs.
  destruct (main s); [|done].
  destruct e; repeat (case_match; simplify_eq/=);
    repeat match goal with l : lane |- _ => destruct l end; simplify_eq/=; inv_facts Hinv.
  all: try (destruct_and?; intuition (try congruence; try lia)).
Qed.


(** ** When [main] returns *)

(** [merged] is closed only once every forwarder has returned. *)
Lemma inv_returned_fwds js0 n s :
  inv js0 n s → chan_closed (merged s) = true →
  ∀ k l, lanes s !! k = Some l → lane_fwd l = FDone.
Proof.
  intros Hinv Hm k l Hk. apply (inv_merged_closed _ _ _ Hinv), (inv_closer _ _ _ Hinv) in Hm.
  pose proof (inv_fwd_weight _ _ _ _ _ Hinv Hk). unfold fwd_live in *.
  destruct (lane_fwd l); [lia|lia|done].
Qed.

(** Without cancellation, [merged] closed means every lane has returned
    and closed its [out]. *)
Lemma inv_returned_lanes js0 n s :
  inv js0 n s → ctx_cancelled s = false → chan_closed (merged s) = true →
  ∀ k l, lanes s !! k = Some l → lane_state l = LExited ∧ lane_fwd l = FDone.
Proof.
  intros Hinv Hc Hm k l Hk. pose proof (inv_returned_fwds _ _ _ Hinv Hm k l Hk) as Hf.
  destruct (inv_lane_ok _ _ _ _ _ Hinv Hk) as (_ & Hcl & _ & Hfd).
  destruct (Hfd Hf) as [Ho|Ho]; [|congruence]. rewrite Ho in Hcl. unfold lane_exited in Hcl.
  by destruct (lane_state l).
Qed.

Lemma after_reachable es : is_run es = true → reachable main_jobs 3 (after es).
Proof.
  unfold is_run, after. destruct (run step main_state es) eqn:E; try discriminate.
  intros _. by eapply run_rtc.
Qed.

Lemma measure_init js0 n : measure (init js0 n) = 4 * length js0 + 2 * n + 4.
Proof. unfold measure; simpl. rewrite sum_list_with_replicate. unfold lane_weight; simpl. lia. Qed.

(** ** The pipeline satisfies the interface of program models *)

#[export] Instance fanout_laws js0 n :
  ProgramLaws step (inv js0 n) (λ s, main s = MReturned) measure.
Proof.
  split.
  - intros s e s'. apply step_preserves_inv.
  - intros s e s' _. apply step_measure.
  - intros s e r Hinv. by apply (inv_step_no_panic js0 n).
  - intros s Hinv. destruct (main s) eqn:Hm; [right|by left].
    destruct (progress js0 n s Hinv Hm) as [s' Hs']. destruct (fstep_step _ _ Hs') as [e He].
    by exists e, s'.
Qed.

(** ** Theorems *)

(** C1. No loss, no duplication: with at least one worker and no
    deadline, when [main] returns it has printed [process j] for every
    job [j], each exactly once, in some order. *)
Theorem fanout_no_loss js0 n s :
  reachable js0 n s → 0 < n → main s = MReturned → ctx_cancelled s = false →
  printed s ≡ₚ process <$> js0.
Proof.
  intros Hr Hn Hm Hc. pose proof (reachable_inv _ _ _ Hr) as Hinv.
  pose proof (inv_returned_lanes _ _ _ Hinv Hc (inv_main _ _ _ Hinv Hm)) as Hl.
  destruct (lookup_lt_is_Some_2 (lanes s) 0) as [l0 Hl0];
    [rewrite (inv_lanes_len _ _ _ Hinv); lia|].
  destruct (inv_lane_ok _ _ _ _ _ Hinv Hl0) as (_ & _ & Hj & _).
  unfold lane_exited in Hj. rewrite (proj1 (Hl 0 l0 Hl0)) in Hj.
  destruct (Hj eq_refl) as [Hjc|]; [|congruence].
  apply (inv_jobs_closed _ _ _ Hinv) in Hjc.
  destruct (inv_accounted _ _ _ Hinv) as (c & Hjs & _ & Hperm).
  unfold pending in Hjs; rewrite Hjc, app_nil_r in Hjs; subst c.
  rewrite <-(Hperm Hc). unfold in_flight. rewrite mjoin_fmap_nil; [by rewrite app_nil_r|].
  intros k l Hk. unfold lane_held. by destruct (Hl k l Hk) as [-> ->].
Qed.

Lemma fanout_no_loss_witness :
  printed (after main_schedule) ≡ₚ process <$> main_jobs.
Proof.
  apply (fanout_no_loss main_jobs 3);
    [apply after_reachable; vm_compute; reflexivity | lia
    | vm_compute; reflexivity | vm_compute; reflexivity].
Defined.

(** C2. At most once, under cancellation too: in every reachable state
    the values printed are a submultiset of [process] of the jobs, so
    never more than the number of jobs and no result twice. *)
Theorem fanout_at_most_once js0 n s :
  reachable js0 n s → printed s ⊆+ process <$> js0.
Proof.
  intros Hr. destruct (inv_accounted _ _ _ (reachable_inv _ _ _ Hr)) as (c & -> & Hsub & _).
  rewrite fmap_app. apply submseteq_inserts_r. etrans; [|exact Hsub].
  by apply submseteq_inserts_r.
Qed.

Lemma fanout_at_most_once_witness :
  printed (after cancel_schedule) ⊆+ process <$> main_jobs.
Proof.
  apply (fanout_at_most_once main_jobs 3). apply after_reachable. vm_compute. reflexivity.
Defined.

(** Termination: every run of the program is finite (the converse
    of the transition relation is well founded). *)
Theorem fanout_terminates (s : state) : Acc (flip (can_step step)) s.
Proof. apply (measure_terminates step measure step_measure). Qed.

(** C8. Bound on the length of runs: a run of the pipeline with jobs
    [js0] and [n] workers has at most [4 * |js0| + 2 * n + 4] steps. *)
Theorem fanout_run_bound js0 n es s :
  run step (init js0 n) es = Next s → length es ≤ 4 * length js0 + 2 * n + 4.
Proof.
  intros Hrun. pose proof (measure_bounds_runs step measure step_measure _ _ _ Hrun).
  rewrite measure_init in *. lia.
Qed.

Lemma fanout_run_bound_witness : length main_schedule ≤ 4 * length main_jobs + 2 * 3 + 4.
Proof. apply (fanout_run_bound main_jobs 3 main_schedule (after main_schedule)). vm_compute. reflexivity. Defined.

(** C6. No runtime panic: in every reachable state no goroutine can send
    on or close a closed channel, or drive the [WaitGroup] negative. *)
Theorem fanout_no_panic js0 n s : reachable js0 n s → panic_free step s.
Proof. intros Hr. apply (laws_panic_free (inv := inv js0 n)), reachable_inv, Hr. Qed.

Lemma fanout_no_panic_witness : panic_free step (after cancel_schedule).
Proof. apply (fanout_no_panic main_jobs 3). apply after_reachable. vm_compute. reflexivity. Defined.

(** No deadlock: a reachable state in which no goroutine can move is
    one where [main] has returned. *)
Theorem fanout_deadlock_free js0 n s :
  reachable js0 n s → stuck step s → main s = MReturned.
Proof.
  intros Hr. apply (laws_stuck_exited (inv := inv js0 n) (exited := λ s, main s = MReturned)).
  by apply reachable_inv.
Qed.

Lemma fanout_deadlock_free_witness : main (after main_schedule) = MReturned.
Proof.
  apply (fanout_deadlock_free main_jobs 3).
  - apply after_reachable. vm_compute. reflexivity.
  - intros e s'. vm_compute. destruct e; discriminate.
Defined.

(** C7. [main] always returns: from every reachable state some run
    leads to [main]'s return, i.e. the merged stream is closed and
    drained whatever happened before. *)
Theorem fanout_main_returns js0 n s :
  reachable js0 n s → ∃ s', s ~[ step ]~>* s' ∧ main s' = MReturned.
Proof.
  intros Hr. apply (laws_eventually_exits (inv := inv js0 n) (exited := λ s, main s = MReturned)).
  by apply reachable_inv.
Qed.

Lemma fanout_main_returns_witness :
  ∃ s', (after cancel_schedule) ~[ step ]~>* s' ∧ main s' = MReturned.
Proof. apply (fanout_main_returns main_jobs 3). apply after_reachable. vm_compute. reflexivity. Defined.

(** C3. Without cancellation, [merged] is closed only after every lane
    has returned and closed its private [out] channel. *)
Theorem fanout_close_after_lanes js0 n s :
  reachable js0 n s → ctx_cancelled s = false → chan_closed (merged s) = true →
  Forall (λ l, lane_state l = LExited ∧ chan_closed (lane_out l) = true) (lanes s).
Proof.
  intros Hr Hc Hm. pose proof (reachable_inv _ _ _ Hr) as Hinv.
  apply Forall_lookup_2. intros k l Hk.
  destruct (inv_returned_lanes _ _ _ Hinv Hc Hm k l Hk) as [Hx _].
  destruct (inv_lane_ok _ _ _ _ _ Hinv Hk) as (_ & Hcl & _ & _).
  unfold lane_exited in Hcl. rewrite Hx in Hcl. done.
Qed.

Lemma fanout_close_after_lanes_witness :
  Forall (λ l, lane_state l = LExited ∧ chan_closed (lane_out l) = true)
    (lanes (after main_schedule)).
Proof.
  apply (fanout_close_after_lanes main_jobs 3);
    [apply after_reachable; vm_compute; reflexivity | vm_compute; reflexivity
    | vm_compute; reflexivity].
Defined.

(** C4. Under cancellation the ordering of C3 fails: there is a run of
    [main] in which [merged] is closed while lane 0 is still running
    (holding a result it will never send) and its [out] is open. *)
Theorem fanout_close_before_lane_exit :
  ∃ s, reachable main_jobs 3 s ∧ chan_closed (merged s) = true ∧
       ∃ l, lanes s !! 0 = Some l ∧ lane_state l ≠ LExited ∧ chan_closed (lane_out l) = false.
Proof.
  exists (after cancel_schedule). split; [apply after_reachable; vm_compute; reflexivity|].
  split; [vm_compute; reflexivity|]. eexists. vm_compute. split; [reflexivity|].
  split; [discriminate|reflexivity].
Qed.

(** Lanes that have returned stay returned, and the producer does not
    move while no lane waits for a job. *)
Lemma fstep_frozen_producer s s' :
  Forall (λ l, lane_state l = LExited) (lanes s) → pending s ≠ [] → fstep s s' →
  producer s' = producer s ∧ pending s' = pending s ∧
  Forall (λ l, lane_state l = LExited) (lanes s').
Proof.
  intros Hall Hp.
  destruct 1 as [s Hm Hc|s k j js out f Hm Hpr Hk Hc|s Hm Hpr Hc|s k l Hm Hk Hl Hb Hc Ho
    |s k l Hm Hk Hl Hc Ho|s k r out Hm Hk Ho|s k l Hm Hk Hf Hb Ho Hw|s k l v Hm Hk Hf Hc Hw
    |s k st out v Hm Hk Hc|s Hm Hc Hw Hcl|s Hm Hb Hc]; simpl; try done;
  try (pose proof (Forall_lookup_1 _ _ _ _ Hall Hk) as Hx; simpl in Hx).
  - done.
  - unfold pending in Hp. by rewrite Hpr in Hp.
  - split_and!; [done|done|]. by apply Forall_insert.
  - split_and!; [done|done|]. by apply Forall_insert.
  - done.
  - split_and!; [done|done|]. by apply Forall_insert.
  - split_and!; [done|done|]. by apply Forall_insert.
  - split_and!; [done|done|]. by apply Forall_insert.
Qed.

(** C5. A goroutine leaks: once the deadline has made every lane
    return while the producer still has jobs, the producer stays blocked
    on [jobs <- i] in every later state (it does not watch the context). *)
Theorem fanout_producer_blocked js0 n s s' :
  reachable js0 n s → Forall (λ l, lane_state l = LExited) (lanes s) → pending s ≠ [] →
  s ~[ step ]~>* s' → producer s' = producer s.
Proof.
  intros _ Hall Hp Hr.
  cut (producer s' = producer s ∧ pending s' = pending s ∧
       Forall (λ l, lane_state l = LExited) (lanes s')); [naive_solver|].
  revert Hr. apply (rtc_invariant step (λ t, producer t = producer s ∧ pending t = pending s ∧
                     Forall (λ l, lane_state l = LExited) (lanes t))); [|done].
  intros t e t' (Hpt & Hpe & Ht) He.
  destruct (fstep_frozen_producer t t' Ht ltac:(by rewrite Hpe) (step_fstep _ _ _ He))
    as (-> & -> & ?). done.
Qed.

Lemma fanout_producer_blocked_witness :
  producer (after (leak_schedule ++ [FwdRangeEnd 0])) = producer (after leak_schedule).
Proof.
  apply (fanout_producer_blocked main_jobs 3 (after leak_schedule)
           (after (leak_schedule ++ [FwdRangeEnd 0]))).
  - apply after_reachable. vm_compute. reflexivity.
  - vm_compute. repeat (apply List.Forall_cons; [reflexivity|]). apply List.Forall_nil.
  - vm_compute. discriminate.
  - apply (run_rtc step _ [FwdRangeEnd 0]). vm_compute. reflexivity.
Defined.

Lemma fstep_merged_closed s s' :
  chan_closed (merged s) = true → fstep s s' →
  chan_closed (merged s') = true ∧ printed s' = printed s.
Proof. intros Hm. destruct 1; simpl; try done; congruence. Qed.

(** Closing [merged] is terminal: once it is closed, nothing more
    is ever printed, whatever the goroutines still do. *)
Theorem fanout_printed_final js0 n s s' :
  reachable js0 n s → chan_closed (merged s) = true → s ~[ step ]~>* s' →
  printed s' = printed s.
Proof.
  intros _ Hm Hr.
  cut (chan_closed (merged s') = true ∧ printed s' = printed s); [naive_solver|].
  revert Hr. apply (rtc_invariant step (λ t, chan_closed (merged t) = true ∧ printed t = printed s));
    [|done].
  intros t e t' [Ht Hp] He. destruct (fstep_merged_closed t t' Ht (step_fstep _ _ _ He)).
  split; congruence.
Qed.

Lemma fanout_printed_final_witness :
  printed (after (cancel_schedule ++ [LaneCancel 0; MainRangeEnd])) =
  printed (after cancel_schedule).
Proof.
  apply (fanout_printed_final main_jobs 3).
  - apply after_reachable. vm_compute. reflexivity.
  - vm_compute. reflexivity.
  - apply (run_rtc step _ [LaneCancel 0; MainRangeEnd]). vm_compute. reflexivity.
Defined.

(** The executable step function and the inductive transition
    relation describe the same transitions. *)
Theorem fanout_step_iff s s' : can_step step s s' ↔ fstep s s'.
Proof.
  split; [intros [e He]; by eapply step_fstep | apply fstep_step].
Qed.

(** Channel ownership and the [WaitGroup]: in every reachable state
    the counter equals the number of forwarders that have not returned,
    and a lane's private channel is closed exactly when the lane has
    returned. *)
Theorem fanout_wg_tracks_forwarders js0 n s :
  reachable js0 n s →
  wg s = Z.of_nat (length (filter (λ l, lane_fwd l ≠ FDone) (lanes s))) ∧
  Forall (λ l, chan_closed (lane_out l) = bool_decide (lane_state l = LExited)) (lanes s).
Proof.
  intros Hr. pose proof (reachable_inv _ _ _ Hr) as Hinv. split.
  - rewrite (inv_wg _ _ _ Hinv). f_equal. clear Hr Hinv.
    induction (lanes s) as [|l ls IH]; [done|]. rewrite filter_cons. simpl.
    unfold fwd_live at 1. destruct (lane_fwd l); simpl; rewrite IH; done.
  - eapply Forall_impl; [exact (inv_lanes _ _ _ Hinv)|]. intros l (_ & Hcl & _).
    rewrite Hcl. unfold lane_exited. by destruct (lane_state l).
Qed.

Lemma fanout_wg_tracks_forwarders_witness :
  wg (after cancel_schedule) =
    Z.of_nat (length (filter (λ l, lane_fwd l ≠ FDone) (lanes (after cancel_schedule)))) ∧
  Forall (λ l, chan_closed (lane_out l) = bool_decide (lane_state l = LExited))
    (lanes (after cancel_schedule)).
Proof. apply (fanout_wg_tracks_forwarders main_jobs 3). apply after_reachable. vm_compute. reflexivity. Defined.

(** C9. [process] on Go's 64-bit [int]: its result is always in the
    [int] range and congruent to [input * 2] modulo 2^64, which makes it
    the two's-complement wrap-around of [input * 2] (the only such
    [int], [wrap_int_unique]); it is exactly [input * 2] when that
    fits. *)
Theorem process_bounds x :
  (- 2^63 ≤ process x < 2^63)%Z ∧ ((process x - 2 * x) mod 2^64 = 0)%Z ∧
  ((- 2^62 ≤ x < 2^62)%Z → process x = (2 * x)%Z).
Proof.
  unfold process. split; [apply wrap_int_range|split].
  - rewrite (Z.mul_comm 2 x). apply wrap_int_congr.
  - intros Hx. rewrite wrap_int_small; lia.
Qed.

Lemma process_bounds_witness : process 10 = 20%Z ∧ process (2^62) = (- 2^63)%Z.
Proof.
  split; [apply (proj2 (proj2 (process_bounds 10))); lia | vm_compute; reflexivity].
Defined.

End FanOutFanIn.
