(* ===== verification/WorkerPool.v ===== *)
(** [src/worker-pool/main.go]: a pool of [Worker] goroutines reading
    tasks from a buffered [jobs] channel and writing completion messages
    to a buffered [results] channel, driven by [main].

    - [Worker] (lines 17-36): [wp_worker_pc]; a worker selects between a
      receive on [jobs] and [ctx.Done()], prints "processing", then
      selects between a send on [results] and [ctx.Done()]; it calls
      [wg.Done()] when it returns.
    - [main] (lines 38-91): [main_pc]; it sends tasks [1..numJobs] (each
      send selecting against [ctx.Done()]), closes [jobs], starts the
      goroutine that closes [results] after [wg.Wait()] ([closer_pc]),
      and collects results until [results] is closed or the context is
      cancelled. Its return ends the process.
    - [wp_step] is the executable semantics, [wstep] the inductive
      relation, [wp_inv] the invariant; the theorems at the end give
      delivery, the buffer bounds, termination, absence of panics and of
      deadlock, and that [main] returns without the deadline firing. *)

From S2P Require Import Prelude Runtime.

Set Warnings "-clear-no-such-hyp".

Module WorkerPool.

(** ** Data *)

(** [Task] (lines 10-14); the duration in nanoseconds. *)
Record Task := MkTask { task_id : Z; task_duration : Z }.

(** The value sent on [results]: [fmt.Sprintf("Task %d completed by
    worker %d", job.ID, id)], kept as the pair it formats. *)
Record Completion := MkCompletion { comp_task : Z; comp_worker : nat }.

(** A [Worker] goroutine. *)
Inductive wp_worker_pc :=
  | WSelect                 (* line 20: select on <-jobs / ctx.Done() *)
  | WSend (c : Completion)  (* line 27: select on results <- ... / ctx.Done() *)
  | WExited.                (* returned, deferred wg.Done() done *)

(** [main]'s blocking points. *)
Inductive main_pc :=
  | MSend (j : nat)         (* line 61: select on jobs <- Task{j} / ctx.Done() *)
  | MCollect                (* line 81: select on <-results / ctx.Done() *)
  | MExited.                (* main returned: the process exits *)

(** The goroutine of lines 74-77, started after [close(jobs)]. *)
Inductive closer_pc := CNotStarted | CWait | CDone.

(** The lines printed. *)
Inductive out_line :=
  | Processing (worker : nat) (task : Z)   (* line 25 *)
  | Completed (c : Completion)             (* line 86 *)
  | CancelledSending                       (* line 67 *)
  | CancelledCollecting.                   (* line 88 *)

#[export] Instance Task_eq_dec : EqDecision Task.
Proof. solve_decision. Defined.
#[export] Instance Completion_eq_dec : EqDecision Completion.
Proof. solve_decision. Defined.
#[export] Instance wp_worker_pc_eq_dec : EqDecision wp_worker_pc.
Proof. solve_decision. Defined.
#[export] Instance main_pc_eq_dec : EqDecision main_pc.
Proof. solve_decision. Defined.
#[export] Instance closer_pc_eq_dec : EqDecision closer_pc.
Proof. solve_decision. Defined.
#[export] Instance out_line_eq_dec : EqDecision out_line.
Proof. solve_decision. Defined.

Record state := MkState {
  num_jobs : nat;                 (* numJobs *)
  ctx_cancelled : bool;
  jobs : chan Task;
  results : chan Completion;
  workers : list wp_worker_pc;    (* worker k has id k + 1 *)
  wg : Z;
  closer : closer_pc;
  main : main_pc;
  out : list out_line;
}.

Inductive event :=
  | Deadline
  | WorkerRecv (k : nat)      (* worker k takes the <-jobs case *)
  | WorkerCancel (k : nat)    (* worker k takes a ctx.Done() case *)
  | WorkerSend (k : nat)      (* worker k's results <- ... case *)
  | MainSend                  (* main's jobs <- Task case *)
  | MainSendCancel            (* main's ctx.Done() case while sending *)
  | MainCloseJobs             (* loop done: close(jobs), start the closer *)
  | CloserClose               (* wg.Wait() returns, close(results) *)
  | MainRecv                  (* main's <-results case *)
  | MainCollectCancel.        (* main's ctx.Done() case while collecting *)

(** [Task{ID: j, Duration: time.Duration(j) * 1 * time.Millisecond}]. *)
Definition task (j : nat) : Task := MkTask (Z.of_nat j) (Z.of_nat j * 1000000)%Z.

(** ** State updates *)

Definition set_worker (k : nat) (w : wp_worker_pc) (s : state) : state :=
  MkState (num_jobs s) (ctx_cancelled s) (jobs s) (results s) (<[k:=w]> (workers s))
    (wg s) (closer s) (main s) (out s).
Definition set_jobs (j : chan Task) (s : state) : state :=
  MkState (num_jobs s) (ctx_cancelled s) j (results s) (workers s) (wg s) (closer s) (main s) (out s).
Definition set_results (r : chan Completion) (s : state) : state :=
  MkState (num_jobs s) (ctx_cancelled s) (jobs s) r (workers s) (wg s) (closer s) (main s) (out s).
Definition set_wg (n : Z) (s : state) : state :=
  MkState (num_jobs s) (ctx_cancelled s) (jobs s) (results s) (workers s) n (closer s) (main s) (out s).
Definition set_closer (c : closer_pc) (s : state) : state :=
  MkState (num_jobs s) (ctx_cancelled s) (jobs s) (results s) (workers s) (wg s) c (main s) (out s).
Definition set_main (m : main_pc) (s : state) : state :=
  MkState (num_jobs s) (ctx_cancelled s) (jobs s) (results s) (workers s) (wg s) (closer s) m (out s).
Definition set_cancelled (s : state) : state :=
  MkState (num_jobs s) true (jobs s) (results s) (workers s) (wg s) (closer s) (main s) (out s).
Definition emit (l : out_line) (s : state) : state :=
  MkState (num_jobs s) (ctx_cancelled s) (jobs s) (results s) (workers s) (wg s) (closer s) (main s)
    (out s ++ [l]).

(** A worker returns: deferred [wg.Done()]. *)
Definition worker_exit (k : nat) (s : state) : outcome state :=
  n ← wg_done (wg s); Next (set_wg n (set_worker k WExited s)).

(** ** The step function *)

Definition wp_step (s : state) (e : event) : outcome state :=
  match main s with
  | MExited => Blocked
  | _ =>
    match e with
    | Deadline => if ctx_cancelled s then Blocked else Next (set_cancelled s)
    | WorkerRecv k =>
        match workers s !! k with
        | Some WSelect =>
            r ← chan_recv (jobs s);
            match r with
            | (Some t, j') =>
                Next (emit (Processing (S k) (task_id t))
                        (set_worker k (WSend (MkCompletion (task_id t) (S k))) (set_jobs j' s)))
            | (None, _) => worker_exit k s
            end
        | _ => Blocked
        end
    | WorkerCancel k =>
        match workers s !! k with
        | Some WExited | None => Blocked
        | Some _ => if ctx_cancelled s then worker_exit k s else Blocked
        end
    | WorkerSend k =>
        match workers s !! k with
        | Some (WSend c) => r ← chan_send (results s) c; Next (set_worker k WSelect (set_results r s))
        | _ => Blocked
        end
    | MainSend =>
        match main s with
        | MSend j =>
            if decide (j ≤ num_jobs s)
            then q ← chan_send (jobs s) (task j); Next (set_main (MSend (S j)) (set_jobs q s))
            else Blocked
        | _ => Blocked
        end
    | MainSendCancel =>
        match main s with
        | MSend j =>
            if decide (j ≤ num_jobs s) then
              if ctx_cancelled s then Next (set_main MExited (emit CancelledSending s)) else Blocked
            else Blocked
        | _ => Blocked
        end
    | MainCloseJobs =>
        match main s with
        | MSend j =>
            if decide (j ≤ num_jobs s) then Blocked
            else q ← chan_close (jobs s); Next (set_main MCollect (set_closer CWait (set_jobs q s)))
        | _ => Blocked
        end
    | CloserClose =>
        match closer s with
        | CWait =>
            if wg_wait_ready (wg s)
            then r ← chan_close (results s); Next (set_closer CDone (set_results r s))
            else Blocked
        | _ => Blocked
        end
    | MainRecv =>
        match main s with
        | MCollect =>
            r ← chan_recv (results s);
            match r with
            | (Some c, r') => Next (emit (Completed c) (set_results r' s))
            | (None, _) => Next (set_main MExited s)
            end
        | _ => Blocked
        end
    | MainCollectCancel =>
        match main s with
        | MCollect =>
            if ctx_cancelled s then Next (set_main MExited (emit CancelledCollecting s)) else Blocked
        | _ => Blocked
        end
    end
  end.

(** [main] after starting the workers (lines 39-57): [numWorkers]
    workers after [wg.Add(1)] each, about to send task 1. *)
Definition init (numWorkers numJobs : nat) : state :=
  MkState numJobs false (make_chan numJobs) (make_chan numJobs)
    (replicate numWorkers WSelect) (Z.of_nat numWorkers) CNotStarted (MSend 1) [].

Definition main_state : state := init 3 5.

(** A schedule of [main_state] without cancellation: [main] sends the
    five tasks and closes [jobs], worker 1 processes them all, the three
    workers return, the closer closes [results] and [main] drains it. *)
Definition done_schedule : list event :=
  [MainSend; MainSend; MainSend; MainSend; MainSend; MainCloseJobs] ++
  mjoin (replicate 5 [WorkerRecv 0; WorkerSend 0]) ++
  [WorkerRecv 0; WorkerRecv 1; WorkerRecv 2; CloserClose] ++ replicate 6 MainRecv.

Definition after (s : state) (es : list event) : state :=
  match run wp_step s es with Next s' => s' | _ => s end.

(** ** The transitions as an inductive relation *)

Definition exit_worker (k : nat) (s : state) : state := set_wg (wg s - 1) (set_worker k WExited s).

Inductive wstep : state → state → Prop :=
  | ws_deadline s :
      main s ≠ MExited → ctx_cancelled s = false → wstep s (set_cancelled s)
  | ws_recv s k t b :
      main s ≠ MExited → workers s !! k = Some WSelect → chan_buf (jobs s) = t :: b →
      wstep s (emit (Processing (S k) (task_id t))
                 (set_worker k (WSend (MkCompletion (task_id t) (S k)))
                    (set_jobs (MkChan b (chan_cap (jobs s)) (chan_closed (jobs s))) s)))
  | ws_recv_closed s k :
      main s ≠ MExited → workers s !! k = Some WSelect → chan_buf (jobs s) = [] →
      chan_closed (jobs s) = true → (0 < wg s)%Z → wstep s (exit_worker k s)
  | ws_cancel s k w :
      main s ≠ MExited → workers s !! k = Some w → w ≠ WExited → ctx_cancelled s = true →
      (0 < wg s)%Z → wstep s (exit_worker k s)
  | ws_send s k c r :
      main s ≠ MExited → workers s !! k = Some (WSend c) → chan_send (results s) c = Next r →
      wstep s (set_worker k WSelect (set_results r s))
  | ws_main_send s j q :
      main s = MSend j → j ≤ num_jobs s → chan_send (jobs s) (task j) = Next q →
      wstep s (set_main (MSend (S j)) (set_jobs q s))
  | ws_main_send_cancel s j :
      main s = MSend j → j ≤ num_jobs s → ctx_cancelled s = true →
      wstep s (set_main MExited (emit CancelledSending s))
  | ws_close_jobs s j :
      main s = MSend j → num_jobs s < j → chan_closed (jobs s) = false →
      wstep s (set_main MCollect (set_closer CWait (set_jobs (mark_closed (jobs s)) s)))
  | ws_closer s :
      main s ≠ MExited → closer s = CWait → wg s = 0%Z → chan_closed (results s) = false →
      wstep s (set_closer CDone (set_results (mark_closed (results s)) s))
  | ws_main_recv s c b :
      main s = MCollect → chan_buf (results s) = c :: b →
      wstep s (emit (Completed c)
                 (set_results (MkChan b (chan_cap (results s)) (chan_closed (results s))) s))
  | ws_main_end s :
      main s = MCollect → chan_buf (results s) = [] → chan_closed (results s) = true →
      wstep s (set_main MExited s)
  | ws_collect_cancel s :
      main s = MCollect → ctx_cancelled s = true →
      wstep s (set_main MExited (emit CancelledCollecting s)).

Definition reachable (W N : nat) (s : state) : Prop := (init W N) ~[ wp_step ]~>* s.

(** ** Accounting and invariant *)

Definition live (w : wp_worker_pc) : nat := match w with WExited => 0 | _ => 1 end.

(** The task a worker holds between its receive and its send. *)
Definition held (w : wp_worker_pc) : list Z := match w with WSend c => [comp_task c] | _ => [] end.

(** The tasks whose completion [main] has printed. *)
Definition completed_ids (ls : list out_line) : list Z :=
  mjoin ((λ l, match l with Completed c => [comp_task c] | _ => [] end) <$> ls).

(** Every task in the system: queued in [jobs], held by a worker, queued
    in [results], or printed. *)
Definition ids (s : state) : list Z :=
  (task_id <$> chan_buf (jobs s)) ++ mjoin (held <$> workers s) ++
  (comp_task <$> chan_buf (results s)) ++ completed_ids (out s).

(** The tasks [1..n] as [main] numbers them. *)
Definition first_tasks (n : nat) : list Z := Z.of_nat <$> seq 1 n.

(** A completion names a worker of the pool that printed "processing"
    for its task. *)
Definition comp_ok (W : nat) (s : state) (c : Completion) : Prop :=
  1 ≤ comp_worker c ≤ W ∧ Processing (comp_worker c) (comp_task c) ∈ out s.

(** Each printed completion follows the worker's "processing" line. *)
Definition attributed (W : nat) (ls : list out_line) : Prop :=
  ∀ n c, ls !! n = Some (Completed c) →
    1 ≤ comp_worker c ≤ W ∧ ∃ m, m < n ∧ ls !! m = Some (Processing (comp_worker c) (comp_task c)).

(** Every task in the system is one of the [n] tasks sent so far, each
    at most once; with no cancellation, exactly once. *)
Definition accounted (N : nat) (s : state) : Prop :=
  ∃ n, n ≤ N ∧ (∀ j, main s = MSend j → n = j - 1) ∧ (closer s ≠ CNotStarted → n = N) ∧
    ids s ⊆+ first_tasks n ∧ (ctx_cancelled s = false → ids s ≡ₚ first_tasks n).

Definition worker_ok (W : nat) (s : state) (k : nat) (w : wp_worker_pc) : Prop :=
  (w = WExited → (chan_closed (jobs s) = true ∧ chan_buf (jobs s) = []) ∨ ctx_cancelled s = true) ∧
  (∀ c, w = WSend c → c = MkCompletion (comp_task c) (S k) ∧ comp_ok W s c).

Record wp_inv (W N : nat) (s : state) : Prop := {
  winv_num : num_jobs s = N;
  winv_len : length (workers s) = W;
  winv_jobs_cap : chan_cap (jobs s) = N;
  winv_results_cap : chan_cap (results s) = N;
  winv_jobs_closed : chan_closed (jobs s) = true ↔ closer s ≠ CNotStarted;
  winv_results_closed : chan_closed (results s) = true ↔ closer s = CDone;
  winv_closer : closer s = CDone → wg s = 0%Z;
  winv_wg : wg s = Z.of_nat (sum_list_with live (workers s));
  winv_send : ∀ j, main s = MSend j → 1 ≤ j ≤ S N ∧ closer s = CNotStarted;
  winv_collect : main s = MCollect → closer s ≠ CNotStarted;
  winv_exit : main s = MExited →
      ctx_cancelled s = true ∨ (chan_closed (results s) = true ∧ chan_buf (results s) = []);
  winv_workers : ∀ k w, workers s !! k = Some w → worker_ok W s k w;
  winv_results : Forall (comp_ok W s) (chan_buf (results s));
  winv_attributed : attributed W (out s);
  winv_accounted : accounted N s;
}.

(** The termination measure. *)
Definition worker_weight (w : wp_worker_pc) : nat :=
  match w with WSelect => 1 | WSend _ => 3 | WExited => 0 end.

Definition measure (s : state) : nat :=
  (if ctx_cancelled s then 0 else 1) +
  match main s with MSend j => 5 * (S (num_jobs s) - j) + 3 | MCollect => 1 | MExited => 0 end +
  match closer s with CDone => 0 | _ => 1 end +
  4 * length (chan_buf (jobs s)) + length (chan_buf (results s)) +
  sum_list_with worker_weight (workers s).

(** ** The step function and the relation agree *)

Lemma worker_exit_next k s s' :
  worker_exit k s = Next s' ↔ (0 < wg s)%Z ∧ s' = exit_worker k s.
Proof.
  unfold worker_exit, exit_worker. rewrite outcome_bind_next. setoid_rewrite wg_done_next.
  naive_solver.
Qed.

Lemma step_wstep s e s' : wp_step s e = Next s' → wstep s s'.
Proof.
  unfold wp_step. intros Hs.
  assert (Hm : main s ≠ MExited) by (intros Hm; rewrite Hm in Hs; done).
  destruct e as [|k|k|k| | | | | |];
    destruct (main s) as [j| |] eqn:Hmain; try done;
    clear Hm; assert (Hm : main s ≠ MExited) by (by rewrite Hmain).
  all: try (destruct (ctx_cancelled s) eqn:Hc; simplify_eq; by constructor).
  all: try (destruct (workers s !! k) as [[|c|]|] eqn:Hk; try done).
  all: try (unfold chan_recv in Hs; destruct (chan_buf (jobs s)) as [|t b] eqn:Hb;
            [destruct (chan_closed (jobs s)) eqn:Hcl; simpl in Hs; [|done];
             apply worker_exit_next in Hs as [? ->]; by eapply ws_recv_closed
            |simpl in Hs; injection Hs as <-; by eapply ws_recv]).
  all: try (destruct (ctx_cancelled s) eqn:Hc; [|done];
            apply worker_exit_next in Hs as [? ->]; eapply ws_cancel; by eauto).
  all: try (destruct (chan_send (results s) c) eqn:Hr; simplify_eq/=; by eapply ws_send).
  all: try (case_decide; [|done]; destruct (chan_send (jobs s) (task j)) eqn:Hq;
            simplify_eq/=; by eapply ws_main_send).
  all: try (case_decide; [|done]; destruct (ctx_cancelled s) eqn:Hc; simplify_eq/=;
            by eapply ws_main_send_cancel).
  all: try (case_decide; [done|]; destruct (chan_close (jobs s)) eqn:Hq; simplify_eq/=;
            apply chan_close_next in Hq as [? ->]; eapply ws_close_jobs; eauto; lia).
  all: try (destruct (closer s) eqn:Hcl; try done; unfold wg_wait_ready in Hs;
            case_bool_decide; [|done]; destruct (chan_close (results s)) eqn:Hq; simplify_eq/=;
            apply chan_close_next in Hq as [? ->]; by apply ws_closer).
  all: try (unfold chan_recv in Hs; destruct (chan_buf (results s)) as [|c b] eqn:Hb;
            [destruct (chan_closed (results s)) eqn:Hcl; simplify_eq/=; by apply ws_main_end
            |simplify_eq/=; by eapply ws_main_recv]).
  all: try (destruct (ctx_cancelled s) eqn:Hc; simplify_eq/=; by apply ws_collect_cancel).
Qed.

Ltac main_live Hm := let H := fresh in destruct (main _) eqn:H; [| |by contradiction Hm].

Lemma wstep_step s s' : wstep s s' → ∃ e, wp_step s e = Next s'.
Proof.
  unfold wp_step.
  destruct 1 as [s Hm Hc|s k t b Hm Hk Hb|s k Hm Hk Hb Hcl Hw|s k w Hm Hk Hw Hc Hwg
    |s k c r Hm Hk Hr|s j q Hm Hj Hq|s j Hm Hj Hc|s j Hm Hj Hcl|s Hm Hc Hw Hcl
    |s c b Hm Hb|s Hm Hb Hcl|s Hm Hc].
  - exists Deadline. main_live Hm; by rewrite Hc.
  - exists (WorkerRecv k). main_live Hm; rewrite Hk; unfold chan_recv; by rewrite Hb.
  - exists (WorkerRecv k). main_live Hm; rewrite Hk; unfold chan_recv; rewrite Hb, Hcl;
      by apply worker_exit_next.
  - exists (WorkerCancel k). main_live Hm; rewrite Hk; destruct w; try done;
      rewrite Hc; by apply worker_exit_next.
  - exists (WorkerSend k). main_live Hm; rewrite Hk; by rewrite Hr.
  - exists MainSend. rewrite Hm. rewrite decide_True by done. by rewrite Hq.
  - exists MainSendCancel. rewrite Hm. rewrite decide_True by done. by rewrite Hc.
  - exists MainCloseJobs. rewrite Hm. rewrite decide_False by lia. unfold chan_close.
    by rewrite Hcl.
  - exists CloserClose. main_live Hm; rewrite Hc; unfold wg_wait_ready;
      rewrite bool_decide_eq_true_2 by done; unfold chan_close; by rewrite Hcl.
  - exists MainRecv. rewrite Hm. unfold chan_recv. by rewrite Hb.
  - exists MainRecv. rewrite Hm. unfold chan_recv. by rewrite Hb, Hcl.
  - exists MainCollectCancel. by rewrite Hm, Hc.
Qed.

(** ** Lemmas on the parts of the invariant *)

Lemma completed_ids_snoc ls l :
  completed_ids (ls ++ [l]) = completed_ids ls ++ match l with Completed c => [comp_task c] | _ => [] end.
Proof. unfold completed_ids. rewrite fmap_app, join_app. simpl. by rewrite app_nil_r. Qed.

Lemma comp_ok_mono W s s' c :
  (∀ x, x ∈ out s → x ∈ out s') → comp_ok W s c → comp_ok W s' c.
Proof. unfold comp_ok. naive_solver. Qed.

Lemma worker_ok_weaken W s s' k w :
  (chan_closed (jobs s) = true ∧ chan_buf (jobs s) = [] →
     chan_closed (jobs s') = true ∧ chan_buf (jobs s') = []) →
  (ctx_cancelled s = true → ctx_cancelled s' = true) →
  (∀ x, x ∈ out s → x ∈ out s') →
  worker_ok W s k w → worker_ok W s' k w.
Proof.
  intros Hj Hc Ho [H1 H2]. split; [naive_solver|].
  intros c Hw. destruct (H2 c Hw) as [? ?]. split; [done|]. by eapply comp_ok_mono.
Qed.

Lemma attributed_snoc W ls l :
  attributed W ls →
  (∀ c, l = Completed c → 1 ≤ comp_worker c ≤ W ∧ Processing (comp_worker c) (comp_task c) ∈ ls) →
  attributed W (ls ++ [l]).
Proof.
  intros Ha Hl n c Hn. apply lookup_app_Some in Hn as [Hn|[Hlen Hn]].
  - destruct (Ha n c Hn) as [Hw (m & Hm & Hlk)]. split; [done|].
    exists m. split; [done|]. by apply lookup_app_l_Some.
  - apply list_lookup_singleton_Some in Hn as [_ ->].
    destruct (Hl c eq_refl) as [Hw Hin]. split; [done|].
    apply list_elem_of_lookup in Hin as [m Hm]. exists m. split.
    + apply lookup_lt_Some in Hm. lia.
    + by apply lookup_app_l_Some.
Qed.

Lemma ids_set_worker s k w w' :
  workers s !! k = Some w →
  held w' ++ mjoin (held <$> workers s) ≡ₚ held w ++ mjoin (held <$> <[k:=w']> (workers s)).
Proof. apply mjoin_insert_perm. Qed.

(** A step that sends no task keeps the accounting when it only moves
    tasks (or drops them under cancellation). *)
Lemma wp_accounted_transfer N s s' :
  (∀ j, main s' = MSend j → main s = MSend j) →
  (closer s' ≠ CNotStarted → closer s ≠ CNotStarted) →
  ids s' ⊆+ ids s →
  (ctx_cancelled s' = false → ctx_cancelled s = false ∧ ids s' ≡ₚ ids s) →
  accounted N s → accounted N s'.
Proof.
  intros Hm Hc Hsub Hperm (n & Hn & Hj & Hcl & Hs & Hp). exists n. split_and!; try done.
  - intros j Hj'. by apply Hj, Hm.
  - intros H. by apply Hcl, Hc.
  - by etrans.
  - intros Hs'. destruct (Hperm Hs') as [Hc' ->]. by apply Hp.
Qed.

Lemma first_tasks_S n : first_tasks (S n) = first_tasks n ++ [Z.of_nat (S n)].
Proof. unfold first_tasks. by rewrite seq_S, fmap_app. Qed.

(** ** The invariant is preserved *)

Lemma worker_lt W N s k w : wp_inv W N s → workers s !! k = Some w → k < W.
Proof. intros Hinv Hk. rewrite <-(winv_len _ _ _ Hinv). by eapply lookup_lt_Some. Qed.

Lemma wp_inv_deadline W N s : wp_inv W N s → wp_inv W N (set_cancelled s).
Proof.
  intros []. constructor; simpl; try done.
  - intros _. by left.
  - intros k w Hk. eapply worker_ok_weaken; [| | |by apply winv_workers0]; done.
  - by eapply wp_accounted_transfer with (s := s).
Qed.

Lemma inv_recv W N s k t b :
  wp_inv W N s → workers s !! k = Some WSelect → chan_buf (jobs s) = t :: b →
  wp_inv W N (emit (Processing (S k) (task_id t))
                (set_worker k (WSend (MkCompletion (task_id t) (S k)))
                   (set_jobs (MkChan b (chan_cap (jobs s)) (chan_closed (jobs s))) s))).
Proof.
  intros Hinv Hk Hb. pose proof (worker_lt _ _ _ _ _ Hinv Hk) as Hlt.
  pose proof (ids_set_worker s k _ (WSend (MkCompletion (task_id t) (S k))) Hk) as Hids.
  destruct Hinv. constructor; simpl; try done.
  - by rewrite length_insert.
  - pose proof (sum_list_with_insert live _ _ _ (WSend (MkCompletion (task_id t) (S k))) Hk).
    simpl in *. lia.
  - intros k' w. rewrite list_lookup_insert_Some.
    intros [(<- & <- & _)|(_ & Hk')].
    + split; [done|]. intros c [= <-]. split; [done|]. unfold comp_ok; simpl.
      split; [lia|]. apply elem_of_app. right. by apply list_elem_of_singleton.
    + eapply worker_ok_weaken; [| | |by apply winv_workers0]; simpl; try done.
      * rewrite Hb. naive_solver.
      * intros x Hx. apply elem_of_app. by left.
  - eapply Forall_impl; [exact winv_results0|]. intros c. apply comp_ok_mono.
    intros x Hx. apply elem_of_app. by left.
  - apply attributed_snoc; [done|]. by intros c.
  - apply wp_accounted_transfer with (s := s); simpl; try done.
    + apply Permutation_submseteq. unfold ids; simpl. rewrite Hb, completed_ids_snoc, app_nil_r.
      simpl in Hids. simpl. rewrite <-Hids. by rewrite Permutation_middle.
    + intros Hc. split; [done|]. unfold ids; simpl. rewrite Hb, completed_ids_snoc, app_nil_r.
      simpl in Hids. simpl. rewrite <-Hids. by rewrite Permutation_middle.
Qed.

Lemma inv_exit W N s k w :
  wp_inv W N s → workers s !! k = Some w → w ≠ WExited →
  (chan_closed (jobs s) = true ∧ chan_buf (jobs s) = []) ∨ ctx_cancelled s = true →
  (∀ c, w = WSend c → ctx_cancelled s = true) →
  wp_inv W N (exit_worker k s).
Proof.
  intros Hinv Hk Hw Hwhy Hdrop.
  pose proof (ids_set_worker s k _ WExited Hk) as Hids. simpl in Hids.
  pose proof (sum_list_with_lookup live _ _ _ Hk) as Hl.
  destruct Hinv. constructor; unfold exit_worker; simpl; try done.
  - by rewrite length_insert.
  - intros Hc. specialize (winv_closer0 Hc). rewrite winv_wg0 in winv_closer0.
    destruct w; simpl in Hl; try done; lia.
  - pose proof (sum_list_with_insert live _ _ _ WExited Hk). destruct w; simpl in *; try done; lia.
  - intros k' w'. rewrite list_lookup_insert_Some.
    intros [(<- & <- & _)|(_ & Hk')]; [split; [done|]; by intros c|].
    by apply winv_workers0.
  - apply wp_accounted_transfer with (s := s); simpl; try done.
    + unfold ids; simpl. apply submseteq_app; [done|]. apply submseteq_app; [|done].
      apply (submseteq_app_inv_l _ _ (held w)). rewrite <-Hids.
      by apply submseteq_inserts_l.
    + intros Hc. split; [done|]. unfold ids; simpl. f_equiv. f_equiv.
      apply (Permutation_app_inv_l (held w)). rewrite <-Hids.
      destruct w as [|c|]; [done| |done]. by rewrite (Hdrop c eq_refl) in Hc.
Qed.

Lemma inv_send W N s k c r :
  wp_inv W N s → workers s !! k = Some (WSend c) → chan_send (results s) c = Next r →
  wp_inv W N (set_worker k WSelect (set_results r s)).
Proof.
  intros Hinv Hk Hr. apply chan_send_next in Hr as (Hcl & Hlen & ->).
  pose proof (ids_set_worker s k _ WSelect Hk) as Hids. simpl in Hids.
  destruct (winv_workers _ _ _ Hinv k _ Hk) as [_ Hc]. destruct (Hc c eq_refl) as [_ Hok].
  destruct Hinv. constructor; simpl; try done.
  - by rewrite length_insert.
  - by rewrite <-winv_results_closed0, Hcl.
  - pose proof (sum_list_with_insert live _ _ _ WSelect Hk). simpl in *. lia.
  - intros Hm. destruct (winv_exit0 Hm) as [?|[? ?]]; [by left|congruence].
  - intros k' w'. rewrite list_lookup_insert_Some.
    intros [(<- & <- & _)|(_ & Hk')]; [split; intros; done|]. by apply winv_workers0.
  - apply Forall_app. split; [done|]. by apply Forall_singleton.
  - apply wp_accounted_transfer with (s := s); simpl; try done.
    + apply Permutation_submseteq. unfold ids; simpl. rewrite fmap_app, Hids. simpl.
      solve_Permutation.
    + intros Hc'. split; [done|]. unfold ids; simpl. rewrite fmap_app, Hids. simpl.
      solve_Permutation.
Qed.

Lemma inv_main_recv W N s c b :
  wp_inv W N s → chan_buf (results s) = c :: b →
  wp_inv W N (emit (Completed c)
                (set_results (MkChan b (chan_cap (results s)) (chan_closed (results s))) s)).
Proof.
  intros Hinv Hb. destruct Hinv. rewrite Hb in winv_results0.
  apply Forall_cons in winv_results0 as [Hok Hrest].
  constructor; simpl; try done.
  - intros Hm. destruct (winv_exit0 Hm) as [?|[? ?]]; [by left|congruence].
  - intros k w Hk. eapply worker_ok_weaken; [| | |by apply winv_workers0]; try done.
    intros x Hx. apply elem_of_app. by left.
  - eapply Forall_impl; [exact Hrest|]. intros c'. apply comp_ok_mono.
    intros x Hx. apply elem_of_app. by left.
  - apply attributed_snoc; [done|]. by intros ? [= <-].
  - apply wp_accounted_transfer with (s := s); simpl; try done.
    + apply Permutation_submseteq. unfold ids; simpl. rewrite Hb, completed_ids_snoc.
      simpl. solve_Permutation.
    + intros Hc'. split; [done|]. unfold ids; simpl. rewrite Hb, completed_ids_snoc.
      simpl. solve_Permutation.
Qed.

Lemma inv_closer W N s :
  wp_inv W N s → closer s = CWait → wg s = 0%Z → chan_closed (results s) = false →
  wp_inv W N (set_closer CDone (set_results (mark_closed (results s)) s)).
Proof.
  intros Hinv Hcw Hwg Hcl. destruct Hinv. constructor; simpl; try done.
  - rewrite winv_jobs_closed0, Hcw. done.
  - intros j Hj. destruct (winv_send0 j Hj) as [_ Hn]. congruence.
  - intros Hm. destruct (winv_exit0 Hm) as [?|[? ?]]; [by left|congruence].
  - apply wp_accounted_transfer with (s := s); simpl; try done. intros _. by rewrite Hcw.
Qed.

Lemma wp_inv_main_end W N s :
  wp_inv W N s → chan_buf (results s) = [] → chan_closed (results s) = true →
  wp_inv W N (set_main MExited s).
Proof.
  intros Hinv Hb Hcl. destruct Hinv. constructor; simpl; try done.
  - intros _. by right.
  - by apply wp_accounted_transfer with (s := s).
Qed.

(** [main] returns on cancellation, printing [l]. *)
Lemma inv_main_cancel W N s l :
  wp_inv W N s → ctx_cancelled s = true → (∀ c, l ≠ Completed c) →
  wp_inv W N (set_main MExited (emit l s)).
Proof.
  intros Hinv Hc Hl. destruct Hinv. constructor; simpl; try done.
  - intros _. by left.
  - intros k w Hk. eapply worker_ok_weaken; [| | |by apply winv_workers0]; try done.
    intros x Hx. apply elem_of_app. by left.
  - eapply Forall_impl; [exact winv_results0|]. intros c'. apply comp_ok_mono.
    intros x Hx. apply elem_of_app. by left.
  - apply attributed_snoc; [done|]. intros c ->. by destruct (Hl c).
  - apply wp_accounted_transfer with (s := s); simpl; try done.
    + apply Permutation_submseteq. unfold ids; simpl. rewrite completed_ids_snoc.
      destruct l as [|c| |]; [|by destruct (Hl c)| |]; simpl; by rewrite app_nil_r.
    + by rewrite Hc.
Qed.

Lemma ids_main_send s m b c t :
  ids (set_main m (set_jobs (MkChan (chan_buf (jobs s) ++ [t]) c b) s)) ≡ₚ ids s ++ [task_id t].
Proof. unfold ids; simpl. rewrite fmap_app. solve_Permutation. Qed.

Lemma inv_main_send W N s j q :
  wp_inv W N s → main s = MSend j → j ≤ num_jobs s → chan_send (jobs s) (task j) = Next q →
  wp_inv W N (set_main (MSend (S j)) (set_jobs q s)).
Proof.
  intros Hinv Hm Hj Hq. apply chan_send_next in Hq as (Hcl & Hlen & ->).
  destruct Hinv. destruct (winv_send0 j Hm) as [Hr Hcns].
  constructor; simpl; try done.
  - intros j' [= <-]. split; [lia|done].
  - intros k w Hk. eapply worker_ok_weaken; [| | |by apply winv_workers0]; try done.
    intros [? ?]; congruence.
  - destruct winv_accounted0 as (n & Hn & Hjn & _ & Hs & Hp).
    specialize (Hjn j Hm). assert (j = S n) as -> by lia.
    exists (S n). rewrite ids_main_send, first_tasks_S. split_and!.
    + lia.
    + intros j' [= <-]. lia.
    + simpl. by rewrite Hcns.
    + by apply submseteq_app.
    + intros Hc. simpl. by rewrite (Hp Hc).
Qed.

Lemma inv_close_jobs W N s j :
  wp_inv W N s → main s = MSend j → num_jobs s < j → chan_closed (jobs s) = false →
  wp_inv W N (set_main MCollect (set_closer CWait (set_jobs (mark_closed (jobs s)) s))).
Proof.
  intros Hinv Hm Hj Hcl. destruct Hinv. destruct (winv_send0 j Hm) as [Hr Hcns].
  constructor; simpl; try done.
  - rewrite winv_results_closed0, Hcns. done.
  - intros k w Hk. eapply worker_ok_weaken; [| | |by apply winv_workers0]; try done.
    simpl. naive_solver.
  - destruct winv_accounted0 as (n & Hn & Hjn & _ & Hs & Hp).
    specialize (Hjn j Hm). exists n. split_and!; try done. simpl. intros _. lia.
Qed.

Lemma wstep_preserves_inv W N s s' : wp_inv W N s → wstep s s' → wp_inv W N s'.
Proof.
  intros Hinv. destruct 1.
  - by apply wp_inv_deadline.
  - by eapply inv_recv.
  - by eapply inv_exit; [..|left|].
  - by eapply inv_exit; [..|right|].
  - by eapply inv_send.
  - by eapply inv_main_send.
  - by apply inv_main_cancel.
  - by eapply inv_close_jobs.
  - by apply inv_closer.
  - by eapply inv_main_recv.
  - by apply wp_inv_main_end.
  - by apply inv_main_cancel.
Qed.

Lemma ids_init W N : ids (init W N) = [].
Proof.
  unfold ids, init. cbn [chan_buf jobs results workers out make_chan].
  rewrite mjoin_fmap_nil; [done|]. intros k x Hk. by apply lookup_replicate in Hk as [-> _].
Qed.

Lemma wp_inv_init W N : wp_inv W N (init W N).
Proof.
  constructor; simpl; try done.
  - by rewrite length_replicate.
  - rewrite sum_list_with_replicate. simpl. lia.
  - intros j [= <-]. split; [lia|done].
  - intros k w Hk. apply lookup_replicate in Hk as [-> _]. split; by intros.
  - exists 0. rewrite ids_init. split_and!; try done; [lia|]. by intros j [= <-].
Qed.

Lemma wp_step_preserves_inv W N s e s' : wp_inv W N s → wp_step s e = Next s' → wp_inv W N s'.
Proof. intros Hinv Hs. eapply wstep_preserves_inv; [done|]. by eapply step_wstep. Qed.

Lemma wp_reachable_inv W N s : reachable W N s → wp_inv W N s.
Proof.
  intros Hr. eapply (rtc_invariant wp_step (wp_inv W N)); [|apply wp_inv_init|done].
  intros. by eapply wp_step_preserves_inv.
Qed.

(** ** Termination *)

Lemma measure_set_worker s k w w' :
  workers s !! k = Some w →
  sum_list_with worker_weight (<[k:=w']> (workers s)) + worker_weight w =
  sum_list_with worker_weight (workers s) + worker_weight w'.
Proof. apply sum_list_with_insert. Qed.

Lemma wstep_measure s s' : wstep s s' → measure s' < measure s.
Proof.
  unfold measure. destruct 1 as [s Hm Hc|s k t b Hm Hk Hb|s k Hm Hk Hb Hcl Hw|s k w Hm Hk Hw Hc Hwg
    |s k c r Hm Hk Hr|s j q Hm Hj Hq|s j Hm Hj Hc|s j Hm Hj Hcl|s Hm Hc Hw Hcl
    |s c b Hm Hb|s Hm Hb Hcl|s Hm Hc]; unfold exit_worker; simpl.
  - rewrite Hc. lia.
  - pose proof (measure_set_worker s k _ (WSend (MkCompletion (task_id t) (S k))) Hk).
    rewrite Hb. simpl in *. lia.
  - pose proof (measure_set_worker s k _ WExited Hk). simpl in *. lia.
  - pose proof (measure_set_worker s k _ WExited Hk). destruct w; simpl in *; [lia|lia|done].
  - pose proof (measure_set_worker s k _ WSelect Hk). apply chan_send_next in Hr as (_ & _ & ->).
    simpl in *. rewrite length_app. simpl. lia.
  - rewrite Hm. apply chan_send_next in Hq as (_ & _ & ->). simpl. rewrite length_app. simpl. lia.
  - rewrite Hm. lia.
  - rewrite Hm. replace (S (num_jobs s) - j) with 0 by lia. destruct (closer s); lia.
  - rewrite Hc. lia.
  - rewrite Hm, Hb. simpl. lia.
  - rewrite Hm. lia.
  - rewrite Hm. lia.
Qed.

Lemma wp_step_measure s e s' : wp_step s e = Next s' → measure s' < measure s.
Proof. intros Hs. apply wstep_measure. by eapply step_wstep. Qed.

Lemma wp_measure_init W N : measure (init W N) = 5 * N + W + 5.
Proof.
  unfold measure, init. cbn [ctx_cancelled main num_jobs closer jobs results workers chan_buf make_chan].
  rewrite sum_list_with_replicate. simpl. lia.
Qed.

(** ** Buffer bounds and progress *)

Lemma ids_length W N s :
  wp_inv W N s → length (ids s) ≤ N ∧ ∀ j, main s = MSend j → length (ids s) ≤ j - 1.
Proof.
  intros Hinv. destruct (winv_accounted _ _ _ Hinv) as (n & Hn & Hj & _ & Hs & _).
  apply submseteq_length in Hs. unfold first_tasks in Hs. rewrite length_fmap, length_seq in Hs.
  split; [lia|]. intros j Hm. rewrite <-(Hj j Hm). done.
Qed.

Lemma ids_length_parts s :
  length (ids s) = length (chan_buf (jobs s)) + length (mjoin (held <$> workers s)) +
    length (chan_buf (results s)) + length (completed_ids (out s)).
Proof. unfold ids. rewrite !length_app, !length_fmap. lia. Qed.

Lemma held_length s k c :
  workers s !! k = Some (WSend c) → 1 ≤ length (mjoin (held <$> workers s)).
Proof.
  intros Hk. pose proof (Permutation_length (ids_set_worker s k _ WSelect Hk)) as Hl.
  simpl in Hl. lia.
Qed.

Lemma live_pos s k w : workers s !! k = Some w → w ≠ WExited → 1 ≤ sum_list_with live (workers s).
Proof. intros Hk Hw. pose proof (sum_list_with_lookup live _ _ _ Hk). destruct w; simpl in *; [lia|lia|done]. Qed.

Lemma jobs_open W N s : wp_inv W N s → closer s = CNotStarted → chan_closed (jobs s) = false.
Proof. intros Hinv Hc. apply not_true_iff_false. rewrite (winv_jobs_closed _ _ _ Hinv). tauto. Qed.

Lemma results_open W N s : wp_inv W N s → closer s ≠ CDone → chan_closed (results s) = false.
Proof. intros Hinv Hc. apply not_true_iff_false. by rewrite (winv_results_closed _ _ _ Hinv). Qed.

(** [main]'s send on [jobs] finds room: fewer than [j] tasks are in the
    system when task [j] is sent. *)
Lemma main_send_ready W N s j :
  wp_inv W N s → main s = MSend j → j ≤ N → ∃ q, chan_send (jobs s) (task j) = Next q.
Proof.
  intros Hinv Hm Hj. destruct (ids_length _ _ _ Hinv) as [_ Hl]. specialize (Hl j Hm).
  rewrite ids_length_parts in Hl. destruct (winv_send _ _ _ Hinv j Hm) as [Hr Hcns].
  eexists. apply chan_send_next. split_and!; [by eapply jobs_open| |done].
  rewrite (winv_jobs_cap _ _ _ Hinv). lia.
Qed.

(** A worker's send on [results] finds room and an open channel. *)
Lemma worker_send_ready W N s k c :
  wp_inv W N s → workers s !! k = Some (WSend c) → ∃ r, chan_send (results s) c = Next r.
Proof.
  intros Hinv Hk. destruct (ids_length _ _ _ Hinv) as [Hl _]. rewrite ids_length_parts in Hl.
  pose proof (held_length _ _ _ Hk). pose proof (live_pos _ _ _ Hk ltac:(done)).
  eexists. apply chan_send_next. split_and!; [| |done].
  - eapply results_open; [done|]. intros Hcl. apply (winv_closer _ _ _ Hinv) in Hcl.
    rewrite (winv_wg _ _ _ Hinv) in Hcl. lia.
  - rewrite (winv_results_cap _ _ _ Hinv). lia.
Qed.

Lemma wp_progress W N s :
  wp_inv W N s → main s ≠ MExited → ∃ s', wstep s s' ∧ ctx_cancelled s' = ctx_cancelled s.
Proof.
  intros Hinv Hm. pose proof Hinv as [].
  destruct (main s) as [j| |] eqn:Hmain; [| |done].
  - destruct (winv_send0 j eq_refl) as [_ Hcns]. destruct (decide (j ≤ num_jobs s)).
    + destruct (main_send_ready W N s j) as [q Hq]; [done..|lia|].
      eexists; split; [by eapply ws_main_send|done].
    + eexists; split; [eapply ws_close_jobs; [done|lia|]; by eapply jobs_open|done].
  - destruct (chan_buf (results s)) as [|c b] eqn:Hb; [|eexists; split; [by eapply ws_main_recv|done]].
    destruct (ctx_cancelled s) eqn:Hc; [eexists; split; [by apply ws_collect_cancel|done]|].
    destruct (closer s) eqn:Hcw.
    { by specialize (winv_collect0 eq_refl). }
    2: { eexists; split; [apply ws_main_end; try done; by apply winv_results_closed0|done]. }
    destruct (decide (wg s = 0%Z)) as [Hw|Hw].
    { eexists; split; [apply ws_closer; [by rewrite Hmain|done..|]; eapply results_open; [done|];
        by rewrite Hcw|done]. }
    destruct (sum_list_with_pos live (workers s)) as (k & w & Hk & Hlive); [lia|].
    destruct w as [|c|]; [|by destruct (worker_send_ready W N s k c) as [r Hr];
                               [..|eexists; split; [eapply ws_send; rewrite ?Hmain|]]|done].
    assert (Hjc : chan_closed (jobs s) = true) by (by apply winv_jobs_closed0).
    destruct (chan_buf (jobs s)) as [|t b'] eqn:Hjb.
    + eexists; split; [eapply ws_recv_closed; rewrite ?Hmain; try done; lia|done].
    + eexists; split; [eapply ws_recv; by rewrite ?Hmain|done].
Qed.

(** Progress without the deadline: while the context is live some
    goroutine moves by its own work (never through a [ctx.Done()] case,
    which is not ready), until [main] returns. *)
Lemma wp_progress_live W N s :
  wp_inv W N s → ctx_cancelled s = false →
  main s = MExited ∨ ∃ e s', e ≠ Deadline ∧ wp_step s e = Next s'.
Proof.
  intros Hinv Hc. destruct (decide (main s = MExited)) as [|Hne]; [by left|right].
  destruct (wp_progress W N s Hinv Hne) as (s' & Hs' & Hc'). destruct (wstep_step _ _ Hs') as [e He].
  exists e, s'. split; [|done]. intros ->. unfold wp_step in He.
  destruct (main s); [..|done]; rewrite Hc in He; injection He as <-; simpl in Hc'; congruence.
Qed.

Lemma wp_step_ctx s e s' : e ≠ Deadline → wp_step s e = Next s' → ctx_cancelled s' = ctx_cancelled s.
Proof.
  intros He Hs. unfold wp_step, worker_exit in Hs.
  destruct (main s); [..|done]; destruct e; try done; outcome_cases Hs; done.
Qed.

(** ** Absence of panics *)

Lemma worker_exit_no_panic W N s k w r :
  wp_inv W N s → workers s !! k = Some w → w ≠ WExited → worker_exit k s ≠ Panicked r.
Proof.
  intros Hinv Hk Hw. unfold worker_exit. rewrite outcome_bind_panic. intros [Hp|(? & ? & ?)]; [|done].
  apply wg_done_panic in Hp as [Hp _]. pose proof (live_pos _ _ _ Hk Hw).
  rewrite (winv_wg _ _ _ Hinv) in Hp. lia.
Qed.

Lemma inv_no_panic W N s e r : wp_inv W N s → wp_step s e ≠ Panicked r.
Proof.
  intros Hinv Hs. unfold wp_step in Hs. destruct (main s) as [j| |] eqn:Hm; [| |done].
  all: destruct e as [|k|k|k| | | | | |]; unfold mbind, outcome_bind in Hs; simpl in Hs;
    repeat (case_match; simplify_eq/=); try discriminate.
  all: try (match goal with
    | H : worker_exit ?k ?s = Panicked _, Hk : workers ?s !! ?k = Some ?w |- _ =>
        by eapply (worker_exit_no_panic W N s k w)
    | H : chan_recv _ = Panicked _ |- _ => by eapply chan_recv_no_panic
    | H : chan_send (results ?s) ?c = Panicked _, Hk : workers ?s !! ?k = Some (WSend ?c) |- _ =>
        destruct (worker_send_ready W N s k c) as [? ?]; [done..|congruence]
    | H : chan_send (jobs ?s) (task ?j) = Panicked _ |- _ =>
        destruct (main_send_ready W N s j) as [? ?]; [done|done|by rewrite <-(winv_num _ _ _ Hinv)|congruence]
    | H : chan_close (jobs ?s) = Panicked _ |- _ =>
        apply chan_close_panic in H; destruct (winv_send _ _ _ Hinv _ Hm) as [_ ?];
        by erewrite jobs_open in H
    | H : chan_close (results ?s) = Panicked _, Hc : closer ?s = CWait |- _ =>
        apply chan_close_panic in H; rewrite (results_open W N s Hinv) in H; [done|by rewrite Hc]
    end).
Qed.

(** ** The worker pool satisfies the interface of program models *)

#[export] Instance pool_laws W N :
  ProgramLaws wp_step (wp_inv W N) (λ s, main s = MExited) measure.
Proof.
  split.
  - intros s e s'. apply wp_step_preserves_inv.
  - intros s e s' _. apply wp_step_measure.
  - intros s e r Hinv. by apply (inv_no_panic W N).
  - intros s Hinv. destruct (decide (main s = MExited)) as [|Hne]; [by left|right].
    destruct (wp_progress W N s Hinv Hne) as (s' & Hs' & _). destruct (wstep_step _ _ Hs') as [e He].
    by exists e, s'.
Qed.

(** ** Shutdown facts *)

Lemma all_exited W N s :
  wp_inv W N s → wg s = 0%Z → ∀ k w, workers s !! k = Some w → w = WExited.
Proof.
  intros Hinv Hw k w Hk. destruct (decide (w = WExited)) as [|Hne]; [done|].
  pose proof (live_pos _ _ _ Hk Hne). rewrite (winv_wg _ _ _ Hinv) in Hw. lia.
Qed.

Lemma held_exited s :
  (∀ k w, workers s !! k = Some w → w = WExited) → mjoin (held <$> workers s) = [].
Proof. intros Hall. apply mjoin_fmap_nil. intros k w Hk. by rewrite (Hall k w Hk). Qed.

Lemma after_run s es s' : run wp_step s es = Next s' → after s es = s'.
Proof. unfold after. by intros ->. Qed.

Lemma reachable_after es s' : run wp_step main_state es = Next s' → reachable 3 5 s'.
Proof. apply run_rtc. Qed.

Lemma first_tasks_mono n N : n ≤ N → first_tasks n ⊆+ first_tasks N.
Proof.
  induction N as [|N IH]; intros Hn; [by replace n with 0 by lia|].
  destruct (decide (n = S N)) as [->|]; [done|].
  etrans; [apply IH; lia|]. rewrite first_tasks_S. by apply submseteq_inserts_r.
Qed.

Lemma completed_ids_sub s : completed_ids (out s) ⊆+ ids s.
Proof. unfold ids. by do 3 apply submseteq_inserts_l. Qed.

(** ** Properties of the worker pool *)

(** C18 (no loss, no duplication). In a pool of at least one worker, when
    [main] returns without the deadline having fired, it has printed the
    completion of every task [1..numJobs] exactly once. *)
Theorem pool_no_loss W N s :
  reachable W N s → 0 < W → main s = MExited → ctx_cancelled s = false →
  completed_ids (out s) ≡ₚ first_tasks N.
Proof.
  intros Hr HW Hm Hc. pose proof (wp_reachable_inv _ _ _ Hr) as Hinv.
  destruct (winv_exit _ _ _ Hinv Hm) as [Hc'|[Hcl Hb]]; [congruence|].
  apply (winv_results_closed _ _ _ Hinv) in Hcl as Hdone.
  pose proof (all_exited _ _ _ Hinv (winv_closer _ _ _ Hinv Hdone)) as Hall.
  destruct (lookup_lt_is_Some_2 (workers s) 0) as [w0 Hw0]; [by rewrite (winv_len _ _ _ Hinv)|].
  pose proof (Hall _ _ Hw0) as ->.
  destruct (winv_workers _ _ _ Hinv _ _ Hw0) as [Hex _].
  destruct (Hex eq_refl) as [[_ Hjb]|?]; [|congruence].
  destruct (winv_accounted _ _ _ Hinv) as (n & _ & _ & Hn & _ & Hp).
  rewrite <-(Hn ltac:(by rewrite Hdone)), <-(Hp Hc). unfold ids.
  by rewrite Hjb, Hb, held_exited.
Qed.

Lemma pool_no_loss_witness :
  completed_ids (out (after main_state done_schedule)) ≡ₚ first_tasks 5.
Proof.
  apply (pool_no_loss 3 5); [apply (reachable_after done_schedule); vm_compute; reflexivity|lia|
    vm_compute; reflexivity..].
Defined.

(** C19 (at most once, cancellation included). In every reachable state
    the completions [main] has printed name distinct tasks among
    [1..numJobs]: data in flight may be dropped, never duplicated. *)
Theorem pool_at_most_once W N s : reachable W N s → completed_ids (out s) ⊆+ first_tasks N.
Proof.
  intros Hr. pose proof (wp_reachable_inv _ _ _ Hr) as Hinv.
  destruct (winv_accounted _ _ _ Hinv) as (n & Hn & _ & _ & Hs & _).
  etrans; [|by apply first_tasks_mono]. etrans; [|exact Hs]. apply completed_ids_sub.
Qed.

Lemma pool_at_most_once_witness :
  completed_ids (out (after main_state (take 12 done_schedule))) ⊆+ first_tasks 5.
Proof.
  apply (pool_at_most_once 3 5). apply (reachable_after (take 12 done_schedule)).
  vm_compute; reflexivity.
Defined.

(** C20 (attribution). Every completion [main] prints names a worker of
    the pool ([1 <= id <= numWorkers]) and comes after that worker's
    "processing" line for the same task. *)
Theorem pool_attributed W N s n c :
  reachable W N s → out s !! n = Some (Completed c) →
  1 ≤ comp_worker c ≤ W ∧ ∃ m, m < n ∧ out s !! m = Some (Processing (comp_worker c) (comp_task c)).
Proof. intros Hr. apply (winv_attributed _ _ _ (wp_reachable_inv _ _ _ Hr)). Qed.

Lemma pool_attributed_witness :
  1 ≤ 1 ≤ 3 ∧ ∃ m, m < 5 ∧ out (after main_state done_schedule) !! m = Some (Processing 1 1).
Proof.
  apply (pool_attributed 3 5 _ 5 (MkCompletion 1 1));
    [apply (reachable_after done_schedule)|]; vm_compute; reflexivity.
Defined.

(** C21 (no panic). No reachable state of the pool can panic: no send on
    or close of a closed channel, no negative WaitGroup counter. *)
Theorem pool_no_panic W N s : reachable W N s → panic_free wp_step s.
Proof. intros Hr. apply (laws_panic_free (inv := wp_inv W N)), wp_reachable_inv, Hr. Qed.

Lemma pool_no_panic_witness : panic_free wp_step (after main_state (take 7 done_schedule)).
Proof.
  apply (pool_no_panic 3 5). apply (reachable_after (take 7 done_schedule)).
  vm_compute; reflexivity.
Defined.

(** Deadlock freedom. A reachable state in which no goroutine can
    move is one in which [main] has returned. *)
Theorem pool_deadlock_free W N s : reachable W N s → stuck wp_step s → main s = MExited.
Proof. intros Hr. apply (laws_stuck_exited (inv := wp_inv W N) (exited := λ s, main s = MExited)), wp_reachable_inv, Hr. Qed.

Lemma pool_deadlock_free_witness : main (after main_state done_schedule) = MExited.
Proof.
  apply (pool_deadlock_free 3 5); [apply (reachable_after done_schedule); vm_compute; reflexivity|].
  intros e s'. vm_compute. discriminate.
Defined.

(** C22 (main returns without the deadline). From every reachable
    state in which the deadline has not fired, a run that never fires
    it reaches [main]'s return: the workers drain [jobs], the closer
    closes [results] after [wg.Wait()], and [main]'s collect loop sees
    [results] closed. No [ctx.Done()] case is taken on the way, as none
    is ready while the context is live. *)
Theorem pool_main_returns W N s :
  reachable W N s → ctx_cancelled s = false →
  ∃ es s', run wp_step s es = Next s' ∧ Forall (λ e, e ≠ Deadline) es ∧
    main s' = MExited ∧ ctx_cancelled s' = false.
Proof.
  intros Hr Hc.
  destruct (laws_exits_avoiding (inv := wp_inv W N) (exited := λ s, main s = MExited)
    (λ e, e ≠ Deadline) (λ s, ctx_cancelled s = false)) with (s := s) as (es & s' & Hrun & Hall & Hex & Hc').
  - intros s1 e s2 Hc1 He Hs. by rewrite (wp_step_ctx s1 e s2 He Hs).
  - intros s1 Hinv Hc1. destruct (wp_progress_live W N s1 Hinv Hc1) as [|]; [by left|by right].
  - by apply wp_reachable_inv.
  - done.
  - by exists es, s'.
Qed.

Lemma pool_main_returns_witness :
  ∃ es s', run wp_step main_state es = Next s' ∧ Forall (λ e, e ≠ Deadline) es ∧
    main s' = MExited ∧ ctx_cancelled s' = false.
Proof. apply (pool_main_returns 3 5); [apply (reachable_after [])|]; reflexivity. Defined.

(** Termination. Every run of the pool is finite: the converse of
    the step relation is well founded. *)
Theorem pool_terminates s : Acc (flip (can_step wp_step)) s.
Proof. apply (measure_terminates wp_step measure wp_step_measure). Qed.

(** C23 (bound on the run length). A run from the start has at most
    [5 * numJobs + numWorkers + 5] steps. *)
Theorem pool_run_bound W N es s : run wp_step (init W N) es = Next s → length es ≤ 5 * N + W + 5.
Proof.
  intros Hrun. pose proof (measure_bounds_runs wp_step measure wp_step_measure _ _ _ Hrun).
  rewrite wp_measure_init in *. lia.
Qed.

Lemma pool_run_bound_witness : length done_schedule ≤ 5 * 5 + 3 + 5.
Proof.
  apply (pool_run_bound 3 5 done_schedule (after main_state done_schedule)).
  vm_compute; reflexivity.
Defined.

(** C24 (results buffer). A worker's send on [results] never blocks and
    never panics: the buffer of [numJobs] has room and the channel is open
    while a worker holds a completion. *)
Theorem pool_worker_send_ready W N s k c :
  reachable W N s → workers s !! k = Some (WSend c) → ∃ r, chan_send (results s) c = Next r.
Proof. intros Hr. apply (worker_send_ready W N), wp_reachable_inv, Hr. Qed.

Lemma pool_worker_send_ready_witness :
  ∃ r, chan_send (results (after main_state (take 7 done_schedule))) (MkCompletion 1 1) = Next r.
Proof.
  apply (pool_worker_send_ready 3 5 _ 0);
    [apply (reachable_after (take 7 done_schedule))|]; vm_compute; reflexivity.
Defined.

(** Jobs buffer. [main]'s send of task [j] on [jobs] never blocks
    and never panics: fewer than [j] tasks are ever in the system. *)
Theorem pool_main_send_ready W N s j :
  reachable W N s → main s = MSend j → j ≤ num_jobs s → ∃ q, chan_send (jobs s) (task j) = Next q.
Proof.
  intros Hr Hm Hj. pose proof (wp_reachable_inv _ _ _ Hr) as Hinv.
  apply (main_send_ready W N); [done..|]. by rewrite <-(winv_num _ _ _ Hinv).
Qed.

Lemma pool_main_send_ready_witness :
  ∃ q, chan_send (jobs (after main_state (take 4 done_schedule))) (task 5) = Next q.
Proof.
  apply (pool_main_send_ready 3 5);
    [apply (reachable_after (take 4 done_schedule))|..]; vm_compute; [reflexivity|reflexivity|lia].
Defined.

(** C25 (ordered shutdown). [results] is closed only after every worker
    has returned. *)
Theorem pool_results_closed_after_workers W N s :
  reachable W N s → chan_closed (results s) = true → Forall (λ w, w = WExited) (workers s).
Proof.
  intros Hr Hcl. pose proof (wp_reachable_inv _ _ _ Hr) as Hinv. apply Forall_lookup. intros k w.
  apply (all_exited W N s Hinv), (winv_closer _ _ _ Hinv), (winv_results_closed _ _ _ Hinv), Hcl.
Qed.

Lemma pool_results_closed_after_workers_witness :
  Forall (λ w, w = WExited) (workers (after main_state (take 20 done_schedule))).
Proof.
  apply (pool_results_closed_after_workers 3 5);
    [apply (reachable_after (take 20 done_schedule))|]; vm_compute; reflexivity.
Defined.

(** Step relation. The step function and the inductive relation
    [wstep] have the same transitions. *)
Theorem pool_step_iff s s' : can_step wp_step s s' ↔ wstep s s'.
Proof.
  split; [intros [e He]; by eapply step_wstep|]. intros Hs. by apply wstep_step.
Qed.

End WorkerPool.
