(* ===== verification/Generator.v ===== *)
(** [src/generator/main.go]: two generators read by [main].

    - [Generator(n)] (lines 10-20) starts a goroutine that sends
      [0 .. n-1] on an unbuffered channel and closes it ([gen_pc]).
    - [GeneratorWithStop(ctx)] (lines 23-37) starts a goroutine that
      sends [0, 1, 2, ...] until the context is cancelled, then closes
      its channel ([stop_pc]).
    - [main] (lines 39-58) ranges over [Generator(5)], printing each
      value, then reads five values from [GeneratorWithStop(ctx)] with a
      plain receive [<-numbersWithStop] ([main_pc]).
    - [step] is the executable semantics; the deadline of the one-second
      context is an event that can fire at any moment. The invariant
      [inv] gives the exact output of every run: the five values of the
      first generator, then a prefix of [0 .. 4] padded with the zero
      values a receive from the closed channel returns. *)

From S2P Require Import Prelude Runtime.

Set Warnings "-clear-no-such-hyp".

Module Generator.

(** ** Data *)

(** The goroutine of [Generator(n)]: at the loop test with counter [i],
    or returned (its deferred [close(ch)] done). *)
Inductive gen_pc := GLoop (i : Z) | GExited.

(** The goroutine of [GeneratorWithStop]: not started yet, at its
    [select] with counter [i], or returned. *)
Inductive stop_pc := SNotStarted | SSelect (i : Z) | SExited.

(** [main]: ranging over the first generator, at the [k]-th read of the
    second one, or returned. *)
Inductive main_pc := MRange | MRead (k : nat) | MReturned.

(** The lines printed. *)
Inductive line :=
  | SimpleBanner          (* line 44 *)
  | StopBanner            (* line 51 *)
  | Received (v : Z).     (* lines 47 and 56 *)

#[export] Instance gen_pc_eq_dec : EqDecision gen_pc.
Proof. solve_decision. Defined.
#[export] Instance stop_pc_eq_dec : EqDecision stop_pc.
Proof. solve_decision. Defined.
#[export] Instance main_pc_eq_dec : EqDecision main_pc.
Proof. solve_decision. Defined.
#[export] Instance line_eq_dec : EqDecision line.
Proof. solve_decision. Defined.

Record state := MkState {
  gen_n : Z;                (* the argument of Generator *)
  ctx_cancelled : bool;
  ch1 : chan Z;             (* Generator's channel *)
  gen : gen_pc;
  ch2 : chan Z;             (* GeneratorWithStop's channel *)
  stop : stop_pc;
  main : main_pc;
  out : list line;
}.

Inductive event :=
  | Deadline
  | GenSend           (* Generator's ch <- i, received by main's range *)
  | GenClose          (* Generator's loop ends: deferred close(ch) *)
  | MainRangeEnd      (* main's range sees ch closed *)
  | StopSend          (* GeneratorWithStop's ch <- i case, received by main *)
  | StopCancel        (* GeneratorWithStop's ctx.Done() case *)
  | MainReadClosed.   (* main's <-numbersWithStop on the closed channel *)

(** ** State updates *)

Definition set_cancelled (s : state) : state :=
  MkState (gen_n s) true (ch1 s) (gen s) (ch2 s) (stop s) (main s) (out s).
Definition set_gen (g : gen_pc) (c : chan Z) (s : state) : state :=
  MkState (gen_n s) (ctx_cancelled s) c g (ch2 s) (stop s) (main s) (out s).
Definition set_stop (g : stop_pc) (c : chan Z) (s : state) : state :=
  MkState (gen_n s) (ctx_cancelled s) (ch1 s) (gen s) c g (main s) (out s).
Definition set_main (m : main_pc) (s : state) : state :=
  MkState (gen_n s) (ctx_cancelled s) (ch1 s) (gen s) (ch2 s) (stop s) m (out s).
Definition emit (l : line) (s : state) : state :=
  MkState (gen_n s) (ctx_cancelled s) (ch1 s) (gen s) (ch2 s) (stop s) (main s) (out s ++ [l]).

(** [main]'s loop of lines 55-57 after its [k]-th read: [i++; i < 5]. *)
Definition next_read (k : nat) : main_pc := if decide (S k < 5) then MRead (S k) else MReturned.

(** ** The step function *)

Definition step (s : state) (e : event) : outcome state :=
  match main s with
  | MReturned => Blocked
  | _ =>
    match e with
    | Deadline => if ctx_cancelled s then Blocked else Next (set_cancelled s)
    | GenSend =>
        match gen s, main s with
        | GLoop i, MRange =>
            if decide (i < gen_n s)%Z then
              _ ← chan_handoff (ch1 s);
              Next (emit (Received i) (set_gen (GLoop (wrap_int (i + 1))) (ch1 s) s))
            else Blocked
        | _, _ => Blocked
        end
    | GenClose =>
        match gen s with
        | GLoop i =>
            if decide (i < gen_n s)%Z then Blocked
            else c ← chan_close (ch1 s); Next (set_gen GExited c s)
        | GExited => Blocked
        end
    | MainRangeEnd =>
        match main s with
        | MRange =>
            r ← chan_recv (ch1 s);
            match r with
            | (None, _) =>
                (* lines 51-52: print, start GeneratorWithStop(ctx) *)
                Next (set_main (MRead 0) (set_stop (SSelect 0) (make_chan 0) (emit StopBanner s)))
            | _ => Blocked
            end
        | _ => Blocked
        end
    | StopSend =>
        match stop s, main s with
        | SSelect i, MRead k =>
            _ ← chan_handoff (ch2 s);
            Next (set_main (next_read k) (emit (Received i)
                    (set_stop (SSelect (wrap_int (i + 1))) (ch2 s) s)))
        | _, _ => Blocked
        end
    | StopCancel =>
        match stop s with
        | SSelect _ =>
            if ctx_cancelled s then c ← chan_close (ch2 s); Next (set_stop SExited c s)
            else Blocked
        | _ => Blocked
        end
    | MainReadClosed =>
        match main s with
        | MRead k =>
            r ← chan_recv (ch2 s);
            match r with
            | (None, _) => Next (set_main (next_read k) (emit (Received 0) s))
            | _ => Blocked
            end
        | _ => Blocked
        end
    end
  end.

(** [main] at its [range] loop (lines 40-45): the context is created,
    the banner printed, [Generator(n)] started. *)
Definition init (n : Z) : state :=
  MkState n false (make_chan 0) (GLoop 0) (make_chan 0) SNotStarted MRange [SimpleBanner].

Definition main_state : state := init 5.

Definition after (es : list event) : state :=
  match run step main_state es with Next s => s | _ => main_state end.

(** No deadline: both loops run to the end. *)
Definition full_schedule : list event :=
  [GenSend; GenSend; GenSend; GenSend; GenSend; GenClose; MainRangeEnd;
   StopSend; StopSend; StopSend; StopSend; StopSend].

(** The deadline fires after two values of the second generator. *)
Definition cancel_schedule : list event :=
  [GenSend; GenSend; GenSend; GenSend; GenSend; GenClose; MainRangeEnd;
   StopSend; StopSend; Deadline; StopCancel; MainReadClosed; MainReadClosed; MainReadClosed].

(** ** Invariant *)

Definition reachable (n : Z) (s : state) : Prop := init n ~[ step ]~>* s.

Definition received (vs : list Z) : list line := Received <$> vs.

(** The values [0 .. j-1]. *)
Definition upto (j : nat) : list Z := Z.of_nat <$> seq 0 j.

(** What the first generator sends: [0 .. n-1]. *)
Definition gen_values (n : Z) : list Z := upto (Z.to_nat n).

(** What [main] prints in the second phase after [k] reads when the
    second generator sent [j] values. *)
Definition stop_values (j k : nat) : list Z := upto j ++ replicate (k - j) 0%Z.

Definition phase2 (s : state) (k : nat) : Prop :=
  gen s = GExited ∧ chan_closed (ch1 s) = true ∧
  ∃ j, j ≤ k ∧
    out s = [SimpleBanner] ++ received (gen_values (gen_n s)) ++ [StopBanner] ++
            received (stop_values j k) ∧
    match stop s with
    | SSelect i => i = Z.of_nat j ∧ j = k ∧ chan_closed (ch2 s) = false
    | SExited => chan_closed (ch2 s) = true ∧ ctx_cancelled s = true
    | SNotStarted => False
    end.

(** [main] ranging over the first generator, which has sent [0 .. i-1]. *)
Definition phase1 (s : state) : Prop :=
  stop s = SNotStarted ∧
  match gen s with
  | GLoop i => (0 ≤ i)%Z ∧ (i ≤ Z.max 0 (gen_n s))%Z ∧ chan_closed (ch1 s) = false ∧
      out s = [SimpleBanner] ++ received (upto (Z.to_nat i))
  | GExited => chan_closed (ch1 s) = true ∧
      out s = [SimpleBanner] ++ received (gen_values (gen_n s))
  end.

Definition main_ok (s : state) (m : main_pc) : Prop :=
  match m with
  | MRange => phase1 s
  | MRead k => k < 5 ∧ phase2 s k
  | MReturned => phase2 s 5
  end.

(** [n] is a Go [int]; the unbuffered channels never hold a value. *)
Definition inv (s : state) : Prop :=
  (gen_n s < 2^63)%Z ∧ chan_buf (ch1 s) = [] ∧ chan_buf (ch2 s) = [] ∧ main_ok s (main s).

(** ** Termination measure *)

Definition gen_weight (n : Z) (g : gen_pc) : nat :=
  match g with GLoop i => 2 * Z.to_nat (n - i) + 1 | GExited => 0 end.

Definition main_weight (m : main_pc) : nat :=
  match m with MRange => 7 | MRead k => 5 - k | MReturned => 0 end.

Definition measure (s : state) : nat :=
  (if ctx_cancelled s then 0 else 1) + gen_weight (gen_n s) (gen s) +
  match stop s with SExited => 0 | _ => 1 end + main_weight (main s).

(** ** Lemmas on the printed values *)

Lemma upto_S j : upto (S j) = upto j ++ [Z.of_nat j].
Proof. unfold upto. by rewrite seq_S, fmap_app. Qed.

Lemma received_app vs ws : received (vs ++ ws) = received vs ++ received ws.
Proof. apply fmap_app. Qed.

Lemma stop_values_sent j : stop_values (S j) (S j) = stop_values j j ++ [Z.of_nat j].
Proof. unfold stop_values. rewrite !Nat.sub_diag, upto_S. simpl. by rewrite !app_nil_r. Qed.

Lemma stop_values_zero j k : j ≤ k → stop_values j (S k) = stop_values j k ++ [0%Z].
Proof.
  intros Hjk. unfold stop_values. replace (S k - j) with (S (k - j)) by lia.
  by rewrite replicate_S_end, app_assoc.
Qed.

(** After the [k]-th read, [main] goes on reading or returns. *)
Lemma next_read_ok s k : S k ≤ 5 → phase2 s (S k) → main_ok s (next_read k).
Proof.
  intros Hk Hp. unfold next_read. case_decide; simpl; [done|].
  by replace 5 with (S k) by lia.
Qed.

Lemma next_read_weight k : k < 5 → main_weight (next_read k) < 5 - k.
Proof. intros Hk. unfold next_read. case_decide; simpl; lia. Qed.

Lemma gen_values_end n i :
  (0 ≤ i)%Z → (i ≤ Z.max 0 n)%Z → ¬ (i < n)%Z → upto (Z.to_nat i) = gen_values n.
Proof. intros ???. unfold gen_values. f_equal. lia. Qed.

(** ** The invariant is preserved *)

Lemma phase1_send s i :
  (gen_n s < 2^63)%Z → phase1 s → gen s = GLoop i → (i < gen_n s)%Z →
  phase1 (emit (Received i) (set_gen (GLoop (wrap_int (i + 1))) (ch1 s) s)).
Proof.
  intros Hn (Hst & Hg) Hgi Hi. rewrite Hgi in Hg. destruct Hg as (H0 & Hle & Hcl & Ho).
  rewrite wrap_int_small by lia. split; [done|]. simpl. split_and!; [lia|lia|done|].
  rewrite Ho, Z2Nat.inj_add, Nat.add_1_r, upto_S, received_app, Z2Nat.id by lia.
  by rewrite <-app_assoc.
Qed.

Lemma phase1_close s i :
  phase1 s → gen s = GLoop i → ¬ (i < gen_n s)%Z →
  phase1 (set_gen GExited (mark_closed (ch1 s)) s).
Proof.
  intros (Hst & Hg) Hgi Hi. rewrite Hgi in Hg. destruct Hg as (H0 & Hle & Hcl & Ho).
  split; [done|]. simpl. split; [done|]. by rewrite Ho, (gen_values_end (gen_n s) i).
Qed.

Lemma phase1_range_end s :
  phase1 s → chan_closed (ch1 s) = true →
  phase2 (set_main (MRead 0) (set_stop (SSelect 0) (make_chan 0) (emit StopBanner s))) 0.
Proof.
  intros (Hst & Hg) Hcl. destruct (gen s) eqn:Hgen; [destruct Hg as (_ & _ & ? & _); congruence|].
  destruct Hg as [_ Ho]. split_and!; [done..|]. exists 0. simpl. split_and!; [lia| |done..].
  rewrite Ho. unfold stop_values. simpl. done.
Qed.

Lemma phase2_deadline s k : phase2 s k → phase2 (set_cancelled s) k.
Proof.
  intros (Hg & Hcl & j & Hj & Ho & Hs). split_and!; [done..|]. exists j. simpl.
  split_and!; [done|done|]. destruct (stop s); naive_solver.
Qed.

Lemma phase2_cancel s k i :
  phase2 s k → stop s = SSelect i → ctx_cancelled s = true →
  phase2 (set_stop SExited (mark_closed (ch2 s)) s) k.
Proof. intros (Hg & Hcl & j & Hj & Ho & _) _ Hc. split_and!; [done..|]. by exists j. Qed.

Lemma phase2_send s k i :
  k < 5 → phase2 s k → stop s = SSelect i →
  main_ok (set_main (next_read k) (emit (Received i) (set_stop (SSelect (wrap_int (i + 1))) (ch2 s) s)))
    (next_read k).
Proof.
  intros Hk (Hg & Hcl & j & Hj & Ho & Hs) Hsi. rewrite Hsi in Hs. destruct Hs as (-> & -> & Hc2).
  apply next_read_ok; [lia|]. split_and!; [done..|]. exists (S k). cbn [out emit set_main set_stop stop ch2].
  rewrite wrap_int_small by lia. split_and!; [lia| |lia|done|done].
  rewrite Ho, stop_values_sent, received_app. by rewrite <-!app_assoc.
Qed.

Lemma phase2_read_closed s k :
  k < 5 → phase2 s k → chan_closed (ch2 s) = true →
  main_ok (set_main (next_read k) (emit (Received 0) s)) (next_read k).
Proof.
  intros Hk (Hg & Hcl & j & Hj & Ho & Hs) Hc2. apply next_read_ok; [lia|].
  split_and!; [done..|]. exists j. cbn [out emit set_main stop ch2]. split_and!; [lia| |].
  - rewrite Ho, stop_values_zero, received_app by lia. by rewrite <-!app_assoc.
  - destruct (stop s); [done| |done]. destruct Hs as (_ & _ & ?). congruence.
Qed.


Lemma gen_step_inv s e s' : inv s → step s e = Next s' → inv s'.
Proof.
  intros (Hn & Hb1 & Hb2 & Hm) He. unfold step in He.
  destruct (main s) as [|k|] eqn:Hmain; simpl in Hm; [|destruct Hm as [Hk Hm]|done].
  all: destruct e; unfold mbind, outcome_bind, chan_handoff, chan_close, chan_recv in He;
    rewrite ?Hb1, ?Hb2 in He; repeat (case_match; simplify_eq/=); try discriminate.
  all: unfold inv; simpl; rewrite ?Hmain; simpl; split_and!; try done.
  all: try (by eapply phase1_send); try (by eapply phase1_close); try (by apply phase1_range_end).
  all: try (by eapply phase2_send); try (by eapply phase2_read_closed); try (by eapply phase2_cancel).
  all: try lia; unfold phase1, phase2 in *; simpl in *; try naive_solver.
  - destruct Hm as [Hst _]. congruence.
  - by apply phase2_deadline.
Qed.

Lemma gen_step_measure s e s' : inv s → step s e = Next s' → measure s' < measure s.
Proof.
  intros (Hn & Hb1 & Hb2 & Hm) He. unfold step in He.
  destruct (main s) as [|k|] eqn:Hmain; simpl in Hm; [|destruct Hm as [Hk Hm]|done].
  all: unfold phase1 in Hm; destruct e; unfold mbind, outcome_bind, chan_handoff, chan_close, chan_recv in He;
    rewrite ?Hb1, ?Hb2 in He; repeat (case_match; simplify_eq/=); try discriminate.
  all: unfold measure; simpl; rewrite ?Hmain.
  all: repeat match goal with
    | H : gen _ = _ |- _ => rewrite H in *; clear H
    | H : stop _ = _ |- _ => rewrite H in *; clear H
    | H : ctx_cancelled _ = _ |- _ => rewrite H in *; clear H
    end; simpl in *.
  all: try lia; try (pose proof (next_read_weight k Hk); lia).
  all: try (rewrite wrap_int_small by (destruct Hm as (_ & ? & _); lia); lia).
Qed.

(** ** No panic, progress *)

Lemma gen_step_no_panic s e r : inv s → step s e ≠ Panicked r.
Proof.
  intros (Hn & Hb1 & Hb2 & Hm) He. unfold step in He.
  destruct (main s) as [|k|] eqn:Hmain; simpl in Hm; [|destruct Hm as [Hk Hm]|done].
  all: unfold phase1, phase2 in Hm; destruct e; unfold mbind, outcome_bind, chan_handoff, chan_close,
    chan_recv in He; rewrite ?Hb1, ?Hb2 in He; repeat (case_match; simplify_eq/=); try discriminate.
  all: naive_solver.
Qed.

Lemma gen_step_progress s : inv s → main s = MReturned ∨ ∃ e s', step s e = Next s'.
Proof.
  intros (Hn & Hb1 & Hb2 & Hm). unfold step.
  destruct (main s) as [|k|] eqn:Hmain; simpl in Hm; [right|right|by left].
  - destruct Hm as [Hst Hg]. destruct (gen s) as [i|] eqn:Hgen.
    + destruct Hg as (_ & _ & Hcl & _). destruct (decide (i < gen_n s)%Z).
      * exists GenSend. cbv beta iota.  unfold chan_handoff.
        rewrite Hcl. by eexists.
      * exists GenClose. cbv beta iota.  unfold chan_close.
        rewrite Hcl. by eexists.
    + destruct Hg as [Hcl _]. exists MainRangeEnd. cbv beta iota. unfold chan_recv.
      rewrite Hb1, Hcl. by eexists.
  - destruct Hm as (_ & _ & _ & j & _ & _ & Hs). destruct (stop s) as [|i|] eqn:Hstop; [done| |].
    + destruct Hs as (_ & _ & Hc2). exists StopSend. cbv beta iota. unfold chan_handoff.
      rewrite Hc2. by eexists.
    + destruct Hs as [Hs _]. exists MainReadClosed. cbv beta iota. unfold chan_recv.
      rewrite Hb2, Hs. by eexists.
Qed.

Lemma gen_inv_init n : (n < 2^63)%Z → inv (init n).
Proof. intros Hn. split_and!; try done. split; [done|]. simpl. split_and!; [lia|lia|done|done]. Qed.

#[export] Instance generator_laws :
  ProgramLaws step inv (λ s, main s = MReturned) measure.
Proof.
  split.
  - apply gen_step_inv.
  - apply gen_step_measure.
  - apply gen_step_no_panic.
  - apply gen_step_progress.
Qed.

Lemma gen_reachable_inv n s : (n < 2^63)%Z → reachable n s → inv s.
Proof. intros Hn Hr. eapply (laws_reachable (step := step)); [by apply gen_inv_init|done]. Qed.

Lemma step_gen_n s e s' : step s e = Next s' → gen_n s' = gen_n s.
Proof.
  unfold step. intros He. destruct (main s); [..|done]; destruct e;
    unfold mbind, outcome_bind in He; repeat (case_match; simplify_eq/=); done.
Qed.

Lemma reachable_gen_n n s : reachable n s → gen_n s = n.
Proof.
  intros Hr. refine (rtc_invariant step (λ s, gen_n s = n) _ (init n) s eq_refl Hr).
  intros ??? <-. apply step_gen_n.
Qed.

Lemma gen_measure_init n : (0 ≤ n)%Z → measure (init n) = 2 * Z.to_nat n + 10.
Proof. intros Hn. unfold measure, init. simpl. rewrite Z.sub_0_r. lia. Qed.

Lemma gen_reachable_after es s : run step main_state es = Next s → reachable 5 s.
Proof. apply run_rtc. Qed.

(** ** Theorems *)

(** C26 (output of main). Whatever the deadline does, when [main]
    returns it has printed the banner, [0 .. n-1] from [Generator(n)],
    the second banner, and five values from [GeneratorWithStop]: the
    values [0 .. j-1] it sent, then [5 - j] zeros read from its closed
    channel. *)
Theorem generator_output n s :
  (n < 2^63)%Z → reachable n s → main s = MReturned →
  ∃ j, j ≤ 5 ∧ out s = [SimpleBanner] ++ received (gen_values n) ++ [StopBanner] ++
                       received (upto j ++ replicate (5 - j) 0%Z).
Proof.
  intros Hn Hr Hm. pose proof (gen_reachable_inv n s Hn Hr) as (_ & _ & _ & Hok).
  rewrite Hm in Hok. destruct Hok as (_ & _ & j & Hj & Ho & _). exists j. split; [done|].
  by rewrite Ho, (reachable_gen_n n s Hr).
Qed.

Lemma generator_output_witness :
  ∃ j, j ≤ 5 ∧ out (after cancel_schedule) = [SimpleBanner] ++ received (gen_values 5) ++
    [StopBanner] ++ received (upto j ++ replicate (5 - j) 0%Z).
Proof.
  apply (generator_output 5); [lia|apply (gen_reachable_after cancel_schedule)|]; vm_compute; reflexivity.
Defined.

(** C27 (output without deadline). If the deadline has not fired when
    [main] returns, the second phase printed [0 .. 4]: every value read
    was sent by [GeneratorWithStop]. *)
Theorem generator_full_output n s :
  (n < 2^63)%Z → reachable n s → main s = MReturned → ctx_cancelled s = false →
  out s = [SimpleBanner] ++ received (gen_values n) ++ [StopBanner] ++ received (upto 5).
Proof.
  intros Hn Hr Hm Hc. pose proof (gen_reachable_inv n s Hn Hr) as (_ & _ & _ & Hok).
  rewrite Hm in Hok. destruct Hok as (_ & _ & j & Hj & Ho & Hs).
  rewrite Ho, (reachable_gen_n n s Hr). destruct (stop s); [done| |destruct Hs; congruence].
  destruct Hs as (_ & -> & _). unfold stop_values. by rewrite Nat.sub_diag, app_nil_r.
Qed.

Lemma generator_full_output_witness :
  out (after full_schedule) = [SimpleBanner] ++ received (gen_values 5) ++ [StopBanner] ++
    received (upto 5).
Proof.
  apply (generator_full_output 5); [lia|apply (gen_reachable_after full_schedule)|..];
    vm_compute; reflexivity.
Defined.

(** C28 (zero values after cancellation). [main] reads
    [<-numbersWithStop] without the [ok] flag: after the deadline closes
    the channel it prints zeros that no generator sent, indistinguishable
    from the value [0]. *)
Theorem generator_zero_values :
  ∃ es s, run step main_state es = Next s ∧ main s = MReturned ∧ stop s = SExited ∧
    out s = [SimpleBanner] ++ received (upto 5) ++ [StopBanner] ++ received [0; 1; 0; 0; 0]%Z.
Proof. exists cancel_schedule. eexists. vm_compute. split_and!; reflexivity. Qed.

(** C29 (no panic, no deadlock). In every reachable state no goroutine
    can panic, and a state where nothing can move is one where [main]
    has returned. *)
Theorem generator_safe n s :
  (n < 2^63)%Z → reachable n s → panic_free step s ∧ (stuck step s → main s = MReturned).
Proof.
  intros Hn Hr. pose proof (gen_reachable_inv n s Hn Hr) as Hinv. split.
  - by apply (laws_panic_free (inv := inv)).
  - by apply (laws_stuck_exited (inv := inv) (exited := λ s, main s = MReturned)).
Qed.

Lemma generator_safe_witness :
  panic_free step (after cancel_schedule) ∧
  (stuck step (after cancel_schedule) → main (after cancel_schedule) = MReturned).
Proof. apply (generator_safe 5); [lia|apply (gen_reachable_after cancel_schedule)]; vm_compute; reflexivity. Defined.

(** Termination. For [0 <= n], every run of [main] has at most
    [2 n + 10] steps. *)
Theorem generator_run_bound n es s :
  (0 ≤ n < 2^63)%Z → run step (init n) es = Next s → length es ≤ 2 * Z.to_nat n + 10.
Proof.
  intros Hn Hrun. rewrite <-gen_measure_init by lia.
  apply (laws_run_bound (inv := inv) (exited := λ s, main s = MReturned) _ _ s); [|done].
  apply gen_inv_init. lia.
Qed.

Lemma generator_run_bound_witness : length cancel_schedule ≤ 2 * Z.to_nat 5 + 10.
Proof. apply (generator_run_bound 5 cancel_schedule (after cancel_schedule)); [lia|]. vm_compute. reflexivity. Defined.

End Generator.
