(* ===== verification/Future.v ===== *)
(** [src/future-promise/main.go]: a single-value future over two
    buffered channels, and the [main] that awaits two of them.

    - [Future] (lines 10-13) holds a [result] and an [err] channel of
      capacity one; [NewFuture] (lines 16-32) makes them and starts the
      goroutine that runs [fn] and sends either its error or its result
      ([future_run]); [Get] (lines 35-48) selects between the two
      channels and [ctx.Done()].
    - [main] (lines 50-79) starts [future] (which succeeds) and
      [errorFuture] (which fails), awaits [errorFuture] and returns on its
      error, and only otherwise awaits [future]. Its model is the step
      function [step] over [state], with the one-second deadline as an
      event.
    - Section [future] states the API's contract for any value type:
      [Get] returns the value or error [fn] produced, once. The theorems
      at the end give the output of [main]: it always prints one error
      line and never the result of [future]. *)

From S2P Require Import Prelude Runtime.
From stdpp Require Import strings.

Set Warnings "-clear-no-such-hyp".

Module Future.

(** ** The API (lines 10-48) *)

(** Go's [error], by the text of its [Error()] method. *)
Definition error := string.

(** [ctx.Err()] once the deadline has passed: [context.DeadlineExceeded]. *)
Definition deadline_exceeded : error := "context deadline exceeded".

Section future.
Context {T : Type} (zero : T).

(** [type Future[T] struct { result chan T; err chan error }] *)
Record Future := MkFuture { result : chan T; err : chan error }.

(** What [fn()] returns: its value and its error ([None] for [nil]). *)
Definition fn_outcome := (T * option error)%type.

(** [NewFuture]'s channels (lines 17-20): both of capacity one. *)
Definition NewFuture : Future := MkFuture (make_chan 1) (make_chan 1).

(** The goroutine of lines 22-29, once [fn()] has returned [o]: it sends
    the error if there is one, the result otherwise. *)
Definition future_run (f : Future) (o : fn_outcome) : outcome Future :=
  match o with
  | (_, Some e) => c ← chan_send (err f) e; Next (MkFuture (result f) c)
  | (v, None) => c ← chan_send (result f) v; Next (MkFuture c (err f))
  end.

(** The three cases of [Get]'s [select]. *)
Inductive get_case := GetResult | GetErr | GetDone.

(** [Get(ctx)] taking case [c]; [ctx_done] says whether [ctx.Done()] is
    closed. The zero value of [T] is [zero]. *)
Definition Get (f : Future) (ctx_done : bool) (c : get_case) : outcome (T * option error * Future) :=
  match c with
  | GetResult =>
      r ← chan_recv (result f);
      match r with
      | (Some v, c') => Next (v, None, MkFuture c' (err f))
      | (None, c') => Next (zero, None, MkFuture c' (err f))   (* closed: the zero value *)
      end
  | GetErr =>
      r ← chan_recv (err f);
      match r with
      | (Some e, c') => Next (zero, Some e, MkFuture (result f) c')
      | (None, c') => Next (zero, None, MkFuture (result f) c')   (* closed: a nil error *)
      end
  | GetDone => if ctx_done then Next (zero, Some deadline_exceeded, f) else Blocked
  end.

(** The channels of a future whose goroutine has finished with [o] and
    whose value has not been taken yet. *)
Definition delivered (f : Future) (o : fn_outcome) : Prop :=
  match o with
  | (v, None) => chan_buf (result f) = [v] ∧ chan_buf (err f) = []
  | (_, Some e) => chan_buf (result f) = [] ∧ chan_buf (err f) = [e]
  end.

(** Both channels open, of capacity one, and empty. *)
Definition empty_future (f : Future) : Prop :=
  chan_cap (result f) = 1 ∧ chan_cap (err f) = 1 ∧
  chan_closed (result f) = false ∧ chan_closed (err f) = false ∧
  chan_buf (result f) = [] ∧ chan_buf (err f) = [].
End future.

Arguments Future : clear implicits.
Arguments fn_outcome : clear implicits.

(** What [Get] returns for a future whose [fn] returned [o]: the value,
    or the zero value with the error. *)
Definition fn_result {T} (zero : T) (o : fn_outcome T) : T * option error :=
  match o with (v, None) => (v, None) | (_, Some e) => (zero, Some e) end.

(** ** The program of [main] (lines 50-79) *)

(** A future of [main] with its function's outcome and whether its
    goroutine has finished. *)
Record fstate := MkFState {
  fs_fn : fn_outcome string;
  fs_future : Future string;
  fs_done : bool;
}.

Inductive main_pc := MGetError | MGetResult | MReturned.

(** The lines printed: [fmt.Printf("Error: %v\n", err)] and
    [fmt.Printf("Result: %v\n", result)]. *)
Inductive line := ErrorLine (e : error) | ResultLine (v : string).

#[export] Instance main_pc_eq_dec : EqDecision main_pc.
Proof. solve_decision. Defined.
#[export] Instance line_eq_dec : EqDecision line.
Proof. solve_decision. Defined.

Record state := MkState {
  ctx_cancelled : bool;
  fut : fstate;        (* future, line 52 *)
  err_fut : fstate;    (* errorFuture, line 62 *)
  main : main_pc;
  out : list line;
}.

Inductive event :=
  | Deadline
  | RunFuture          (* future's goroutine: fn() returns, the send *)
  | RunErrorFuture     (* errorFuture's goroutine *)
  | MainGet (c : get_case).

Definition set_fut (f : fstate) (s : state) : state :=
  MkState (ctx_cancelled s) f (err_fut s) (main s) (out s).
Definition set_err_fut (f : fstate) (s : state) : state :=
  MkState (ctx_cancelled s) (fut s) f (main s) (out s).
Definition set_main (m : main_pc) (s : state) : state :=
  MkState (ctx_cancelled s) (fut s) (err_fut s) m (out s).
Definition emit (l : line) (s : state) : state :=
  MkState (ctx_cancelled s) (fut s) (err_fut s) (main s) (out s ++ [l]).
Definition set_cancelled (s : state) : state :=
  MkState true (fut s) (err_fut s) (main s) (out s).

(** A future's goroutine runs, once. *)
Definition run_fstate (f : fstate) : outcome fstate :=
  if fs_done f then Blocked
  else c ← future_run (fs_future f) (fs_fn f); Next (MkFState (fs_fn f) c true).

Definition step (s : state) (e : event) : outcome state :=
  match main s with
  | MReturned => Blocked
  | MGetError =>
      match e with
      | Deadline => if ctx_cancelled s then Blocked else Next (set_cancelled s)
      | RunFuture => f ← run_fstate (fut s); Next (set_fut f s)
      | RunErrorFuture => f ← run_fstate (err_fut s); Next (set_err_fut f s)
      | MainGet c =>
          (* lines 66-69 *)
          r ← Get "" (fs_future (err_fut s)) (ctx_cancelled s) c;
          let '(_, e, f') := r in
          let s' := set_err_fut (MkFState (fs_fn (err_fut s)) f' (fs_done (err_fut s))) s in
          match e with
          | Some e => Next (set_main MReturned (emit (ErrorLine e) s'))
          | None => Next (set_main MGetResult s')
          end
      end
  | MGetResult =>
      match e with
      | Deadline => if ctx_cancelled s then Blocked else Next (set_cancelled s)
      | RunFuture => f ← run_fstate (fut s); Next (set_fut f s)
      | RunErrorFuture => f ← run_fstate (err_fut s); Next (set_err_fut f s)
      | MainGet c =>
          (* lines 72-78 *)
          r ← Get "" (fs_future (fut s)) (ctx_cancelled s) c;
          let '(v, e, f') := r in
          let s' := set_fut (MkFState (fs_fn (fut s)) f' (fs_done (fut s))) s in
          match e with
          | Some e => Next (set_main MReturned (emit (ErrorLine e) s'))
          | None => Next (set_main MReturned (emit (ResultLine v) s'))
          end
      end
  end.

(** [main] at line 66: both futures created, neither goroutine has run. *)
Definition init : state :=
  MkState false
    (MkFState ("Computation completed", None) NewFuture false)
    (MkFState ("", Some "computation failed") NewFuture false)
    MGetError [].

Definition after (es : list event) : state :=
  match run step init es with Next s => s | _ => init end.

Definition reachable (s : state) : Prop := init ~[ step ]~>* s.

(** ** Invariant and measure *)

(** A future's channels: empty until its goroutine ran, then holding
    its outcome or, once taken, empty again. *)
Definition fstate_ok (f : fstate) (taken : bool) : Prop :=
  chan_cap (result (fs_future f)) = 1 ∧ chan_cap (err (fs_future f)) = 1 ∧
  chan_closed (result (fs_future f)) = false ∧ chan_closed (err (fs_future f)) = false ∧
  if fs_done f then
    if taken then chan_buf (result (fs_future f)) = [] ∧ chan_buf (err (fs_future f)) = []
    else delivered (fs_future f) (fs_fn f)
  else chan_buf (result (fs_future f)) = [] ∧ chan_buf (err (fs_future f)) = [].

Definition inv (s : state) : Prop :=
  fs_fn (fut s) = ("Computation completed", None) ∧
  fs_fn (err_fut s) = ("", Some "computation failed") ∧
  match main s with
  | MGetError => fstate_ok (fut s) false ∧ fstate_ok (err_fut s) false ∧ out s = []
  | MGetResult => False
  | MReturned =>
      out s = [ErrorLine "computation failed"] ∨
      (ctx_cancelled s = true ∧ out s = [ErrorLine deadline_exceeded])
  end.

Definition measure (s : state) : nat :=
  (if ctx_cancelled s then 0 else 1) + (if fs_done (fut s) then 0 else 1) +
  (if fs_done (err_fut s) then 0 else 1) +
  match main s with MGetError => 2 | MGetResult => 1 | MReturned => 0 end.

(** ** The API's contract *)

Section future_facts.
Context {T : Type} (zero : T).
Implicit Types (f : Future T) (o : fn_outcome T).

(** The goroutine never blocks or panics: its send finds room. *)
Lemma future_run_empty f o :
  empty_future f → ∃ f', future_run f o = Next f' ∧ delivered f' o ∧
    chan_cap (result f') = 1 ∧ chan_cap (err f') = 1 ∧
    chan_closed (result f') = false ∧ chan_closed (err f') = false.
Proof.
  intros (Hcr & Hce & Hor & Hoe & Hbr & Hbe). unfold future_run, chan_send.
  destruct o as [v [e|]]; simpl; rewrite ?Hor, ?Hoe, ?Hbr, ?Hbe, ?Hcr, ?Hce; simpl;
    eexists; split_and!; try reflexivity; simpl; auto.
Qed.

Lemma NewFuture_empty : empty_future (T := T) NewFuture.
Proof. done. Qed.

(** [Get] on a future holding the outcome [o] returns it, or, through
    the [ctx.Done()] case, the context's error. *)
Lemma Get_delivered f o cd c r :
  delivered f o → chan_closed (result f) = false → chan_closed (err f) = false →
  Get zero f cd c = Next r →
  ((r.1.1, r.1.2) = fn_result zero o ∧ c ≠ GetDone ∧
     chan_buf (result r.2) = [] ∧ chan_buf (err r.2) = [] ∧
     chan_cap (result r.2) = chan_cap (result f) ∧ chan_cap (err r.2) = chan_cap (err f) ∧
     chan_closed (result r.2) = chan_closed (result f) ∧ chan_closed (err r.2) = chan_closed (err f)) ∨
  (c = GetDone ∧ cd = true ∧ r = (zero, Some deadline_exceeded, f)).
Proof.
  unfold Get, chan_recv, delivered. destruct o as [v [e|]]; intros [Hr He] Hor Hoe H;
    destruct c; unfold mbind, outcome_bind in H; rewrite ?Hr, ?He, ?Hor, ?Hoe in H; simpl in H;
    repeat (case_match; simplify_eq/=); simplify_eq/=; try (by right); left; split_and!; done.
Qed.

(** [Get] on an empty future waits for [ctx.Done()]. *)
Lemma Get_empty f cd c r :
  chan_buf (result f) = [] → chan_buf (err f) = [] →
  chan_closed (result f) = false → chan_closed (err f) = false →
  Get zero f cd c = Next r → c = GetDone ∧ cd = true ∧ r = (zero, Some deadline_exceeded, f).
Proof.
  intros Hr He Hor Hoe. unfold Get, chan_recv. destruct c; rewrite ?Hr, ?He, ?Hor, ?Hoe; simpl;
    [done|done|]. destruct cd; naive_solver.
Qed.
End future_facts.

Lemma Get_no_panic {T} (zero : T) f cd c r : Get zero f cd c ≠ Panicked r.
Proof.
  unfold Get. destruct c; [| |by destruct cd]; rewrite outcome_bind_panic;
    intros [H|([[v|] c'] & _ & H)]; try done; by eapply chan_recv_no_panic.
Qed.

(** ** The futures of [main] *)

Lemma run_fstate_ok f f' :
  fstate_ok f false → run_fstate f = Next f' → fstate_ok f' false ∧ fs_fn f' = fs_fn f.
Proof.
  unfold run_fstate. intros (Hcr & Hce & Hor & Hoe & Hb) Hr. destruct (fs_done f); [done|].
  destruct Hb as [Hbr Hbe].
  destruct (future_run_empty (fs_future f) (fs_fn f)) as (f0 & Hf0 & Hd & ? & ? & ? & ?);
    [done|]. rewrite Hf0 in Hr. simpl in Hr. injection Hr as <-. done.
Qed.

Lemma run_fstate_no_panic f r : fstate_ok f false → run_fstate f ≠ Panicked r.
Proof.
  unfold run_fstate. intros (Hcr & Hce & Hor & Hoe & Hb). destruct (fs_done f); [done|].
  destruct Hb as [Hbr Hbe].
  destruct (future_run_empty (fs_future f) (fs_fn f)) as (f0 & Hf0 & _); [done|].
  by rewrite Hf0.
Qed.

(** Awaiting [errorFuture] gives its error or the context's. *)
Lemma get_err_fut f cd c r :
  fstate_ok f false → fs_fn f = ("", Some "computation failed") →
  Get "" (fs_future f) cd c = Next r →
  r.1.2 = Some "computation failed" ∨ (cd = true ∧ r.1.2 = Some deadline_exceeded).
Proof.
  intros (_ & _ & Hor & Hoe & Hb) Hfn Hg. destruct (fs_done f).
  - rewrite Hfn in Hb. destruct (Get_delivered "" _ _ _ _ _ Hb Hor Hoe Hg) as [(Hr & _)|(_ & -> & ->)].
    + left. by injection Hr.
    + by right.
  - destruct Hb as [Hbr Hbe]. destruct (Get_empty "" _ _ _ _ Hbr Hbe Hor Hoe Hg) as (_ & -> & ->).
    by right.
Qed.

(** ** The invariant is preserved *)

Lemma fut_step_inv s e s' : inv s → step s e = Next s' → inv s'.
Proof.
  intros (Hf & Hef & Hm) Hs. unfold step in Hs. destruct (main s) eqn:Hmain; [|done|done].
  destruct Hm as (Hok1 & Hok2 & Ho). destruct e as [| | |c].
  - destruct (ctx_cancelled s); simplify_eq/=. unfold inv; simpl. by rewrite Hmain.
  - apply outcome_bind_next in Hs as (f & Hr & [= <-]).
    destruct (run_fstate_ok _ _ Hok1 Hr) as [Hok Hfn]. unfold inv; simpl.
    rewrite Hmain. split_and!; congruence.
  - apply outcome_bind_next in Hs as (f & Hr & [= <-]).
    destruct (run_fstate_ok _ _ Hok2 Hr) as [Hok Hfn]. unfold inv; simpl.
    rewrite Hmain. split_and!; congruence.
  - apply outcome_bind_next in Hs as ([[v e] f'] & Hg & Hs).
    destruct (get_err_fut _ _ _ _ Hok2 Hef Hg) as [He|[Hc He]]; simpl in He; subst e;
      simplify_eq/=; unfold inv; simpl; rewrite Ho; split_and!; try done; [left|right]; done.
Qed.

Lemma fut_step_measure s e s' : step s e = Next s' → measure s' < measure s.
Proof.
  unfold step, measure. intros Hs. destruct (main s) eqn:Hm; [| |done]; destruct e as [| | |c].
  all: try (destruct (ctx_cancelled s) eqn:Hc; simplify_eq/=; rewrite Hm, ?Hc; lia).
  all: try (apply outcome_bind_next in Hs as (f & Hr & [= <-]); unfold run_fstate in Hr;
            destruct (fs_done _) eqn:Hd; [done|]; apply outcome_bind_next in Hr as (? & _ & [= <-]);
            simpl; rewrite Hm, ?Hd; lia).
  all: apply outcome_bind_next in Hs as ([[v e] f'] & _ & Hs); destruct e; simplify_eq/=; lia.
Qed.

Lemma fut_step_no_panic s e r : inv s → step s e ≠ Panicked r.
Proof.
  intros (_ & _ & Hm) Hs. unfold step in Hs. destruct (main s); [|done|done].
  destruct Hm as (Hok1 & Hok2 & _). destruct e as [| | |c].
  - by destruct (ctx_cancelled s).
  - apply outcome_bind_panic in Hs as [Hp|(? & _ & ?)]; [|done]. eapply run_fstate_no_panic; [exact Hok1|exact Hp].
  - apply outcome_bind_panic in Hs as [Hp|(? & _ & ?)]; [|done]. eapply run_fstate_no_panic; [exact Hok2|exact Hp].
  - apply outcome_bind_panic in Hs as [Hp|([[v e] f'] & _ & Hs)]; [by eapply Get_no_panic|].
    by destruct e.
Qed.

(** Progress comes from the goroutines' own work, never from the
    deadline: [errorFuture]'s goroutine sends its error, then [main]'s
    [Get] takes it. *)
Lemma fut_step_progress s :
  inv s → main s = MReturned ∨ ∃ e s', e ≠ Deadline ∧ step s e = Next s'.
Proof.
  intros (_ & Hef & Hm). unfold step. destruct (main s); [right|done|by left].
  destruct Hm as (_ & (Hcr & Hce & Hor & Hoe & Hb) & _). destruct (fs_done (err_fut s)) eqn:Hd.
  - rewrite Hef in Hb. destruct Hb as [_ Hbe]. exists (MainGet GetErr). simpl.
    unfold chan_recv. rewrite Hbe. by eexists.
  - destruct Hb as [Hbr Hbe]. exists RunErrorFuture. unfold run_fstate. rewrite Hd.
    destruct (future_run_empty (fs_future (err_fut s)) (fs_fn (err_fut s))) as (f0 & Hf0 & _);
      [done|]. rewrite Hf0. by eexists.
Qed.

Lemma fut_step_ctx s e s' : e ≠ Deadline → step s e = Next s' → ctx_cancelled s' = ctx_cancelled s.
Proof.
  intros He Hs. unfold step, run_fstate in Hs.
  destruct (main s); [..|done]; destruct e; try done; outcome_cases Hs; done.
Qed.

Lemma fut_inv_init : inv init.
Proof. unfold inv. simpl. split_and!; done. Qed.

#[export] Instance future_laws : ProgramLaws step inv (λ s, main s = MReturned) measure.
Proof.
  split.
  - apply fut_step_inv.
  - intros s e s' _. apply fut_step_measure.
  - apply fut_step_no_panic.
  - intros s Hinv. destruct (fut_step_progress s Hinv) as [|(e & s' & _ & Hs)]; [by left|right; eauto].
Qed.

Lemma fut_reachable_inv s : reachable s → inv s.
Proof. intros Hr. eapply (laws_reachable (step := step)); [apply fut_inv_init|done]. Qed.

Lemma fut_reachable_after es s : run step init es = Next s → reachable s.
Proof. apply run_rtc. Qed.

(** ** Theorems *)

(** C30 (the future's contract). For every value type and every outcome
    [o] of [fn], the goroutine of [NewFuture] completes without blocking;
    afterwards [Get] does not block, and whatever case it takes it
    returns [fn]'s value, or the zero value with [fn]'s error, or (only
    through [ctx.Done()]) the context's error. *)
Theorem future_get_spec {T} (zero : T) (o : fn_outcome T) :
  ∃ f, future_run NewFuture o = Next f ∧ (∃ c r, Get zero f false c = Next r) ∧
    ∀ cd c r, Get zero f cd c = Next r →
      (r.1.1, r.1.2) = fn_result zero o ∨ (c = GetDone ∧ cd = true ∧ r = (zero, Some deadline_exceeded, f)).
Proof.
  destruct (future_run_empty (T := T) NewFuture o) as (f & Hf & Hd & _ & _ & Hor & Hoe); [done|].
  exists f. split_and!; [done| |].
  - destruct o as [v [e|]]; destruct Hd as [Hr He].
    + exists GetErr. unfold Get, chan_recv. rewrite He. by eexists.
    + exists GetResult. unfold Get, chan_recv. rewrite Hr. by eexists.
  - intros cd c r Hg. destruct (Get_delivered zero f o cd c r Hd Hor Hoe Hg) as [(? & _)|?]; [by left|by right].
Qed.

(** C31 (single consumption). Once a [Get] has taken the future's value
    or error, every later [Get] blocks until the context is done. *)
Theorem future_get_once {T} (zero : T) o f cd c r :
  future_run NewFuture o = Next f → Get zero f cd c = Next r → c ≠ GetDone →
  ∀ c', Get zero r.2 false c' = Blocked.
Proof.
  intros Hf Hg Hc c'. destruct (future_run_empty (T := T) NewFuture o) as (f0 & Hf0 & Hd & _ & _ & Ho1 & Ho2);
    [done|]. rewrite Hf0 in Hf. injection Hf as <-.
  destruct (Get_delivered zero f0 o cd c r Hd Ho1 Ho2 Hg) as [(_ & _ & Hbr & Hbe & _ & _ & Hor & Hoe)|(-> & _)];
    [|done].
  unfold Get, chan_recv. destruct c'; rewrite ?Hbr, ?Hbe, ?Hor, ?Hoe, ?Ho1, ?Ho2; done.
Qed.

Lemma future_get_once_witness :
  Get "" (MkFuture (MkChan [] 1 false) (make_chan 1)) false GetResult = Blocked ∧
  Get "" (MkFuture (MkChan [] 1 false) (make_chan 1)) false GetErr = Blocked.
Proof.
  split; apply (future_get_once "" ("done", None) (MkFuture (MkChan ["done"] 1 false) (make_chan 1)) false
           GetResult ("done", None, MkFuture (MkChan [] 1 false) (make_chan 1)));
    [reflexivity|reflexivity|discriminate|reflexivity|reflexivity|discriminate].
Defined.

(** C32 (main never prints the result). Every run of [main] that
    returns has printed exactly one line, an error: [errorFuture]'s
    "computation failed", or the deadline's error. [future]'s result is
    never awaited, since [main] returns on [errorFuture]'s error. *)
Theorem future_main_output s :
  reachable s → main s ≠ MGetResult ∧
    (main s = MReturned → out s = [ErrorLine "computation failed"] ∨ out s = [ErrorLine deadline_exceeded]).
Proof.
  intros Hr. destruct (fut_reachable_inv s Hr) as (_ & _ & Hm). split.
  - intros Hg. by rewrite Hg in Hm.
  - intros Hret. rewrite Hret in Hm. destruct Hm as [|[_ ?]]; [by left|by right].
Qed.

Lemma future_main_output_witness :
  main (after [RunErrorFuture; MainGet GetErr]) ≠ MGetResult ∧
  (main (after [RunErrorFuture; MainGet GetErr]) = MReturned →
   out (after [RunErrorFuture; MainGet GetErr]) = [ErrorLine "computation failed"] ∨
   out (after [RunErrorFuture; MainGet GetErr]) = [ErrorLine deadline_exceeded]).
Proof.
  apply future_main_output. apply (fut_reachable_after [RunErrorFuture; MainGet GetErr]).
  vm_compute. reflexivity.
Defined.

(** C33 (main returns without the deadline). From every reachable
    state in which the deadline has not fired, a run that never fires it
    reaches [main]'s return, with the one line "Error: computation
    failed": [errorFuture]'s goroutine delivers its error and [Get] takes
    it, without the [ctx.Done()] case. *)
Theorem future_main_returns s :
  reachable s → ctx_cancelled s = false →
  ∃ es s', run step s es = Next s' ∧ Forall (λ e, e ≠ Deadline) es ∧
    main s' = MReturned ∧ out s' = [ErrorLine "computation failed"].
Proof.
  intros Hr Hc.
  destruct (laws_exits_avoiding (inv := inv) (exited := λ s, main s = MReturned)
    (λ e, e ≠ Deadline) (λ s, ctx_cancelled s = false)) with (s := s) as (es & s' & Hrun & Hall & Hex & Hc').
  - intros s1 e s2 Hc1 He Hs. by rewrite (fut_step_ctx s1 e s2 He Hs).
  - intros s1 Hinv _. apply fut_step_progress, Hinv.
  - by apply fut_reachable_inv.
  - done.
  - exists es, s'. split_and!; [done..|].
    assert (Hr' : reachable s') by (unfold reachable; etrans; [exact Hr|by eapply run_rtc]).
    destruct (fut_reachable_inv s' Hr') as (_ & _ & Hm).
    rewrite Hex in Hm. destruct Hm as [|[Hc2 _]]; [done|congruence].
Qed.

Lemma future_main_returns_witness :
  ∃ es s', run step init es = Next s' ∧ Forall (λ e, e ≠ Deadline) es ∧
    main s' = MReturned ∧ out s' = [ErrorLine "computation failed"].
Proof. apply future_main_returns; [apply (fut_reachable_after [])|]; reflexivity. Defined.

End Future.
