(* ===== verification/PubSub.v ===== *)
(** [src/pubsub/main.go]: a topic-based publish/subscribe broadcaster
    and the [main] that runs a news and a weather subscriber.

    - [PubSub] (lines 17-20) maps each topic to the list of its
      subscribers' channels. A channel is a reference shared by the
      broker and the subscriber goroutine, so the model keeps the
      channels in a store [heap] indexed by [chan_id] and the broker's map
      holds identifiers: [Unsubscribe]'s [close(ch)] is seen by every
      holder of [ch], and [subscriber == ch] compares identities.
    - [NewPubSub], [Subscribe], [Publish] and [Unsubscribe] (lines 23-71)
      are functions on the broker and the store. The [sync.RWMutex] makes
      each method atomic; in [main] a single goroutine calls them, so each
      call is one step of the model.
    - [Publish] sends with [select { case ch <- msg: default: }]: it never
      blocks, drops the message for a subscriber whose buffer (of one) is
      full, and would panic on a closed channel.
    - [main] (lines 73-123) is the step function [step]: it publishes four
      messages while the two subscribers receive, then waits for them;
      they return on the five-second deadline. *)

From S2P Require Import Prelude Runtime.
From stdpp Require Import strings gmap.

Set Warnings "-clear-no-such-hyp".

Module PubSub.

(** ** The broker (lines 10-71) *)

(** [Message] (lines 11-14); the contents [main] publishes are strings. *)
Record Message := MkMessage { Topic : string; Content : string }.

#[export] Instance Message_eq_dec : EqDecision Message.
Proof. solve_decision. Defined.

Abbreviation chan_id := nat (only parsing).

(** The channels created so far, by identity. *)
Record heap := MkHeap { chans : gmap chan_id (chan Message); next_id : chan_id }.

(** [type PubSub struct { mu sync.RWMutex; subscribers map[string][]chan Message }] *)
Record PubSub := MkPubSub { subscribers : gmap string (list chan_id) }.

(** [ps.subscribers[topic]]: a missing key reads as the [nil] slice. *)
Definition subs_of (ps : PubSub) (topic : string) : list chan_id :=
  default [] (subscribers ps !! topic).

(** [NewPubSub()] (lines 23-27). *)
Definition NewPubSub : PubSub := MkPubSub ∅.

(** [Subscribe(topic)] (lines 30-37): a new channel of capacity one,
    appended to the topic's list. *)
Definition Subscribe (ps : PubSub) (h : heap) (topic : string) : chan_id * PubSub * heap :=
  let ch := next_id h in
  (ch, MkPubSub (<[topic := subs_of ps topic ++ [ch]]> (subscribers ps)),
   MkHeap (<[ch := make_chan 1]> (chans h)) (S ch)).

(** The loop of lines 49-55 over the subscribers' channels: a send with a
    [default] case to each. A channel missing from the store is [nil]:
    its send is never ready and the [default] case is taken. *)
Fixpoint publish_to (msg : Message) (ids : list chan_id) (h : gmap chan_id (chan Message))
    : outcome (gmap chan_id (chan Message)) :=
  match ids with
  | [] => Next h
  | ch :: ids =>
      match h !! ch with
      | Some c => c' ← chan_try_send c msg; publish_to msg ids (<[ch := c']> h)
      | None => publish_to msg ids h
      end
  end.

(** [Publish(topic, content)] (lines 40-56). *)
Definition Publish (ps : PubSub) (h : heap) (topic content : string) : outcome heap :=
  cs ← publish_to (MkMessage topic content) (subs_of ps topic) (chans h);
  Next (MkHeap cs (next_id h)).

(** The index of the first occurrence of [ch], as the loop of lines
    64-70 finds it. *)
Fixpoint find_index (ch : chan_id) (l : list chan_id) : option nat :=
  match l with
  | [] => None
  | x :: l => if decide (x = ch) then Some 0 else S <$> find_index ch l
  end.

(** [Unsubscribe(topic, ch)] (lines 59-71): removes the first occurrence
    of [ch] from the topic's list ([append(subscribers[:i],
    subscribers[i+1:]...)]) and closes it; does nothing when [ch] is not
    subscribed to [topic]. *)
Definition Unsubscribe (ps : PubSub) (h : heap) (topic : string) (ch : chan_id)
    : outcome (PubSub * heap) :=
  let l := subs_of ps topic in
  match find_index ch l with
  | None => Next (ps, h)
  | Some i =>
      let ps' := MkPubSub (<[topic := take i l ++ drop (S i) l]> (subscribers ps)) in
      match chans h !! ch with
      | Some c => c' ← chan_close c; Next (ps', MkHeap (<[ch := c']> (chans h)) (next_id h))
      | None => Panicked CloseOfNil
      end
  end.

(** Two brokers are equivalent when every topic reads the same list: a
    topic mapped to an empty list behaves as a missing one. *)
Definition ps_equiv (ps1 ps2 : PubSub) : Prop := ∀ t, subs_of ps1 t = subs_of ps2 t.

(** A client's call of the API, and a sequence of calls from one
    goroutine. *)
Inductive api_call :=
  | CallSubscribe (topic : string)
  | CallPublish (topic content : string)
  | CallUnsubscribe (topic : string) (ch : chan_id).

Definition api_step (st : PubSub * heap) (c : api_call) : outcome (PubSub * heap) :=
  match c with
  | CallSubscribe t => let '(_, ps, h) := Subscribe st.1 st.2 t in Next (ps, h)
  | CallPublish t m => h ← Publish st.1 st.2 t m; Next (st.1, h)
  | CallUnsubscribe t ch => Unsubscribe st.1 st.2 t ch
  end.

Fixpoint api_run (st : PubSub * heap) (cs : list api_call) : outcome (PubSub * heap) :=
  match cs with
  | [] => Next st
  | c :: cs => st' ← api_step st c; api_run st' cs
  end.

Definition empty_heap : heap := MkHeap ∅ 0.

(** What [Publish] does to one open subscriber channel: the message is
    buffered if there is room, dropped otherwise. *)
Definition deliver (msg : Message) (c : chan Message) : chan Message :=
  if decide (length (chan_buf c) < chan_cap c) then MkChan (chan_buf c ++ [msg]) (chan_cap c) false
  else c.

(** The broker's invariant: every subscribed channel exists and is open,
    identifiers are fresh below [next_id], and each channel is
    subscribed once, to one topic. *)
Record broker_ok (ps : PubSub) (h : heap) : Prop := {
  bok_open : ∀ t id, id ∈ subs_of ps t → ∃ c, chans h !! id = Some c ∧ chan_closed c = false;
  bok_fresh : ∀ id, is_Some (chans h !! id) → id < next_id h;
  bok_nodup : ∀ t, NoDup (subs_of ps t);
  bok_owner : ∀ t1 t2 id, id ∈ subs_of ps t1 → id ∈ subs_of ps t2 → t1 = t2;
}.

(** ** The program of [main] (lines 73-123) *)

(** A subscriber goroutine (lines 90-100 and 103-113). *)
Inductive sub_pc := SSelect | SExited.

(** [main]: about to make its [k]-th publication, at [wg.Wait()], or
    returned. *)
Inductive main_pc := MPublish (k : nat) | MWait | MReturned.

(** The lines printed: [News: ...] and [Weather: ...]. *)
Inductive line := NewsLine (c : string) | WeatherLine (c : string).

#[export] Instance sub_pc_eq_dec : EqDecision sub_pc.
Proof. solve_decision. Defined.
#[export] Instance main_pc_eq_dec : EqDecision main_pc.
Proof. solve_decision. Defined.
#[export] Instance line_eq_dec : EqDecision line.
Proof. solve_decision. Defined.

Record state := MkState {
  ctx_cancelled : bool;
  ps : PubSub;
  hp : heap;
  news_ch : chan_id;
  weather_ch : chan_id;
  news : sub_pc;
  weather : sub_pc;
  wg : Z;
  main : main_pc;
  out : list line;
}.

Inductive event :=
  | Deadline
  | MainPublish          (* the next ps.Publish of lines 116-119 *)
  | NewsRecv             (* msg := <-newsCh *)
  | NewsCancel           (* the news subscriber's ctx.Done() case *)
  | WeatherRecv
  | WeatherCancel
  | MainWaitReturn.      (* wg.Wait() returns, main returns *)

(** The publications of lines 116-119. *)
Definition publications : list (string * string) :=
  [("news", "Breaking: Go 1.21 released!"); ("weather", "Sunny, 25°C");
   ("news", "Dinamo wins championship"); ("weather", "Rain expected tomorrow")].

Definition set_hp (h : heap) (s : state) : state :=
  MkState (ctx_cancelled s) (ps s) h (news_ch s) (weather_ch s) (news s) (weather s) (wg s) (main s) (out s).
Definition set_news (p : sub_pc) (s : state) : state :=
  MkState (ctx_cancelled s) (ps s) (hp s) (news_ch s) (weather_ch s) p (weather s) (wg s) (main s) (out s).
Definition set_weather (p : sub_pc) (s : state) : state :=
  MkState (ctx_cancelled s) (ps s) (hp s) (news_ch s) (weather_ch s) (news s) p (wg s) (main s) (out s).
Definition set_wg (n : Z) (s : state) : state :=
  MkState (ctx_cancelled s) (ps s) (hp s) (news_ch s) (weather_ch s) (news s) (weather s) n (main s) (out s).
Definition set_main (m : main_pc) (s : state) : state :=
  MkState (ctx_cancelled s) (ps s) (hp s) (news_ch s) (weather_ch s) (news s) (weather s) (wg s) m (out s).
Definition set_cancelled (s : state) : state :=
  MkState true (ps s) (hp s) (news_ch s) (weather_ch s) (news s) (weather s) (wg s) (main s) (out s).
Definition emit (l : line) (s : state) : state :=
  MkState (ctx_cancelled s) (ps s) (hp s) (news_ch s) (weather_ch s) (news s) (weather s) (wg s) (main s)
    (out s ++ [l]).

(** A subscriber's [msg := <-ch] case: the oldest buffered message. *)
Definition sub_recv (ch : chan_id) (s : state) : outcome (Message * state) :=
  match chans (hp s) !! ch with
  | Some c =>
      r ← chan_recv c;
      match r with
      | (Some m, c') => Next (m, set_hp (MkHeap (<[ch := c']> (chans (hp s))) (next_id (hp s))) s)
      | (None, _) => Blocked    (* newsCh is never closed in main *)
      end
  | None => Blocked             (* a nil channel *)
  end.

Definition step (s : state) (e : event) : outcome state :=
  match main s with
  | MReturned => Blocked
  | _ =>
    match e with
    | Deadline => if ctx_cancelled s then Blocked else Next (set_cancelled s)
    | MainPublish =>
        match main s with
        | MPublish k =>
            match publications !! k with
            | Some (t, c) =>
                h ← Publish (ps s) (hp s) t c;
                Next (set_main (if decide (S k < length publications) then MPublish (S k) else MWait)
                        (set_hp h s))
            | None => Blocked
            end
        | _ => Blocked
        end
    | NewsRecv =>
        match news s with
        | SSelect => r ← sub_recv (news_ch s) s; Next (emit (NewsLine (Content r.1)) r.2)
        | SExited => Blocked
        end
    | NewsCancel =>
        match news s with
        | SSelect =>
            if ctx_cancelled s then n ← wg_done (wg s); Next (set_wg n (set_news SExited s))
            else Blocked
        | SExited => Blocked
        end
    | WeatherRecv =>
        match weather s with
        | SSelect => r ← sub_recv (weather_ch s) s; Next (emit (WeatherLine (Content r.1)) r.2)
        | SExited => Blocked
        end
    | WeatherCancel =>
        match weather s with
        | SSelect =>
            if ctx_cancelled s then n ← wg_done (wg s); Next (set_wg n (set_weather SExited s))
            else Blocked
        | SExited => Blocked
        end
    | MainWaitReturn =>
        match main s with
        | MWait => if wg_wait_ready (wg s) then Next (set_main MReturned s) else Blocked
        | _ => Blocked
        end
    end
  end.

(** [main] after line 100: the broker, the two subscriptions, the
    context and [wg.Add(2)]; both subscribers started. *)
Definition init : state :=
  let '(n, ps1, h1) := Subscribe NewPubSub empty_heap "news" in
  let '(w, ps2, h2) := Subscribe ps1 h1 "weather" in
  MkState false ps2 h2 n w SSelect SSelect 2 (MPublish 0) [].

Definition after (es : list event) : state :=
  match run step init es with Next s => s | _ => init end.

Definition reachable (s : state) : Prop := init ~[ step ]~>* s.

(** ** Invariant of [main] *)

(** The publications made so far. *)
Definition published (m : main_pc) : list (string * string) :=
  match m with MPublish k => take k publications | _ => publications end.

(** The contents published on [topic], in order. *)
Definition topic_contents (topic : string) (pubs : list (string * string)) : list string :=
  snd <$> filter (λ p, p.1 = topic) pubs.

Definition news_lines (ls : list line) : list string :=
  omap (λ l, match l with NewsLine c => Some c | _ => None end) ls.
Definition weather_lines (ls : list line) : list string :=
  omap (λ l, match l with WeatherLine c => Some c | _ => None end) ls.

(** A subscriber's channel: open, of capacity one, holding messages of
    its topic; what it printed followed by what is buffered is a
    subsequence of what was published on the topic. *)
Definition sub_ok (topic : string) (c : chan Message) (printed : list string) (pubs : list (string * string)) : Prop :=
  chan_cap c = 1 ∧ chan_closed c = false ∧ Forall (λ m, Topic m = topic) (chan_buf c) ∧
  (printed ++ (Content <$> chan_buf c)) `sublist_of` topic_contents topic pubs.

Definition live (p : sub_pc) : nat := match p with SSelect => 1 | SExited => 0 end.

Definition inv (s : state) : Prop :=
  ps s = ps init ∧ news_ch s = 0 ∧ weather_ch s = 1 ∧ next_id (hp s) = 2 ∧
  (∀ id, is_Some (chans (hp s) !! id) → id < 2) ∧
  (∃ cn, chans (hp s) !! 0 = Some cn ∧ sub_ok "news" cn (news_lines (out s)) (published (main s))) ∧
  (∃ cw, chans (hp s) !! 1 = Some cw ∧ sub_ok "weather" cw (weather_lines (out s)) (published (main s))) ∧
  wg s = Z.of_nat (live (news s) + live (weather s)) ∧
  (news s = SExited → ctx_cancelled s = true) ∧ (weather s = SExited → ctx_cancelled s = true) ∧
  match main s with MPublish k => k < length publications | MWait => True | MReturned => wg s = 0%Z end.

Definition main_weight (m : main_pc) : nat :=
  match m with MPublish k => 3 * (length publications - k) + 1 | MWait => 1 | MReturned => 0 end.

Definition buffered (s : state) (id : chan_id) : nat :=
  default 0 (length ∘ chan_buf <$> chans (hp s) !! id).

Definition measure (s : state) : nat :=
  (if ctx_cancelled s then 0 else 1) + main_weight (main s) + buffered s 0 + buffered s 1 +
  live (news s) + live (weather s).

(** The news subscriber is slow: the second news message finds the
    buffer of [newsCh] full and is dropped. *)
Definition slow_schedule : list event :=
  [MainPublish; MainPublish; MainPublish; MainPublish; NewsRecv; WeatherRecv;
   Deadline; NewsCancel; WeatherCancel; MainWaitReturn].

(** ** The broker's lemmas *)

Lemma subs_of_insert m t l t' :
  subs_of (MkPubSub (<[t:=l]> m)) t' = if decide (t = t') then l else subs_of (MkPubSub m) t'.
Proof. unfold subs_of. simpl. rewrite lookup_insert. by case_decide. Qed.

Lemma find_index_Some ch l i : find_index ch l = Some i → l !! i = Some ch.
Proof.
  revert i; induction l as [|x l IH]; intros i; simpl; [done|].
  case_decide; [intros [= <-]; by subst|]. destruct (find_index ch l) eqn:Hf; simpl; [|done].
  intros [= <-]. by apply IH.
Qed.

Lemma find_index_None ch l : find_index ch l = None → ch ∉ l.
Proof.
  induction l as [|x l IH]; simpl; [intros _; apply not_elem_of_nil|].
  case_decide; [done|]. destruct (find_index ch l); [done|]. intros _ Hin.
  apply elem_of_cons in Hin as [->|Hin]; [done|]. by apply IH.
Qed.

Lemma publish_to_spec msg ids h :
  NoDup ids → (∀ id c, id ∈ ids → h !! id = Some c → chan_closed c = false) →
  ∃ h', publish_to msg ids h = Next h' ∧
    ∀ id, h' !! id = (λ c, if decide (id ∈ ids) then deliver msg c else c) <$> h !! id.
Proof.
  revert h; induction ids as [|ch ids IH]; intros h Hnd Hopen; simpl.
  - exists h. split; [done|]. intros id. destruct (h !! id); [|done]. cbn.
    done.
  - apply NoDup_cons in Hnd as [Hni Hnd]. destruct (h !! ch) as [c|] eqn:Hc.
    + rewrite chan_try_send_open by (eapply Hopen; [apply elem_of_cons; by left|done]). simpl.
      destruct (IH (<[ch:=deliver msg c]> h)) as (h' & Hp & Hh'); [done| |].
      { intros id c' Hin Hl. rewrite lookup_insert in Hl. case_decide; [by subst|].
        eapply Hopen; [apply elem_of_cons; by right|done]. }
      exists h'. split; [done|]. intros id. rewrite Hh'. destruct (decide (ch = id)) as [<-|Hne].
      * rewrite lookup_insert_eq, Hc. cbn [fmap option_fmap option_map].
        rewrite decide_False by done. rewrite decide_True; [done|]. apply elem_of_cons; by left.
      * rewrite lookup_insert_ne by done. destruct (h !! id); [|done]. cbn [fmap option_fmap option_map].
        f_equal. apply decide_ext. rewrite elem_of_cons. naive_solver.
    + destruct (IH h) as (h' & Hp & Hh'); [done| |].
      { intros id c' Hin Hl. eapply Hopen; [apply elem_of_cons; by right|done]. }
      exists h'. split; [done|]. intros id. rewrite Hh'. destruct (h !! id) eqn:Hid; [|done].
      cbn [fmap option_fmap option_map]. f_equal. apply decide_ext. rewrite elem_of_cons. split; [naive_solver|].
      intros [->|?]; [congruence|done].
Qed.

Lemma broker_ok_new : broker_ok NewPubSub empty_heap.
Proof.
  split; unfold subs_of; simpl.
  - intros t id. rewrite lookup_empty. simpl. intros Hin. by apply not_elem_of_nil in Hin.
  - intros id. rewrite lookup_empty. by intros [? ?].
  - intros t. rewrite lookup_empty. apply NoDup_nil_2.
  - intros t1 t2 id. rewrite lookup_empty. simpl. intros Hin. by apply not_elem_of_nil in Hin.
Qed.

Lemma fresh_not_sub ps h t : broker_ok ps h → next_id h ∉ subs_of ps t.
Proof.
  intros Hok Hin. destruct (bok_open _ _ Hok t _ Hin) as (c & Hc & _).
  pose proof (bok_fresh _ _ Hok (next_id h) ltac:(by eexists)). lia.
Qed.

Lemma elem_of_subscribe ps t l id t' :
  id ∈ subs_of (MkPubSub (<[t:=l]> (subscribers ps))) t' ↔
  (t ≠ t' ∧ id ∈ subs_of ps t') ∨ (t = t' ∧ id ∈ l).
Proof. rewrite subs_of_insert. case_decide; naive_solver. Qed.

Lemma Subscribe_ok ps h t ch ps' h' :
  broker_ok ps h → Subscribe ps h t = (ch, ps', h') →
  broker_ok ps' h' ∧ ch = next_id h ∧ (ch ∉ subs_of ps t) ∧ subs_of ps' t = (subs_of ps t ++ [ch]) ∧
  (∀ t', t' ≠ t → subs_of ps' t' = subs_of ps t') ∧
  chans h' !! ch = Some (make_chan 1) ∧ (∀ id, id ≠ ch → chans h' !! id = chans h !! id).
Proof.
  intros Hok [= <- <- <-]. pose proof (fresh_not_sub _ _ t Hok) as Hfr.
  assert (Hlt : ∀ id c, chans h !! id = Some c → id < next_id h).
  { intros id c Hc. apply (bok_fresh _ _ Hok). by eexists. }
  split_and!; try done.
  - split; simpl.
    + intros t' id. rewrite elem_of_subscribe, elem_of_app, list_elem_of_singleton.
      intros [[_ Hin]|[_ [Hin| ->]]]; [| |by rewrite lookup_insert_eq; eexists].
      all: destruct (bok_open _ _ Hok _ _ Hin) as (c & Hc & Ho); exists c;
        rewrite lookup_insert_ne by (pose proof (Hlt _ _ Hc); lia); done.
    + intros id [c Hc]. rewrite lookup_insert in Hc. case_decide; [lia|].
      pose proof (Hlt _ _ Hc). lia.
    + intros t'. rewrite subs_of_insert. case_decide; [subst|apply (bok_nodup _ _ Hok)].
      apply NoDup_app. split_and!; [apply (bok_nodup _ _ Hok)| |apply NoDup_singleton].
      intros x Hx ->%list_elem_of_singleton. done.
    + intros t1 t2 id. rewrite !elem_of_subscribe, !elem_of_app, !list_elem_of_singleton.
      pose proof (fresh_not_sub _ _ t1 Hok). pose proof (fresh_not_sub _ _ t2 Hok).
      pose proof (bok_owner _ _ Hok t1 t2 id). pose proof (bok_owner _ _ Hok t t2 id).
      pose proof (bok_owner _ _ Hok t1 t id). naive_solver.
  - by rewrite subs_of_insert, decide_True.
  - intros t' Hne. rewrite subs_of_insert, decide_False; [done|congruence].
  - simpl. by rewrite lookup_insert_eq.
  - intros id Hne. simpl. by rewrite lookup_insert_ne.
Qed.

(** [Publish] never blocks or panics on a broker in good shape: each
    subscriber of the topic gets the message if its buffer has room, and
    every other channel is left alone. *)
Lemma Publish_spec ps h t c :
  broker_ok ps h →
  ∃ h', Publish ps h t c = Next h' ∧ next_id h' = next_id h ∧
    ∀ id, chans h' !! id =
      (λ ch, if decide (id ∈ subs_of ps t) then deliver (MkMessage t c) ch else ch) <$> chans h !! id.
Proof.
  intros Hok. destruct (publish_to_spec (MkMessage t c) (subs_of ps t) (chans h)) as (cs & Hp & Hcs).
  - apply (bok_nodup _ _ Hok).
  - intros id ch Hin Hl. destruct (bok_open _ _ Hok _ _ Hin) as (ch' & Hl' & Ho). congruence.
  - exists (MkHeap cs (next_id h)). unfold Publish. rewrite Hp. done.
Qed.

Lemma deliver_closed msg c : chan_closed (deliver msg c) = chan_closed c ∨ chan_closed (deliver msg c) = false.
Proof. unfold deliver. case_decide; [by right|by left]. Qed.

Lemma Publish_ok ps h t c h' : broker_ok ps h → Publish ps h t c = Next h' → broker_ok ps h'.
Proof.
  intros Hok Hp. destruct (Publish_spec ps h t c Hok) as (h'' & Hp' & Hn & Hl).
  rewrite Hp in Hp'. injection Hp' as <-. split.
  - intros t' id Hin. destruct (bok_open _ _ Hok _ _ Hin) as (ch & Hch & Ho).
    rewrite Hl, Hch. simpl. eexists. split; [done|]. case_decide; [|done].
    destruct (deliver_closed (MkMessage t c) ch) as [Hd|Hd]; rewrite Hd; done.
  - intros id Hs. rewrite Hn. apply (bok_fresh _ _ Hok). rewrite Hl in Hs.
    destruct Hs as [x Hx]. apply fmap_Some in Hx as (y & Hy & _). by exists y.
  - apply (bok_nodup _ _ Hok).
  - apply (bok_owner _ _ Hok).
Qed.

Lemma Unsubscribe_ok ps h t ch :
  broker_ok ps h → ∃ ps' h', Unsubscribe ps h t ch = Next (ps', h') ∧ broker_ok ps' h' ∧
    (ch ∈ subs_of ps t → (ch ∉ subs_of ps' t) ∧ ∃ c, chans h' !! ch = Some c ∧ chan_closed c = true).
Proof.
  intros Hok. unfold Unsubscribe. destruct (find_index ch (subs_of ps t)) as [i|] eqn:Hf.
  - apply find_index_Some in Hf. rewrite <-delete_take_drop.
    assert (Hin : ch ∈ subs_of ps t) by by eapply list_elem_of_lookup_2.
    destruct (bok_open _ _ Hok _ _ Hin) as (c & Hc & Ho). rewrite Hc. unfold chan_close. rewrite Ho.
    simpl. eexists _, _. split; [done|].
    pose proof (delete_Permutation _ _ _ Hf) as Hperm.
    pose proof (bok_nodup _ _ Hok t) as Hnd. rewrite Hperm in Hnd.
    apply NoDup_cons in Hnd as [Hni Hnd].
    assert (Hsub : ∀ x, x ∈ delete i (subs_of ps t) → x ∈ subs_of ps t).
    { intros x Hx. rewrite Hperm. by apply elem_of_cons; right. }
    split_and!.
    + split; simpl.
      * intros t' id. rewrite elem_of_subscribe. intros [[Hne Hid]|[<- Hid]].
        -- destruct (bok_open _ _ Hok _ _ Hid) as (c' & Hc' & Ho'). exists c'.
           rewrite lookup_insert_ne; [done|]. intros ->. apply Hne. by eapply (bok_owner _ _ Hok).
        -- destruct (bok_open _ _ Hok _ _ (Hsub _ Hid)) as (c' & Hc' & Ho'). exists c'.
           rewrite lookup_insert_ne; [done|]. by intros ->.
      * intros id Hs. rewrite lookup_insert in Hs. case_decide; [subst|by apply (bok_fresh _ _ Hok)].
        apply (bok_fresh _ _ Hok). by eexists.
      * intros t'. rewrite subs_of_insert. case_decide; [done|apply (bok_nodup _ _ Hok)].
      * intros t1 t2 id. rewrite !elem_of_subscribe.
        intros [[_ H1]|[<- H1]] [[_ H2]|[<- H2]]; eapply (bok_owner _ _ Hok); try apply Hsub; done.
    + intros _. rewrite subs_of_insert, decide_True by done. split; [done|].
      simpl. rewrite lookup_insert_eq. by eexists.
  - eexists _, _. split; [done|]. split; [done|]. intros Hin. by apply find_index_None in Hf.
Qed.

(** Every call from a broker in good shape succeeds and keeps it so. *)
Lemma api_step_ok st c : broker_ok st.1 st.2 → ∃ st', api_step st c = Next st' ∧ broker_ok st'.1 st'.2.
Proof.
  destruct st as [ps h]. simpl. intros Hok. destruct c as [t|t m|t ch]; simpl.
  - pose proof (Subscribe_ok ps h t _ _ _ Hok eq_refl) as [Hok' _].
    eexists. split; [reflexivity|exact Hok'].
  - destruct (Publish_spec ps h t m Hok) as (h' & Hp & _). rewrite Hp. simpl. eexists. split; [done|].
    by eapply Publish_ok.
  - destruct (Unsubscribe_ok ps h t ch Hok) as (ps' & h' & Hu & Hok' & _). by exists (ps', h').
Qed.

Lemma api_run_ok st cs :
  broker_ok st.1 st.2 → ∃ st', api_run st cs = Next st' ∧ broker_ok st'.1 st'.2.
Proof.
  revert st; induction cs as [|c cs IH]; intros st Hok; simpl; [by exists st|].
  destruct (api_step_ok st c Hok) as (st1 & Hs & Hok1). rewrite Hs. simpl. by apply IH.
Qed.

Lemma api_run_new_ok cs ps h : api_run (NewPubSub, empty_heap) cs = Next (ps, h) → broker_ok ps h.
Proof.
  intros Hr. destruct (api_run_ok (NewPubSub, empty_heap) cs broker_ok_new) as (st & Hr' & Hok).
  rewrite Hr in Hr'. by injection Hr' as <-.
Qed.

(** ** Equivalent brokers *)

#[export] Instance ps_equiv_equivalence : Equivalence ps_equiv.
Proof.
  split.
  - by intros ps t.
  - intros ps1 ps2 H t. by rewrite H.
  - intros ps1 ps2 ps3 H1 H2 t. by rewrite H1, H2.
Qed.

#[export] Instance Publish_proper : Proper (ps_equiv ==> eq ==> eq ==> eq ==> eq) Publish.
Proof. intros ps1 ps2 Hps h ? <- t ? <- c ? <-. unfold Publish. by rewrite Hps. Qed.

#[export] Instance subs_of_proper : Proper (ps_equiv ==> eq ==> eq) subs_of.
Proof. intros ps1 ps2 Hps t ? <-. apply Hps. Qed.

Lemma find_index_snoc ch l : ch ∉ l → find_index ch (l ++ [ch]) = Some (length l).
Proof.
  induction l as [|x l IH]; simpl; intros Hni; [by rewrite decide_True|].
  rewrite decide_False by (intros ->; apply Hni, elem_of_cons; by left).
  rewrite IH; [done|]. intros Hin. apply Hni, elem_of_cons. by right.
Qed.

(** Subscribing and unsubscribing the new channel leaves an equivalent
    broker, and the channel closed. *)
Lemma subscribe_unsubscribe ps h t ch ps1 h1 :
  broker_ok ps h → Subscribe ps h t = (ch, ps1, h1) →
  ∃ ps2 h2, Unsubscribe ps1 h1 t ch = Next (ps2, h2) ∧ ps_equiv ps2 ps ∧
    chans h2 !! ch = Some (mark_closed (make_chan 1)) ∧ (∀ id, id ≠ ch → chans h2 !! id = chans h !! id).
Proof.
  intros Hok Hs. destruct (Subscribe_ok _ _ _ _ _ _ Hok Hs) as (_ & -> & Hni & Ht & Hother & Hch & Hid).
  unfold Unsubscribe. rewrite Ht, find_index_snoc by done. rewrite Hch. simpl.
  eexists _, _. split_and!; [done| | |].
  - intros t'. rewrite subs_of_insert. case_decide as Heq.
    + subst. rewrite take_app_length, drop_app, drop_ge by lia.
      replace (S (length (subs_of ps t')) - length (subs_of ps t')) with 1 by lia. simpl. by rewrite app_nil_r.
    + by apply Hother.
  - simpl. by rewrite lookup_insert_eq.
  - intros id Hne. simpl. rewrite lookup_insert_ne by done. by apply Hid.
Qed.

(** ** [main]'s broker and channels *)

Lemma subs_of_init t :
  subs_of (ps init) t = if decide (t = "news") then [0] else if decide (t = "weather") then [1] else [].
Proof.
  unfold subs_of. simpl. rewrite !lookup_insert, lookup_empty.
  repeat case_decide; subst; done.
Qed.

Lemma broker_ok_main s : inv s → broker_ok (ps s) (hp s).
Proof.
  intros (Hps & _ & _ & Hn & Hfr & (cn & Hcn & Hn1 & Hn2 & _) & (cw & Hcw & Hw1 & Hw2 & _) & _).
  rewrite Hps. split.
  - intros t id. rewrite subs_of_init. repeat case_decide; rewrite ?list_elem_of_singleton;
      [intros ->; by exists cn|intros ->; by exists cw|by intros ?%not_elem_of_nil].
  - intros id Hid. rewrite Hn. by apply Hfr.
  - intros t. rewrite subs_of_init. repeat case_decide; [apply NoDup_singleton..|apply NoDup_nil_2].
  - intros t1 t2 id. rewrite !subs_of_init. intros H1 H2.
    repeat case_decide; subst; try done; set_solver.
Qed.

Lemma topic_contents_snoc topic pubs t x :
  topic_contents topic (pubs ++ [(t, x)]) =
  topic_contents topic pubs ++ if decide (t = topic) then [x] else [].
Proof.
  unfold topic_contents. rewrite filter_app, fmap_app. f_equal. simpl.
  rewrite filter_cons. simpl. by destruct (decide (t = topic)).
Qed.

(** A publication keeps a subscriber's channel in shape, whether the
    message is buffered, dropped, or of another topic. *)
Lemma sub_ok_publish topic c printed pubs t x :
  sub_ok topic c printed pubs →
  sub_ok topic (if decide (t = topic) then deliver (MkMessage t x) c else c) printed (pubs ++ [(t, x)]).
Proof.
  intros (Hcap & Hcl & Hall & Hsub). unfold sub_ok. rewrite topic_contents_snoc.
  case_decide as Ht; [subst|by split_and!; [..|apply sublist_inserts_r]].
  unfold deliver. case_decide; [|by split_and!; [..|apply sublist_inserts_r]].
  split_and!; [done|done| |].
  - apply Forall_app. by split; [|apply Forall_singleton].
  - simpl. rewrite fmap_app, app_assoc. by apply sublist_app.
Qed.

Lemma sub_ok_recv topic c printed pubs m b :
  sub_ok topic c printed pubs → chan_buf c = m :: b →
  sub_ok topic (MkChan b (chan_cap c) (chan_closed c)) (printed ++ [Content m]) pubs.
Proof.
  intros (Hcap & Hcl & Hall & Hsub) Hb. rewrite Hb in Hall, Hsub.
  apply Forall_cons in Hall as [_ Hall]. split_and!; try done. by rewrite <-app_assoc.
Qed.

Lemma news_lines_snoc ls l :
  news_lines (ls ++ [l]) = news_lines ls ++ match l with NewsLine c => [c] | _ => [] end.
Proof. unfold news_lines. rewrite omap_app. by destruct l. Qed.

Lemma weather_lines_snoc ls l :
  weather_lines (ls ++ [l]) = weather_lines ls ++ match l with WeatherLine c => [c] | _ => [] end.
Proof. unfold weather_lines. rewrite omap_app. by destruct l. Qed.

(** ** The invariant of [main] is preserved *)

Lemma elem_of_subs_init id t : id ∈ subs_of (ps init) t ↔ (id = 0 ∧ t = "news") ∨ (id = 1 ∧ t = "weather").
Proof. rewrite subs_of_init. repeat case_decide; subst; set_solver. Qed.

Lemma published_next k t c :
  publications !! k = Some (t, c) →
  published (if decide (S k < length publications) then MPublish (S k) else MWait) =
  published (MPublish k) ++ [(t, c)].
Proof.
  intros Hk. simpl. rewrite <-(take_S_r _ _ _ Hk). case_decide; [done|].
  apply lookup_lt_Some in Hk. simpl. rewrite take_ge; [done|]. simpl in *. lia.
Qed.

Lemma inv_publish s k t c h m :
  inv s → main s = MPublish k → publications !! k = Some (t, c) → Publish (ps s) (hp s) t c = Next h →
  m = (if decide (S k < length publications) then MPublish (S k) else MWait) → inv (set_main m (set_hp h s)).
Proof.
  intros Hinv Hm Hk Hp ->. pose proof (broker_ok_main s Hinv) as Hok.
  destruct (Publish_spec _ _ t c Hok) as (h' & Hp' & Hn & Hl). rewrite Hp in Hp'. injection Hp' as <-.
  destruct Hinv as (Hps & Hnc & Hwc & Hnx & Hfr & (cn & Hcn & Hsn) & (cw & Hcw & Hsw) & Hwg & Hxn & Hxw & Hmk).
  unfold inv. cbn [set_main set_hp ps hp news_ch weather_ch news weather wg main out ctx_cancelled].
  rewrite (published_next k t c Hk). rewrite Hm in Hsn, Hsw, Hmk. rewrite Hps in Hl.
  split_and!; try done.
  - by rewrite Hn.
  - intros id Hid. apply Hfr. rewrite Hl in Hid. destruct Hid as [x Hx].
    apply fmap_Some in Hx as (y & Hy & _). by exists y.
  - exists (if decide (t = "news") then deliver (MkMessage t c) cn else cn). split.
    + rewrite Hl, Hcn. simpl. f_equal. apply decide_ext. rewrite elem_of_subs_init. naive_solver.
    + by apply sub_ok_publish.
  - exists (if decide (t = "weather") then deliver (MkMessage t c) cw else cw). split.
    + rewrite Hl, Hcw. simpl. f_equal. apply decide_ext. rewrite elem_of_subs_init. naive_solver.
    + by apply sub_ok_publish.
  - by case_decide.
Qed.

Lemma sub_recv_next ch s m s' :
  sub_recv ch s = Next (m, s') ↔
  ∃ c b, chans (hp s) !! ch = Some c ∧ chan_buf c = m :: b ∧
    s' = set_hp (MkHeap (<[ch := MkChan b (chan_cap c) (chan_closed c)]> (chans (hp s))) (next_id (hp s))) s.
Proof.
  unfold sub_recv. split.
  - intros H. destruct (chans (hp s) !! ch) as [c|] eqn:Hc; [|done].
    unfold mbind, outcome_bind in H. destruct (chan_recv c) as [|r|[[v|] c']] eqn:Hr; try done.
    apply chan_recv_some in Hr as (b & Hb & ->). simplify_eq. eauto.
  - intros (c & b & -> & Hb & ->). unfold mbind, outcome_bind, chan_recv. by rewrite Hb.
Qed.

Lemma sub_recv_no_panic ch s r : sub_recv ch s ≠ Panicked r.
Proof.
  unfold sub_recv. destruct (chans (hp s) !! ch) as [c|]; [|done].
  unfold mbind, outcome_bind. pose proof (chan_recv_no_panic c r).
  destruct (chan_recv c) as [|r'|[[v|] c']]; congruence.
Qed.

Lemma is_Some_insert_lt (m : gmap chan_id (chan Message)) i x :
  i < 2 → (∀ id, is_Some (m !! id) → id < 2) → ∀ id, is_Some (<[i := x]> m !! id) → id < 2.
Proof. intros Hi Hm id. destruct (decide (i = id)) as [->|?]; [done|]. rewrite lookup_insert_ne; auto. Qed.

Lemma inv_news_recv s m s' :
  inv s → news s = SSelect → sub_recv 0 s = Next (m, s') → inv (emit (NewsLine (Content m)) s').
Proof.
  intros (Hps & Hnc & Hwc & Hnx & Hfr & (cn & Hcn & Hsn) & Hw & Hwg & Hxn & Hxw & Hmk) _ Hr.
  apply sub_recv_next in Hr as (c & b & Hc & Hb & ->). rewrite Hcn in Hc. injection Hc as <-.
  unfold inv. cbn [emit set_hp ps hp news_ch weather_ch news weather wg main out ctx_cancelled chans next_id].
  rewrite news_lines_snoc, weather_lines_snoc, app_nil_r, (lookup_insert_ne _ 0 1) by done.
  split_and!; try done.
  - apply is_Some_insert_lt; [lia|done].
  - eexists. split; [by rewrite lookup_insert_eq|]. by apply sub_ok_recv.
Qed.

Lemma inv_weather_recv s m s' :
  inv s → weather s = SSelect → sub_recv 1 s = Next (m, s') → inv (emit (WeatherLine (Content m)) s').
Proof.
  intros (Hps & Hnc & Hwc & Hnx & Hfr & Hn & (cw & Hcw & Hsw) & Hwg & Hxn & Hxw & Hmk) _ Hr.
  apply sub_recv_next in Hr as (c & b & Hc & Hb & ->). rewrite Hcw in Hc. injection Hc as <-.
  unfold inv. cbn [emit set_hp ps hp news_ch weather_ch news weather wg main out ctx_cancelled chans next_id].
  rewrite news_lines_snoc, weather_lines_snoc, app_nil_r, (lookup_insert_ne _ 1 0) by done.
  split_and!; try done.
  - apply is_Some_insert_lt; [lia|done].
  - eexists. split; [by rewrite lookup_insert_eq|]. by apply sub_ok_recv.
Qed.

Lemma inv_news_cancel s n :
  inv s → news s = SSelect → ctx_cancelled s = true → wg_done (wg s) = Next n →
  inv (set_wg n (set_news SExited s)).
Proof.
  intros (H1 & H2 & H3 & H4 & H5 & H6 & H7 & Hwg & Hxn & Hxw & Hmk) Hn Hc Hd.
  apply wg_done_next in Hd as [_ ->]. rewrite Hn in Hwg. unfold inv; simpl.
  split_and!; try done; [simpl in Hwg; lia|].
  destruct (main s); [done|done|]. simpl in Hwg. lia.
Qed.

Lemma inv_weather_cancel s n :
  inv s → weather s = SSelect → ctx_cancelled s = true → wg_done (wg s) = Next n →
  inv (set_wg n (set_weather SExited s)).
Proof.
  intros (H1 & H2 & H3 & H4 & H5 & H6 & H7 & Hwg & Hxn & Hxw & Hmk) Hn Hc Hd.
  apply wg_done_next in Hd as [_ ->]. rewrite Hn in Hwg. unfold inv; simpl.
  split_and!; try done; [simpl in Hwg; lia|].
  destruct (main s); [done|done|]. simpl in Hwg. lia.
Qed.

Lemma inv_wait_return s :
  inv s → main s = MWait → wg_wait_ready (wg s) = true → inv (set_main MReturned s).
Proof.
  intros (H1 & H2 & H3 & H4 & H5 & H6 & H7 & Hwg & Hxn & Hxw & Hmk) Hm Hr.
  unfold wg_wait_ready in Hr. apply bool_decide_eq_true in Hr.
  unfold inv; simpl. rewrite Hm in H6, H7. by split_and!.
Qed.

Lemma ps_inv_deadline s : inv s → inv (set_cancelled s).
Proof. intros (H1 & H2 & H3 & H4 & H5 & H6 & H7 & Hwg & Hxn & Hxw & Hmk). unfold inv; simpl. by split_and!. Qed.

Lemma chan_ids s : inv s → news_ch s = 0 ∧ weather_ch s = 1.
Proof. by intros (_ & ? & ? & _). Qed.

Lemma ps_step_inv s e s' : inv s → step s e = Next s' → inv s'.
Proof.
  intros Hinv Hs. destruct (chan_ids s Hinv) as [Hn Hw]. unfold step in Hs.
  destruct (main s) as [k| |] eqn:Hm; [| |done];
    destruct e; outcome_cases Hs;
    try match goal with p : Message * state |- _ => destruct p end;
    rewrite ?Hn, ?Hw in *;
    eauto using ps_inv_deadline, inv_publish, inv_news_recv, inv_weather_recv, inv_news_cancel,
      inv_weather_cancel, inv_wait_return.
  all: eapply inv_publish; eauto; match goal with H : decide _ = _ |- _ => by rewrite H end.
Qed.

(** ** The measure decreases *)

Lemma deliver_length msg c : length (chan_buf (deliver msg c)) ≤ S (length (chan_buf c)).
Proof. unfold deliver. case_decide; simpl; rewrite ?length_app; simpl; lia. Qed.

Lemma buffered_publish s t c h :
  inv s → Publish (ps s) (hp s) t c = Next h →
  buffered (set_hp h s) 0 + buffered (set_hp h s) 1 ≤ buffered s 0 + buffered s 1 + 1.
Proof.
  intros Hinv Hp. destruct (Publish_spec _ _ t c (broker_ok_main s Hinv)) as (h' & Hp' & _ & Hl).
  rewrite Hp in Hp'. injection Hp' as <-. destruct Hinv as (Hps & _).
  unfold buffered. cbn [set_hp hp]. rewrite !Hl, Hps.
  destruct (chans (hp s) !! 0) as [cn|], (chans (hp s) !! 1) as [cw|]; simpl;
    repeat case_decide; rewrite ?elem_of_subs_init in *;
    try pose proof (deliver_length (MkMessage t c) cn); try pose proof (deliver_length (MkMessage t c) cw);
    naive_solver lia.
Qed.

Lemma ps_step_measure s e s' : inv s → step s e = Next s' → measure s' < measure s.
Proof.
  intros Hinv Hs. pose proof Hinv as (_ & Hn & Hw & _ & _ & _ & _ & _ & _ & _ & Hmk).
  unfold step in Hs.
  destruct (main s) as [k| |] eqn:Hm; [| |done];
    destruct e; outcome_cases Hs;
    try match goal with H : sub_recv _ _ = Next ?p |- _ =>
      destruct p; apply sub_recv_next in H as (c & b & Hc & Hb & ->); rewrite ?Hn, ?Hw in Hc end;
    unfold measure, buffered; simpl;
    repeat match goal with H : ?f s = _ |- _ => progress rewrite H end; simpl;
    rewrite ?Hc, ?lookup_insert_eq, ?(lookup_insert_ne _ 0 1), ?(lookup_insert_ne _ 1 0) by done; simpl;
    rewrite ?Hb; simpl; try lia.
  all: match goal with H : Publish _ _ _ _ = Next ?h |- _ => pose proof (buffered_publish s _ _ h Hinv H) end;
    unfold buffered in *; simpl in *; lia.
Qed.

(** ** Safety and progress *)

Lemma ps_step_no_panic s e r : inv s → step s e ≠ Panicked r.
Proof.
  intros Hinv. pose proof Hinv as (_ & _ & _ & _ & _ & _ & _ & Hwg & _).
  pose proof (broker_ok_main s Hinv) as Hok. unfold step.
  destruct (main s) eqn:Hm; [| |done]; destruct e; unfold mbind, outcome_bind; repeat case_match; try done.
  all: match goal with
    | H : Publish _ _ ?t ?c = Panicked _ |- _ =>
        destruct (Publish_spec (ps s) (hp s) t c Hok) as (h & Hp & _); congruence
    | H : sub_recv _ _ = Panicked _ |- _ => by destruct (sub_recv_no_panic _ _ _ H)
    | H : wg_done _ = Panicked _ |- _ => apply wg_done_panic in H as [? _]; simpl in Hwg; lia
    end.
Qed.

Lemma ps_step_progress s : inv s → main s = MReturned ∨ ∃ e s', step s e = Next s'.
Proof.
  intros Hinv. pose proof Hinv as (_ & _ & _ & _ & _ & _ & _ & Hwg & _ & _ & Hmk).
  unfold step. destruct (main s) as [k| |] eqn:Hm; [right..|by left].
  - apply lookup_lt_is_Some_2 in Hmk as [[t c] Hk].
    destruct (Publish_spec (ps s) (hp s) t c (broker_ok_main s Hinv)) as (h & Hp & _).
    exists MainPublish. rewrite Hk. unfold mbind, outcome_bind. rewrite Hp. eauto.
  - destruct (ctx_cancelled s) eqn:Hc; [|by exists Deadline; eauto].
    destruct (news s) eqn:Hn.
    { exists NewsCancel. unfold mbind, outcome_bind.
      destruct (wg_done (wg s)) as [|r|n] eqn:Hd; [..|eauto].
      - unfold wg_done, wg_add in Hd. by case_decide.
      - apply wg_done_panic in Hd as [? _]. simpl in Hwg. lia. }
    destruct (weather s) eqn:Hw.
    { exists WeatherCancel. unfold mbind, outcome_bind.
      destruct (wg_done (wg s)) as [|r|n] eqn:Hd; [..|eauto].
      - unfold wg_done, wg_add in Hd. by case_decide.
      - apply wg_done_panic in Hd as [? _]. simpl in Hwg. lia. }
    exists MainWaitReturn. simpl in Hwg.
    unfold wg_wait_ready. rewrite bool_decide_eq_true_2 by lia. eauto.
Qed.

Lemma ps_inv_init : inv init.
Proof.
  unfold inv. simpl. split_and!; try done.
  - intros id [c Hc]. destruct id as [|[|id]]; [lia|lia|]. by rewrite !lookup_insert_ne in Hc.
  - eexists. split; [done|]. split_and!; try done.
  - eexists. split; [done|]. split_and!; try done.
  - simpl. lia.
Qed.

#[export] Instance pubsub_laws : ProgramLaws step inv (λ s, main s = MReturned) measure.
Proof.
  split.
  - apply ps_step_inv.
  - apply ps_step_measure.
  - apply ps_step_no_panic.
  - apply ps_step_progress.
Qed.

Lemma ps_reachable_inv s : reachable s → inv s.
Proof. intros Hr. eapply (laws_reachable (step := step)); [apply ps_inv_init|done]. Qed.

Lemma ps_reachable_after es s : run step init es = Next s → reachable s.
Proof. apply run_rtc. Qed.

Lemma topic_contents_published topic m :
  topic_contents topic (published m) `sublist_of` topic_contents topic publications.
Proof.
  destruct m as [k| |]; simpl; [|done|done].
  rewrite <-(take_drop k publications) at 2. unfold topic_contents.
  rewrite filter_app, fmap_app. by apply sublist_inserts_r.
Qed.

Lemma sub_ok_printed topic c printed pubs :
  sub_ok topic c printed pubs → printed `sublist_of` topic_contents topic pubs.
Proof. intros (_ & _ & _ & Hsub). etrans; [|exact Hsub]. by apply sublist_inserts_r. Qed.

(** ** Theorems *)

(** C34 (the broker never fails its client). Any sequence of
    [Subscribe], [Publish] and [Unsubscribe] calls on a new broker
    completes: no call blocks, and none panics by sending on or closing
    a closed channel. The broker stays in shape: subscribed channels
    exist and are open, each is subscribed once and to one topic. *)
Theorem pubsub_api_safe cs :
  ∃ ps h, api_run (NewPubSub, empty_heap) cs = Next (ps, h) ∧ broker_ok ps h.
Proof.
  destruct (api_run_ok (NewPubSub, empty_heap) cs broker_ok_new) as ([ps h] & Hr & Hok). by exists ps, h.
Qed.

(** C35 (best-effort delivery, no backpressure). On a broker built by
    any sequence of calls, [Publish(t, c)] returns without blocking; it
    buffers the message in the channel of each subscriber of [t] that
    has room, drops it for a subscriber whose buffer is full, and leaves
    every other channel unchanged. *)
Theorem pubsub_publish_spec cs ps h t c :
  api_run (NewPubSub, empty_heap) cs = Next (ps, h) →
  ∃ h', Publish ps h t c = Next h' ∧ next_id h' = next_id h ∧
    ∀ id, chans h' !! id =
      (λ ch, if decide (id ∈ subs_of ps t) then deliver (MkMessage t c) ch else ch) <$> chans h !! id.
Proof. intros Hr. apply Publish_spec. by eapply api_run_new_ok. Qed.

Lemma pubsub_publish_spec_witness :
  ∃ h', Publish (MkPubSub {["news" := [0]]}) (MkHeap {[0 := make_chan 1]} 1) "news" "hello" = Next h' ∧
    next_id h' = next_id (MkHeap {[0 := make_chan 1]} 1) ∧
    ∀ id, chans h' !! id =
      (λ ch, if decide (id ∈ subs_of (MkPubSub {["news" := [0]]}) "news")
             then deliver (MkMessage "news" "hello") ch else ch) <$> chans (MkHeap {[0 := make_chan 1]} 1) !! id.
Proof. apply (pubsub_publish_spec [CallSubscribe "news"]). vm_compute. reflexivity. Defined.

(** C36 (subscribe/unsubscribe round trip). On a broker built by any
    sequence of calls, subscribing to [t] and unsubscribing the channel
    returned gives a broker equivalent to the first: every topic has the
    same subscribers, so every later [Publish] behaves the same; the
    channel is closed and no other channel has changed. *)
Theorem pubsub_unsubscribe_roundtrip cs ps h t ch ps1 h1 :
  api_run (NewPubSub, empty_heap) cs = Next (ps, h) → Subscribe ps h t = (ch, ps1, h1) →
  ∃ ps2 h2, Unsubscribe ps1 h1 t ch = Next (ps2, h2) ∧ ps_equiv ps2 ps ∧
    (∀ t' c, Publish ps2 h2 t' c = Publish ps h2 t' c) ∧
    chans h2 !! ch = Some (mark_closed (make_chan 1)) ∧ (∀ id, id ≠ ch → chans h2 !! id = chans h !! id).
Proof.
  intros Hr Hs. destruct (subscribe_unsubscribe ps h t ch ps1 h1) as (ps2 & h2 & Hu & Heq & Hch & Hid);
    [by eapply api_run_new_ok|done|].
  exists ps2, h2. split_and!; try done. intros t' c. by rewrite Heq.
Qed.

Lemma pubsub_unsubscribe_roundtrip_witness :
  ∃ ps2 h2, Unsubscribe (MkPubSub {["news" := [0]]}) (MkHeap {[0 := make_chan 1]} 1) "news" 0 = Next (ps2, h2) ∧
    ps_equiv ps2 NewPubSub ∧ (∀ t' c, Publish ps2 h2 t' c = Publish NewPubSub h2 t' c) ∧
    chans h2 !! 0 = Some (mark_closed (make_chan 1)) ∧ (∀ id, id ≠ 0 → chans h2 !! id = chans empty_heap !! id).
Proof. apply (pubsub_unsubscribe_roundtrip []); vm_compute; reflexivity. Defined.

(** C37 (what the subscribers print). In every reachable state of
    [main], the news lines printed are a subsequence of the news
    contents published, in publication order, and likewise the weather
    lines: no message is printed twice, out of order, or by the wrong
    subscriber. *)
Theorem pubsub_delivery s :
  reachable s →
  news_lines (out s) `sublist_of` topic_contents "news" publications ∧
  weather_lines (out s) `sublist_of` topic_contents "weather" publications.
Proof.
  intros Hr. destruct (ps_reachable_inv s Hr) as (_ & _ & _ & _ & _ & (cn & _ & Hn) & (cw & _ & Hw) & _).
  split; (etrans; [eapply sub_ok_printed; eassumption|apply topic_contents_published]).
Qed.

Lemma pubsub_delivery_witness :
  news_lines (out (after slow_schedule)) `sublist_of` topic_contents "news" publications ∧
  weather_lines (out (after slow_schedule)) `sublist_of` topic_contents "weather" publications.
Proof. apply pubsub_delivery, (ps_reachable_after slow_schedule). vm_compute. reflexivity. Defined.

(** C38 (main is safe and returns, after the deadline). No reachable
    state panics, from every reachable state some run reaches [main]'s
    return, and [main] returns only once the context's deadline has
    passed and both subscribers have left their loops. *)
Theorem pubsub_main_safe s :
  reachable s →
  panic_free step s ∧ (∃ s', s ~[ step ]~>* s' ∧ main s' = MReturned) ∧
  (main s = MReturned → ctx_cancelled s = true ∧ news s = SExited ∧ weather s = SExited).
Proof.
  intros Hr. pose proof (ps_reachable_inv s Hr) as Hinv. split_and!.
  - by apply (laws_panic_free (inv := inv)).
  - by apply (laws_eventually_exits (inv := inv) (exited := λ s, main s = MReturned)).
  - destruct Hinv as (_ & _ & _ & _ & _ & _ & _ & Hwg & Hxn & Hxw & Hm). intros Hret. rewrite Hret in Hm.
    destruct (news s), (weather s); simpl in Hwg; try lia. auto.
Qed.

Lemma pubsub_main_safe_witness :
  panic_free step init ∧ (∃ s', init ~[ step ]~>* s' ∧ main s' = MReturned) ∧
  (main init = MReturned → ctx_cancelled init = true ∧ news init = SExited ∧ weather init = SExited).
Proof. apply pubsub_main_safe, (ps_reachable_after []). reflexivity. Defined.

End PubSub.
